(** * bigint-crypto-utils: modular arithmetic, Miller-Rabin and prime search

    A shallow embedding of [node_modules/bigint-crypto-utils/dist/bundles/esm.js].

    Conventions of the embedding.
    - A JavaScript [bigint], and an integer-valued [number] that the code
      normalises with [BigInt(a)], is a [Z].  On bigints [/] and [%] truncate
      towards zero, so they are [Z.quot] and [Z.rem]; [>>], [<<], [&], [|] are
      [Z.shiftr], [Z.shiftl], [Z.land], [Z.lor].
    - A call either returns, throws, or does not come back; [outcome] has one
      constructor for each.  Loops are run with a step budget and a loop that
      exhausts it yields [Timeout].
    - A JavaScript [number] that holds an integer is the [Z] it denotes;
      where the code computes with a number the caller chooses, the
      rounding of binary64 is written out ([decrement]).
    - Every error of the library is a [RangeError]; the message tells an
      invalid argument ("a and b MUST be > 0", "n must be > 0", ...) from a
      missing inverse ("... does not have inverse modulo ...").
    - The random byte source of the platform ([crypto.getRandomValues]) is an
      arbitrary stream of bytes [entropy : nat -> Z] read at a position that
      every call advances.
    - [_onmessage] runs to completion for each message of a worker, so a race
      of workers is a sequence of reports handled one after the other. *)

From Stdlib Require Import Ascii String DecimalString ZArith List Bool Lia Znumtheory.
Import ListNotations.
Local Open Scope Z_scope.

(** ** Outcomes of a call *)

Inductive exn : Type :=
| RangeError (msg : string).

Inductive outcome (A : Type) : Type :=
| Ok (a : A)
| Throw (e : exn)
| Timeout.

Arguments Ok {A} a.
Arguments Throw {A} e.
Arguments Timeout {A}.

Definition bind {A B : Type} (c : outcome A) (k : A -> outcome B) : outcome B :=
  match c with
  | Ok a => k a
  | Throw e => Throw e
  | Timeout => Timeout
  end.

Declare Scope outcome_scope.
Delimit Scope outcome_scope with outcome.
Notation "x <- c ;; k" := (bind c (fun x => k))
  (at level 61, c at next level, right associativity) : outcome_scope.
Notation "' p <- c ;; k" := (bind c (fun x => let 'p := x in k))
  (at level 61, p pattern, c at next level, right associativity) : outcome_scope.
Local Open Scope outcome_scope.

(** ** Loops

    One step of a loop either goes round again with a new state or leaves
    the loop with a result. *)

Inductive ctl (S R : Type) : Type :=
| Next (s : S)
| Done (r : R).

Arguments Next {S R} s.
Arguments Done {S R} r.

Fixpoint loop {S R : Type} (fuel : nat) (step : S -> outcome (ctl S R)) (s : S)
  : outcome R :=
  match fuel with
  | O => Timeout
  | Datatypes.S fuel' =>
      match step s with
      | Ok (Next s') => loop fuel' step s'
      | Ok (Done r) => Ok r
      | Throw e => Throw e
      | Timeout => Timeout
      end
  end.

(** [while (cond) body] *)
Definition while_ {S : Type} (fuel : nat) (cond : S -> bool)
  (body : S -> outcome S) (s : S) : outcome S :=
  loop fuel
    (fun s => if cond s then s' <- body s ;; Ok (Next s') else Ok (Done s)) s.

(** [do body while (cond)] *)
Definition do_while {S : Type} (fuel : nat) (body : S -> outcome S)
  (cond : S -> bool) (s : S) : outcome S :=
  loop fuel
    (fun s => s' <- body s ;; Ok (if cond s' then Next s' else Done s')) s.

(** [a.toString()] on a bigint: decimal digits, with a leading minus sign. *)
Definition toString (a : Z) : string := NilZero.string_of_int (Z.to_int a).

(** ** Numbers

    The counters of the library ([bits], [j], the byte counts) stay far
    below 2^53, where the arithmetic of numbers is exact.  The iteration
    count of the primality test is chosen by the caller and decremented by
    [--iterations]: the difference is rounded to the nearest binary64
    value, ties to the even significand.  [binary64_round x] is that
    value for an integer [x] below 2^1024 in magnitude. *)

Definition binary64_round (x : Z) : Z :=
  let ax := Z.abs x in
  if ax <=? 2 ^ 53 then x
  else
    let ulp := 2 ^ (Z.log2 ax - 52) in
    let q := ax / ulp in
    let r := ax mod ulp in
    let q :=
      if 2 * r <? ulp then q
      else if ulp <? 2 * r then q + 1
      else if Z.even q then q else q + 1 in
    Z.sgn x * (q * ulp).

(** [--x] on a number *)
Definition decrement (x : Z) : Z := binary64_round (x - 1).

(** ** Arithmetic primitives (lines 1-239) *)

Module BigIntMath.

Definition abs (a : Z) : Z := if a >=? 0 then a else - a.

(** [do { bits++ } while ((a >>= 1n) > 1n)]: the shift of the loop test is
    done at the end of the body. *)
Definition bitLength (a : Z) : outcome Z :=
  if a =? 1 then Ok 1
  else
    '(_, bits) <-
      do_while (S (Z.to_nat a))
        (fun '(a, bits) => Ok (Z.shiftr a 1, bits + 1))
        (fun '(a, _) => a >? 1)
        (a, 1) ;;
    Ok bits.

Record egcd_t : Type := { g : Z; x : Z; y : Z }.

Definition eGcd_body (s : Z * Z * Z * Z * Z * Z) : Z * Z * Z * Z * Z * Z :=
  let '(a, b, x, y, u, v) := s in
  let q := Z.quot b a in
  let r := Z.rem b a in
  let m := x - u * q in
  let n := y - v * q in
  (r, a, u, v, m, n).

Definition eGcd (a b : Z) : outcome egcd_t :=
  if (a <=? 0) || (b <=? 0) then Throw (RangeError "a and b MUST be > 0")
  else
    '(_, b, x, y, _, _) <-
      while_ (S (Z.to_nat a))
        (fun '(a, _, _, _, _, _) => negb (a =? 0))
        (fun s => Ok (eGcd_body s))
        (a, b, 0, 1, 1, 0) ;;
    Ok {| g := b; x := x; y := y |}.

(** The [do ... while (bAbs !== 0n)] body of the binary algorithm. *)
Definition gcd_body (s : Z * Z) : outcome (Z * Z) :=
  let '(aAbs, bAbs) := s in
  bAbs <-
    while_ (S (Z.to_nat bAbs))
      (fun bAbs => Z.land bAbs 1 =? 0)
      (fun bAbs => Ok (Z.shiftr bAbs 1))
      bAbs ;;
  let '(aAbs, bAbs) := if aAbs >? bAbs then (bAbs, aAbs) else (aAbs, bAbs) in
  Ok (aAbs, bAbs - aAbs).

Definition gcd (a b : Z) : outcome Z :=
  let aAbs := abs a in
  let bAbs := abs b in
  if aAbs =? 0 then Ok bAbs
  else if bAbs =? 0 then Ok aAbs
  else
    '(aAbs, bAbs, shift) <-
      while_ (S (Z.to_nat aAbs))
        (fun '(aAbs, bAbs, _) => Z.land (Z.lor aAbs bAbs) 1 =? 0)
        (fun '(aAbs, bAbs, shift) =>
           Ok (Z.shiftr aAbs 1, Z.shiftr bAbs 1, shift + 1))
        (aAbs, bAbs, 0) ;;
    aAbs <-
      while_ (S (Z.to_nat aAbs))
        (fun aAbs => Z.land aAbs 1 =? 0)
        (fun aAbs => Ok (Z.shiftr aAbs 1))
        aAbs ;;
    '(aAbs, _) <-
      do_while (S (Z.to_nat (aAbs + bAbs)))
        gcd_body
        (fun '(_, bAbs) => negb (bAbs =? 0))
        (aAbs, bAbs) ;;
    Ok (Z.shiftl aAbs shift).

(** [a / b] on bigints throws on a zero divisor. *)
Definition bigint_div (a b : Z) : outcome Z :=
  if b =? 0 then Throw (RangeError "Division by zero") else Ok (Z.quot a b).

Definition lcm (a b : Z) : outcome Z :=
  if (a =? 0) && (b =? 0) then Ok 0
  else
    d <- gcd a b ;;
    q <- bigint_div a d ;;
    Ok (abs (q * b)).

Definition max (a b : Z) : Z := if a >=? b then a else b.

Definition min (a b : Z) : Z := if a >=? b then b else a.

Definition toZn (a n : Z) : outcome Z :=
  if n <=? 0 then Throw (RangeError "n must be > 0")
  else
    let aZn := Z.rem a n in
    Ok (if aZn <? 0 then aZn + n else aZn).

Definition modInv (a n : Z) : outcome Z :=
  r <- toZn a n ;;
  egcd <- eGcd r n ;;
  if negb (g egcd =? 1) then
    Throw (RangeError
             (toString a ++ " does not have inverse modulo " ++ toString n))
  else toZn (x egcd) n.

Definition modPow_body (n : Z) (s : Z * Z * Z) : Z * Z * Z :=
  let '(r, e, b) := s in
  let r := if Z.rem e 2 =? 1 then Z.rem (r * b) n else r in
  (r, Z.quot e 2, Z.rem (b ^ 2) n).

(** [modPow] calls itself once, on [abs e], when the exponent is negative;
    [depth] bounds the nesting of calls. *)
Fixpoint modPow_rec (depth : nat) (b e n : Z) : outcome Z :=
  match depth with
  | O => Timeout
  | S depth' =>
      if n <=? 0 then Throw (RangeError "n must be > 0")
      else if n =? 1 then Ok 0
      else
        b <- toZn b n ;;
        if e <? 0 then
          p <- modPow_rec depth' b (abs e) n ;;
          modInv p n
        else
          '(r, _, _) <-
            while_ (S (Z.to_nat e))
              (fun '(_, e, _) => e >? 0)
              (fun s => Ok (modPow_body n s))
              (1, e, b) ;;
          Ok r
  end.

Definition modPow (b e n : Z) : outcome Z := modPow_rec 2 b e n.

End BigIntMath.

Import BigIntMath.

(** ** Computations that read the random source

    A computation starts at a position of the byte stream and gives back an
    outcome and the position it stopped at. *)

Definition M (A : Type) : Type := nat -> outcome A * nat.

Definition retM {A : Type} (a : A) : M A := fun p => (Ok a, p).

Definition throwM {A : Type} (e : exn) : M A := fun p => (Throw e, p).

Definition liftM {A : Type} (o : outcome A) : M A := fun p => (o, p).

Definition bindM {A B : Type} (c : M A) (k : A -> M B) : M B :=
  fun p =>
    match c p with
    | (Ok a, p') => k a p'
    | (Throw e, p') => (Throw e, p')
    | (Timeout, p') => (Timeout, p')
    end.

Declare Scope rand_scope.
Delimit Scope rand_scope with rand.
Notation "x <~ c ;; k" := (bindM c (fun x => k))
  (at level 61, c at next level, right associativity) : rand_scope.
Local Open Scope rand_scope.

Fixpoint loopM {S R : Type} (fuel : nat) (step : S -> M (ctl S R)) (s : S)
  : M R :=
  match fuel with
  | O => fun p => (Timeout, p)
  | Datatypes.S fuel' =>
      c <~ step s ;;
      match c with
      | Next s' => loopM fuel' step s'
      | Done r => retM r
      end
  end.

(** [do body while (cond)] over the random source *)
Definition do_whileM {S : Type} (fuel : nat) (body : S -> M S)
  (cond : S -> M bool) (s : S) : M S :=
  loopM fuel
    (fun s => s' <~ body s ;; c <~ cond s' ;;
              retM (if c then Next s' else Done s')) s.

(** ** Random bytes, bits and integers (lines 241-379) *)

Module SecureRandom.

Section Source.

Variable entropy : nat -> Z.

(** [new Uint8Array(len)] filled by [crypto.getRandomValues]. *)
Definition getRandomValues (len : nat) : M (list Z) :=
  fun p => (Ok (map (fun i => entropy (p + i)%nat mod 256) (seq 0 len)),
            (p + len)%nat).

(** [buf[0]], and [buf[0] = v] on a [Uint8Array]: the store keeps the low
    eight bits, and an empty array ignores it. *)
Definition get0 (buf : list Z) : Z := hd 0 buf.

Definition set0 (buf : list Z) (v : Z) : list Z :=
  match buf with
  | [] => []
  | _ :: rest => (v mod 256) :: rest
  end.

Definition fromBuffer (buf : list Z) : Z :=
  fold_left (fun ret i => Z.shiftl ret 8 + i) buf 0.

Definition randBytesSync (byteLength : Z) (forceLength : bool)
  : M (list Z) :=
  if byteLength <? 1 then throwM (RangeError "byteLength MUST be > 0")
  else
    buf <~ getRandomValues (Z.to_nat byteLength) ;;
    retM (if forceLength then set0 buf (Z.lor (get0 buf) 128) else buf).

(** The promise of [randBytes] is settled inside its executor with the
    same bytes. *)
Definition randBytes (byteLength : Z) (forceLength : bool) : M (list Z) :=
  if byteLength <? 1 then throwM (RangeError "byteLength MUST be > 0")
  else
    buf <~ getRandomValues (Z.to_nat byteLength) ;;
    retM (if forceLength then set0 buf (Z.lor (get0 buf) 128) else buf).

(** [Math.ceil(bitLength / 8)] on an integer [bitLength]. *)
Definition ceil_div8 (bitLength : Z) : Z := - ((- bitLength) / 8).

(** The masking of the first byte, which [randBits] and [randBitsSync] do
    with the same statements: clear the bits above [bitLength], then set
    the top one if the length is forced. *)
Definition mask_bits (bitLength : Z) (forceLength : bool)
  (rndBytes : list Z) : list Z :=
  let bitLengthMod8 := Z.rem bitLength 8 in
  let rndBytes :=
    if negb (bitLengthMod8 =? 0) then
      set0 rndBytes (Z.land (get0 rndBytes) (2 ^ bitLengthMod8 - 1))
    else rndBytes in
  if forceLength then
    let mask :=
      if negb (bitLengthMod8 =? 0) then 2 ^ (bitLengthMod8 - 1) else 128 in
    set0 rndBytes (Z.lor (get0 rndBytes) mask)
  else rndBytes.

Definition randBitsSync (bitLength : Z) (forceLength : bool)
  : M (list Z) :=
  if bitLength <? 1 then throwM (RangeError "bitLength MUST be > 0")
  else
    let byteLength := ceil_div8 bitLength in
    rndBytes <~ randBytesSync byteLength false ;;
    retM (mask_bits bitLength forceLength rndBytes).

Definition randBits (bitLength : Z) (forceLength : bool) : M (list Z) :=
  if bitLength <? 1 then throwM (RangeError "bitLength MUST be > 0")
  else
    let byteLength := ceil_div8 bitLength in
    rndBytes <~ randBytes byteLength false ;;
    retM (mask_bits bitLength forceLength rndBytes).

(** [do { buf = randBitsSync(bitLen); rnd = fromBuffer(buf) }
    while (rnd > interval)]; [draws] bounds the number of attempts. *)
Definition rejectionLoop (draws : nat) (bitLen interval : Z) : M Z :=
  do_whileM draws
    (fun _ => buf <~ randBitsSync bitLen false ;;
              retM (fromBuffer buf))
    (fun rnd => retM (rnd >? interval))
    0.

(** [min] is always passed here; the source defaults it to [1n]. *)
Definition randBetween (draws : nat) (max min : Z) : M Z :=
  if max <=? min then throwM (RangeError "Arguments MUST be: max > min")
  else
    let interval := max - min in
    bitLen <~ liftM (bitLength interval) ;;
    rnd <~ rejectionLoop draws bitLen interval ;;
    retM (rnd + min).

End Source.

End SecureRandom.

Import SecureRandom.

(** ** Miller-Rabin test with small-prime prefilter (lines 431-747) *)

Module Primality.

(** The first 250 odd primes. *)
Definition firstPrimes : list Z :=
  [
    3; 5; 7; 11; 13; 17; 19; 23; 29; 31; 37; 41; 43; 47; 53; 59; 61; 67;
    71; 73; 79; 83; 89; 97; 101; 103; 107; 109; 113; 127; 131; 137; 139;
    149; 151; 157; 163; 167; 173; 179; 181; 191; 193; 197; 199; 211; 223;
    227; 229; 233; 239; 241; 251; 257; 263; 269; 271; 277; 281; 283; 293;
    307; 311; 313; 317; 331; 337; 347; 349; 353; 359; 367; 373; 379; 383;
    389; 397; 401; 409; 419; 421; 431; 433; 439; 443; 449; 457; 461; 463;
    467; 479; 487; 491; 499; 503; 509; 521; 523; 541; 547; 557; 563; 569;
    571; 577; 587; 593; 599; 601; 607; 613; 617; 619; 631; 641; 643; 647;
    653; 659; 661; 673; 677; 683; 691; 701; 709; 719; 727; 733; 739; 743;
    751; 757; 761; 769; 773; 787; 797; 809; 811; 821; 823; 827; 829; 839;
    853; 857; 859; 863; 877; 881; 883; 887; 907; 911; 919; 929; 937; 941;
    947; 953; 967; 971; 977; 983; 991; 997; 1009; 1013; 1019; 1021; 1031;
    1033; 1039; 1049; 1051; 1061; 1063; 1069; 1087; 1091; 1093; 1097;
    1103; 1109; 1117; 1123; 1129; 1151; 1153; 1163; 1171; 1181; 1187;
    1193; 1201; 1213; 1217; 1223; 1229; 1231; 1237; 1249; 1259; 1277;
    1279; 1283; 1289; 1291; 1297; 1301; 1303; 1307; 1319; 1321; 1327;
    1361; 1367; 1373; 1381; 1399; 1409; 1423; 1427; 1429; 1433; 1439;
    1447; 1451; 1453; 1459; 1471; 1481; 1483; 1487; 1489; 1493; 1499;
    1511; 1523; 1531; 1543; 1549; 1553; 1559; 1567; 1571; 1579; 1583; 1597
  ].

(** [for (i = 0; i < firstPrimes.length && firstPrimes[i] <= w; i++)]: the
    result is [Some r] when the loop body returns [r], and [None] when the
    loop is left without a verdict. *)
Fixpoint trialDivision (primes : list Z) (w : Z) : option bool :=
  match primes with
  | [] => None
  | p :: rest =>
      if p <=? w then
        if w =? p then Some true
        else if Z.rem w p =? 0 then Some false
        else trialDivision rest w
      else None
  end.

(** [while (aux % 2n === 0n) { aux /= 2n; ++a }] *)
Definition twoAdicity (d : Z) : outcome Z :=
  '(_, a) <-
    while_ (S (Z.to_nat (Z.abs d)))
      (fun '(aux, _) => Z.rem aux 2 =? 0)
      (fun '(aux, a) => Ok (Z.quot aux 2, a + 1))
      (d, 0) ;;
  Ok a.

(** How a block of statements ends: it falls through with its variables,
    or the enclosing function returns. *)
Inductive completion (A R : Type) : Type :=
| Normal (a : A)
| Return (r : R).

Arguments Normal {A R} a.
Arguments Return {A R} r.

(** [while (j < a) { z = modPow(z, 2n, w); if (z === d) break;
    if (z === 1n) return false; j++ }] *)
Definition squarings (w d a z : Z) : outcome (completion Z bool) :=
  loop (S (Z.to_nat a))
    (fun '(z, j) =>
       if j <? a then
         z <- modPow z 2 w ;;
         if z =? d then Ok (Done (Normal z))
         else if z =? 1 then Ok (Done (Return false))
         else Ok (Next (z, j + 1))
       else Ok (Done (Normal z)))
    (z, 1).

(** What one round does with its witness [b]: [Return false] reports a
    composite, [Normal tt] reaches the loop test. *)
Definition witnessCheck (w d m a b : Z) : outcome (completion unit bool) :=
  z <- modPow b m w ;;
  if (z =? 1) || (z =? d) then Ok (Normal tt)
  else
    c <- squarings w d a z ;;
    match c with
    | Return r => Ok (Return r)
    | Normal z => if negb (z =? d) then Ok (Return false) else Ok (Normal tt)
    end.

Section Source.

Variable entropy : nat -> Z.

(** The body of the [do ... while (--iterations !== 0)] loop. *)
Definition round (draws : nat) (w d m a : Z) : M (completion unit bool) :=
  b <~ randBetween entropy draws d 2 ;;
  liftM (witnessCheck w d m a b).

(** [do { round } while (--iterations !== 0); return true]: a round
    that returns ends the function, the others reach the loop test.
    [rounds] bounds the number of rounds and [draws] the attempts of
    each rejection sampling. *)
Definition witnessLoop (rounds draws : nat) (w d m a iterations : Z)
  : M bool :=
  loopM rounds
    (fun iterations =>
       c <~ round draws w d m a ;;
       match c with
       | Return r => retM (Done r)
       | Normal _ =>
           let iterations := decrement iterations in
           retM (if negb (iterations =? 0) then Next iterations
                 else Done true)
       end)
    iterations.

Definition _isProbablyPrime (rounds draws : nat) (w iterations : Z)
  : M bool :=
  if w =? 2 then retM true
  else if (Z.land w 1 =? 0) || (w =? 1) then retM false
  else
    match trialDivision firstPrimes w with
    | Some r => retM r
    | None =>
        let d := w - 1 in
        a <~ liftM (twoAdicity d) ;;
        let m := Z.quot d (2 ^ a) in
        witnessLoop rounds draws w d m a iterations
    end.

(** The exported test rejects a negative candidate and hands the others
    to a worker running [_isProbablyPrime]; its promise is settled with
    the worker's answer. *)
Definition isProbablyPrime (rounds draws : nat) (w iterations : Z)
  : M bool :=
  if w <? 0 then throwM (RangeError "w MUST be >= 0")
  else _isProbablyPrime rounds draws w iterations.

End Source.

End Primality.

Import Primality.

(** ** Prime search (lines 770-851) *)

Module PrimeSearch.

(** A promise is settled at most once: [resolve] on a settled promise
    does nothing. *)
Inductive promise (A : Type) : Type :=
| Pending
| Fulfilled (v : A).

Arguments Pending {A}.
Arguments Fulfilled {A} v.

Definition resolve {A : Type} (v : A) (p : promise A) : promise A :=
  match p with
  | Pending => Fulfilled v
  | Fulfilled _ => p
  end.

(** The message sent to a worker, and the one a worker sends back. *)
Record request : Type := { rnd : Z; iterations : Z; id : Z }.

Record report : Type := { isPrime : bool; value : Z; report_id : Z }.

(** What the promise executor of [prime] and its [_onmessage] closure
    share: the list of workers, the workers already terminated, the
    messages posted to workers (latest first) and the promise of the
    search.  A worker is named by the index it was created at. *)
Record coordinator : Type := {
  workerList : list nat;
  terminated : list nat;
  posted : list (nat * request);
  result : promise Z
}.

Definition is_terminated (c : coordinator) (worker : nat) : bool :=
  existsb (Nat.eqb worker) (terminated c).

(** [worker.terminate()] *)
Definition terminate (worker : nat) (c : coordinator) : coordinator :=
  {| workerList := workerList c;
     terminated := worker :: terminated c;
     posted := posted c;
     result := result c |}.

(** [worker.postMessage(msg)]: nothing reaches a terminated worker,
    whether the platform drops the message or throws. *)
Definition postMessage (worker : nat) (msg : request) (c : coordinator)
  : coordinator :=
  if is_terminated c worker then c
  else
    {| workerList := workerList c;
       terminated := terminated c;
       posted := (worker, msg) :: posted c;
       result := result c |}.

(** [for (j = 0; j < workerList.length; j++) workerList[j].terminate()] *)
Definition terminateAll (c : coordinator) : coordinator :=
  fold_left (fun c worker => terminate worker c) (workerList c) c.

(** [while (workerList.length > 0) workerList.pop()] *)
Fixpoint popAll (n : nat) (c : coordinator) : coordinator :=
  match n with
  | O => c
  | S n' =>
      popAll n'
        {| workerList := removelast (workerList c);
           terminated := terminated c;
           posted := posted c;
           result := result c |}
  end.

Definition settle (v : Z) (c : coordinator) : coordinator :=
  {| workerList := workerList c;
     terminated := terminated c;
     posted := posted c;
     result := resolve v (result c) |}.

Section Source.

Variable entropy : nat -> Z.

(** [do { rnd = fromBuffer(randBitsSync(bitLength, true)) }
    while (!_isProbablyPrime(rnd, iterations))]; [tries] bounds the
    number of candidates. *)
Definition search (tries rounds draws : nat) (bitLength iterations : Z)
  : M Z :=
  do_whileM tries
    (fun _ => buf <~ randBitsSync entropy bitLength true ;;
              retM (fromBuffer buf))
    (fun rnd => ok <~ _isProbablyPrime entropy rounds draws rnd iterations ;;
                retM (negb ok))
    0.

Definition primeSync (tries rounds draws : nat) (bitLength iterations : Z)
  : M Z :=
  if bitLength <? 1 then throwM (RangeError "bitLength MUST be > 0")
  else search tries rounds draws bitLength iterations.

(** The handler of a worker's message. *)
Definition _onmessage (bitLength iterations : Z) (msg : report)
  (newWorker : nat) (c : coordinator) : M coordinator :=
  if isPrime msg then
    let c := terminateAll c in
    let c := popAll (List.length (workerList c)) c in
    retM (settle (value msg) c)
  else
    buf <~ randBitsSync entropy bitLength true ;;
    let rnd := fromBuffer buf in
    let msgToWorker :=
      {| rnd := rnd; iterations := iterations; id := report_id msg |} in
    retM (postMessage newWorker msgToWorker c).

(** [for (i = 0; i < workerList.length; i++) randBits(bitLength, true)
    .then(buf => workerList[i].postMessage(...))]: the bytes are drawn
    when [randBits] is called, and the callbacks run in the order of the
    calls before any message of a worker is handled. *)
Fixpoint postInitial (bitLength iterations : Z) (workers : list nat)
  (c : coordinator) : M coordinator :=
  match workers with
  | [] => retM c
  | i :: rest =>
      buf <~ randBits entropy bitLength true ;;
      let rnd := fromBuffer buf in
      postInitial bitLength iterations rest
        (postMessage i
           {| rnd := rnd; iterations := iterations; id := Z.of_nat i |} c)
  end.

(** [_useWorkers] is the flag set when the module is loaded and
    [hardwareConcurrency] is [navigator.hardwareConcurrency]; one worker
    is created for each unit but one. *)
Definition prime (_useWorkers : bool) (hardwareConcurrency : Z)
  (tries rounds draws : nat) (bitLength iterations : Z) : M coordinator :=
  if bitLength <? 1 then throwM (RangeError "bitLength MUST be > 0")
  else if negb _useWorkers then
    rnd <~ search tries rounds draws bitLength iterations ;;
    retM {| workerList := []; terminated := []; posted := [];
            result := Fulfilled rnd |}
  else
    let workers := seq 0 (Z.to_nat (hardwareConcurrency - 1)) in
    postInitial bitLength iterations workers
      {| workerList := workers; terminated := []; posted := [];
         result := Pending |}.

End Source.

(** The message a worker answers a request with: it runs
    [_isProbablyPrime] on its own random source and reports the verdict
    together with the candidate and the id it was given. *)
Inductive answers (msg : request) : report -> Prop :=
| answers_intro (workerEntropy : nat -> Z) (rounds draws : nat)
    (p p' : nat) (verdict : bool) :
    _isProbablyPrime workerEntropy rounds draws (rnd msg) (iterations msg) p
    = (Ok verdict, p') ->
    answers msg
      {| isPrime := verdict; value := rnd msg; report_id := id msg |}.

(** One step of the parallel search: a worker answers a message posted
    to it and the coordinator handles the answer. *)
Inductive step (entropy : nat -> Z) (bitLength iterations : Z)
  : coordinator * nat -> coordinator * nat -> Prop :=
| step_report (c c' : coordinator) (p p' : nat) (worker : nat)
    (msg : request) (r : report) :
    In (worker, msg) (posted c) ->
    answers msg r ->
    _onmessage entropy bitLength iterations r worker c p = (Ok c', p') ->
    step entropy bitLength iterations (c, p) (c', p').

Inductive steps (entropy : nat -> Z) (bitLength iterations : Z)
  : coordinator * nat -> coordinator * nat -> Prop :=
| steps_refl (s : coordinator * nat) : steps entropy bitLength iterations s s
| steps_cons (s1 s2 s3 : coordinator * nat) :
    steps entropy bitLength iterations s1 s2 ->
    step entropy bitLength iterations s2 s3 ->
    steps entropy bitLength iterations s1 s3.

(** The same search with the runs of the workers written down.  A run of
    the test by a worker: the worker, the request it answers, its random
    source and budgets, the position it starts at, its verdict and the
    position it stops at. *)
Record testRun : Type := {
  run_worker : nat;
  run_request : request;
  run_entropy : nat -> Z;
  run_rounds : nat;
  run_draws : nat;
  run_start : nat;
  run_verdict : bool;
  run_stop : nat
}.

(** The run is one of [_isProbablyPrime] on the candidate and with the
    iteration count of its request. *)
Definition run_tested (r : testRun) : Prop :=
  _isProbablyPrime (run_entropy r) (run_rounds r) (run_draws r)
    (rnd (run_request r)) (iterations (run_request r)) (run_start r)
  = (Ok (run_verdict r), run_stop r).

(** [postMessage(_m)] of the worker *)
Definition run_report (r : testRun) : report :=
  {| isPrime := run_verdict r;
     value := rnd (run_request r);
     report_id := id (run_request r) |}.

Inductive run_step (entropy : nat -> Z) (bitLength iterations : Z)
  : coordinator * nat -> testRun -> coordinator * nat -> Prop :=
| run_step_report (c c' : coordinator) (p p' : nat) (r : testRun) :
    In (run_worker r, run_request r) (posted c) ->
    run_tested r ->
    _onmessage entropy bitLength iterations (run_report r) (run_worker r) c p
    = (Ok c', p') ->
    run_step entropy bitLength iterations (c, p) r (c', p').

(** The runs are listed in the order their reports are handled. *)
Inductive run_steps (entropy : nat -> Z) (bitLength iterations : Z)
  : coordinator * nat -> list testRun -> coordinator * nat -> Prop :=
| run_steps_refl (s : coordinator * nat) :
    run_steps entropy bitLength iterations s [] s
| run_steps_cons (s1 s2 s3 : coordinator * nat) (log : list testRun)
    (r : testRun) :
    run_steps entropy bitLength iterations s1 log s2 ->
    run_step entropy bitLength iterations s2 r s3 ->
    run_steps entropy bitLength iterations s1 (log ++ [r]) s3.

(** The sequential search from a position [p] of the source: candidates
    are drawn and tested one after the other, each from the position the
    one before stopped at, until the test accepts one. *)
Inductive search_run (entropy : nat -> Z) (rounds draws : nat)
  (bitLength iterations : Z) : nat -> Z -> nat -> Prop :=
| search_run_found (p p1 p' : nat) (buf : list Z) :
    randBitsSync entropy bitLength true p = (Ok buf, p1) ->
    _isProbablyPrime entropy rounds draws (fromBuffer buf) iterations p1
    = (Ok true, p') ->
    search_run entropy rounds draws bitLength iterations p (fromBuffer buf) p'
| search_run_retry (p p1 p2 p' : nat) (buf : list Z) (v : Z) :
    randBitsSync entropy bitLength true p = (Ok buf, p1) ->
    _isProbablyPrime entropy rounds draws (fromBuffer buf) iterations p1
    = (Ok false, p2) ->
    search_run entropy rounds draws bitLength iterations p2 v p' ->
    search_run entropy rounds draws bitLength iterations p v p'.

(** Handling a sequence of reports, whatever they are and whoever sends
    them, one after the other. *)
Fixpoint handleAll (entropy : nat -> Z) (bitLength iterations : Z)
  (trace : list (report * nat)) (c : coordinator) : M coordinator :=
  match trace with
  | [] => retM c
  | (msg, worker) :: rest =>
      c' <~ _onmessage entropy bitLength iterations msg worker c ;;
      handleAll entropy bitLength iterations rest c'
  end.

End PrimeSearch.

Import PrimeSearch.

(** * Vocabulary of the properties *)

(** ** Loop invariants *)

(** Extended Euclid: both remainders are combinations of the inputs. *)
Definition eGcd_inv (a0 b0 : Z) (s : Z * Z * Z * Z * Z * Z) : Prop :=
  let '(a, b, x, y, u, v) := s in
  0 <= a /\ 0 < b /\ b = a0 * x + b0 * y /\ a = a0 * u + b0 * v /\
  Z.gcd a b = Z.gcd a0 b0.

(** Square and multiply: what is left to compute times the accumulator is
    the power asked for. *)
Definition modPow_inv (b0 e0 n : Z) (s : Z * Z * Z) : Prop :=
  let '(r, e, b) := s in
  0 <= r < n /\ 0 <= e /\ 0 <= b < n /\
  (r * b ^ e) mod n = (b0 ^ e0) mod n.

(** ** Bytes, bit lengths and accepted candidates *)

Definition is_byte (b : Z) : Prop := 0 <= b < 256.

(** A source that only yields the byte 0: every draw of [randBetween]
    accepts its first attempt and returns [min]. *)
Definition zeroEntropy : nat -> Z := fun _ => 0.

(** A source whose first two bytes are 0x06 and 0x3E. *)
Definition topEntropy : nat -> Z :=
  fun i => match i with
           | O => 6
           | S O => 62
           | _ => 0
           end.

(** A source whose first two bytes are 0x06 and 0x41: the first 11-bit
    candidate drawn from it is 1601, and every draw after it returns
    [min]. *)
Definition candidateEntropy : nat -> Z :=
  fun i => match i with
           | O => 6
           | S O => 65
           | _ => 0
           end.

(** [v] has exactly [n] bits. *)
Definition exact_bits (n v : Z) : Prop := 2 ^ (n - 1) <= v < 2 ^ n.

(** Some run of the primality test, on some random source, accepts [v]. *)
Definition passes (iterations v : Z) : Prop :=
  exists (entropy : nat -> Z) (rounds draws p p' : nat),
    _isProbablyPrime entropy rounds draws v iterations p = (Ok true, p').

(** What the coordinator keeps true: every candidate handed to a worker has
    [n] bits and carries the iteration count of the call, and a value the
    promise is fulfilled with has [n] bits and was accepted by the test. *)
Definition coordinator_inv (n iterations0 : Z) (c : coordinator) : Prop :=
  (forall worker msg, In (worker, msg) (posted c) ->
     exact_bits n (rnd msg) /\ iterations msg = iterations0) /\
  (forall v, result c = Fulfilled v -> exact_bits n v /\ passes iterations0 v).

(** ** A race used as an example: two workers, one composite report, then a
    prime report of worker 1 and a late prime report of worker 0 *)

Definition raceStart : coordinator :=
  {| workerList := [0%nat; 1%nat]; terminated := []; posted := [];
     result := Pending |}.

Definition compositeReport : report :=
  {| isPrime := false; value := 2; report_id := 0 |}.

Definition primeReport : report :=
  {| isPrime := true; value := 3; report_id := 1 |}.

Definition latePrimeReport : report :=
  {| isPrime := true; value := 2; report_id := 0 |}.

(** ** Primes, for the statements about the prefilter *)

(** The integers from [lo] on, [len] of them. *)
Definition zrange (lo : Z) (len : nat) : list Z :=
  map (fun i => lo + Z.of_nat i) (seq 0 len).

(** Trial division by every integer of [2, w-1], as a reference. *)
Definition primeb (w : Z) : bool :=
  (1 <? w) &&
  forallb (fun d => negb (w mod d =? 0)) (zrange 2 (Z.to_nat (w - 2))).

Fixpoint increasing (l : list Z) : bool :=
  match l with
  | a :: (b :: _) as rest => (a <? b) && increasing rest
  | _ => true
  end.

(** A candidate with a verdict before the witness loop: 0, 1, an even
    number, or a multiple of a prime of the table. *)
Definition prefiltered (w : Z) : Prop :=
  w < 2 \/ w mod 2 = 0 \/ exists q, In q firstPrimes /\ (q | w).

Definition prefilteredb (w : Z) : bool :=
  (w <? 2) || (w mod 2 =? 0) || existsb (fun q => w mod q =? 0) firstPrimes.

(** [w], with w - 1 = 2^a * m, is a strong probable prime to the base
    [b] (FIPS 186-4 C.3.1, steps 4.3 to 4.5). *)
Definition strong_probable_prime (w a m b : Z) : Prop :=
  b ^ m mod w = 1 \/
  exists i, 0 <= i < a /\ b ^ (m * 2 ^ i) mod w = w - 1.

(** ** The draws of a run of the test *)

(** The results of [k] calls [randBetween(d, 2n)] made one after the
    other from the position [p] of the source, each with [draws] attempts,
    and the position after the last of them; [None] when one of them does
    not return. *)
Fixpoint successiveDraws (entropy : nat -> Z) (draws : nat) (d : Z)
  (k : nat) (p : nat) : option (list Z * nat) :=
  match k with
  | O => Some ([], p)
  | S k' =>
      match randBetween entropy draws d 2 p with
      | (Ok b, p1) =>
          match successiveDraws entropy draws d k' p1 with
          | Some (bases, p') => Some (b :: bases, p')
          | None => None
          end
      | _ => None
      end
  end.

(** A base of [2, w-1] that a round lets through. *)
Definition accepted (w a m b : Z) : Prop :=
  2 <= b <= w - 1 /\ strong_probable_prime w a m b.

(** The loop test [--iterations !== 0] lets a run go on after each of its
    first [k] rounds. *)
Fixpoint continues (k : nat) (iterations : Z) : bool :=
  match k with
  | O => true
  | S k' =>
      negb (decrement iterations =? 0) && continues k' (decrement iterations)
  end.

(** [q] is a position at which the run of the test of [w] with the
    iteration count [iterations], started at [p], draws a base: [w]
    reaches the witness loop, and the run stands at [q] after [k] accepted
    draws in a row from [p], the loop test having let it go on after each
    of them. *)
Definition run_draw (entropy : nat -> Z) (w iterations : Z) (p q : nat)
  : Prop :=
  3 <= w /\ w mod 2 = 1 /\ trialDivision firstPrimes w = None /\
  exists a k draws bases,
    twoAdicity (w - 1) = Ok a /\ continues k iterations = true /\
    successiveDraws entropy draws (w - 1) k p = Some (bases, q) /\
    Forall (accepted w a (Z.quot (w - 1) (2 ^ a))) bases.

(** What the coordinator keeps true of the runs written down: every run
    answers a message the coordinator posted; while the promise is pending
    no run has reported a prime; a fulfilled promise holds the candidate of
    the first run that reported a prime. *)
Definition log_inv (c : coordinator) (log : list testRun) : Prop :=
  Forall (fun r => In (run_worker r, run_request r) (posted c) /\
                   run_tested r) log /\
  match result c with
  | Pending => Forall (fun r => run_verdict r = false) log
  | Fulfilled v =>
      exists before run later,
        log = before ++ run :: later /\
        Forall (fun r => run_verdict r = false) before /\
        run_verdict run = true /\
        rnd (run_request run) = v
  end.

(** * Properties *)

(** ** Rules for loops: an invariant and a measure that decreases *)

Section LoopRules.

Context {S R : Type}.

Lemma loop_rule (Inv : S -> Prop) (Post : R -> Prop) (mu : S -> nat)
  (step : S -> outcome (ctl S R)) :
  (forall s, Inv s ->
     (exists s', step s = Ok (Next s') /\ Inv s' /\ (mu s' < mu s)%nat) \/
     (exists r, step s = Ok (Done r) /\ Post r)) ->
  forall fuel s, Inv s -> (mu s < fuel)%nat ->
  exists r, loop fuel step s = Ok r /\ Post r.
Proof.
  intros Hstep fuel. induction fuel as [|fuel IH]; intros s Hinv Hmu.
  - lia.
  - simpl. destruct (Hstep s Hinv) as [[s' [E [Hi Hd]]]|[r [E Hp]]];
      rewrite E.
    + apply IH; [assumption | lia].
    + exists r. split; [reflexivity | assumption].
Qed.

(** More fuel never changes a result that was reached. *)
Lemma loop_more_fuel (step : S -> outcome (ctl S R)) :
  forall fuel fuel' s r, (fuel <= fuel')%nat ->
  loop fuel step s = Ok r -> loop fuel' step s = Ok r.
Proof.
  induction fuel as [|fuel IH]; intros fuel' s r Hle H.
  - discriminate.
  - destruct fuel' as [|fuel']; [lia|]. simpl in *.
    destruct (step s) as [[s'|r']| |]; try discriminate.
    + apply IH; [lia | assumption].
    + assumption.
Qed.

End LoopRules.

Section WhileRules.

Context {S : Type}.

Lemma while_rule (Inv : S -> Prop) (mu : S -> nat) (cond : S -> bool)
  (body : S -> outcome S) :
  (forall s, Inv s -> cond s = true ->
     exists s', body s = Ok s' /\ Inv s' /\ (mu s' < mu s)%nat) ->
  forall fuel s, Inv s -> (mu s < fuel)%nat ->
  exists s', while_ fuel cond body s = Ok s' /\ Inv s' /\ cond s' = false.
Proof.
  intros Hbody fuel s Hinv Hmu. unfold while_.
  apply (loop_rule Inv (fun s' => Inv s' /\ cond s' = false) mu);
    try assumption.
  intros t Ht. destruct (cond t) eqn:Ec.
  - left. destruct (Hbody t Ht Ec) as [t' [E [Hi Hd]]].
    exists t'. rewrite E. simpl. auto.
  - right. exists t. auto.
Qed.

Lemma do_while_rule (Inv Q : S -> Prop) (mu : S -> nat)
  (body : S -> outcome S) (cond : S -> bool) :
  (forall s, Inv s ->
     exists s', body s = Ok s' /\ Q s' /\
                (cond s' = true -> Inv s' /\ (mu s' < mu s)%nat)) ->
  forall fuel s, Inv s -> (mu s < fuel)%nat ->
  exists s', do_while fuel body cond s = Ok s' /\ Q s' /\ cond s' = false.
Proof.
  intros Hbody fuel s Hinv Hmu. unfold do_while.
  apply (loop_rule Inv (fun s' => Q s' /\ cond s' = false) mu);
    try assumption.
  intros t Ht. destruct (Hbody t Ht) as [t' [E [Hq Hc]]].
  rewrite E. simpl. destruct (cond t') eqn:Ec.
  - left. exists t'. destruct (Hc eq_refl). auto.
  - right. exists t'. auto.
Qed.

End WhileRules.

(** ** Bit operations used as arithmetic *)

Lemma land_1_mod2 (a : Z) : Z.land a 1 = a mod 2.
Proof. exact (Z.land_ones a 1 ltac:(lia)). Qed.

Lemma shiftr_1_div2 (a : Z) : Z.shiftr a 1 = a / 2.
Proof. rewrite Z.shiftr_div_pow2 by lia. reflexivity. Qed.

Lemma abs_Zabs (a : Z) : abs a = Z.abs a.
Proof. unfold abs. destruct (Z.geb_spec a 0); lia. Qed.

Lemma even_split (a : Z) : a mod 2 = 0 -> a = 2 * (a / 2).
Proof. intros H. pose proof (Z.div_mod a 2 ltac:(lia)). lia. Qed.

Lemma gcd_even_odd (a b : Z) : b mod 2 = 1 -> Z.gcd (2 * a) b = Z.gcd a b.
Proof.
  intros Hb.
  apply Z.divide_antisym_nonneg; try apply Z.gcd_nonneg.
  - apply Z.gcd_greatest; [|apply Z.gcd_divide_r].
    apply Z.gauss with (m := 2); [apply Z.gcd_divide_l|].
    assert (Hd : (Z.gcd (Z.gcd (2 * a) b) 2 | 2)) by apply Z.gcd_divide_r.
    assert (H0 : 0 <= Z.gcd (Z.gcd (2 * a) b) 2) by apply Z.gcd_nonneg.
    apply Z.divide_pos_le in Hd; [|lia].
    assert (Hc : Z.gcd (Z.gcd (2 * a) b) 2 = 0 \/ Z.gcd (Z.gcd (2 * a) b) 2 = 1
                 \/ Z.gcd (Z.gcd (2 * a) b) 2 = 2) by lia.
    destruct Hc as [Hc|[Hc|Hc]]; [|exact Hc|].
    + apply Z.gcd_eq_0_r in Hc. lia.
    + exfalso.
      assert (H2 : (2 | b)).
      { apply Z.divide_trans with (Z.gcd (2 * a) b);
          [|apply Z.gcd_divide_r].
        rewrite <- Hc at 1. apply Z.gcd_divide_l. }
      apply Z.mod_divide in H2; lia.
  - apply Z.gcd_greatest; [|apply Z.gcd_divide_r].
    apply Z.divide_trans with a; [apply Z.gcd_divide_l|].
    exists 2. lia.
Qed.

Lemma gcd_halve_l (a b : Z) :
  a mod 2 = 0 -> b mod 2 = 1 -> Z.gcd (a / 2) b = Z.gcd a b.
Proof.
  intros Ha Hb. rewrite (even_split a Ha) at 2. symmetry.
  apply gcd_even_odd. assumption.
Qed.

Lemma gcd_halve_both (a b : Z) :
  a mod 2 = 0 -> b mod 2 = 0 -> Z.gcd a b = 2 * Z.gcd (a / 2) (b / 2).
Proof.
  intros Ha Hb. rewrite (even_split a Ha) at 1. rewrite (even_split b Hb) at 1.
  apply Z.gcd_mul_mono_l_nonneg. lia.
Qed.

Lemma half_pos (a : Z) : 0 < a -> a mod 2 = 0 -> 0 < a / 2 < a.
Proof. intros H0 H. pose proof (even_split a H). lia. Qed.

Lemma lor_land_1 (a b : Z) :
  Z.land (Z.lor a b) 1 = 0 <-> a mod 2 = 0 /\ b mod 2 = 0.
Proof.
  rewrite Z.land_lor_distr_l, Z.lor_eq_0_iff, !land_1_mod2. tauto.
Qed.

(** ** Extended Euclid *)

Lemma eGcd_body_inv (a0 b0 : Z) (s : Z * Z * Z * Z * Z * Z) :
  eGcd_inv a0 b0 s ->
  (let '(a, _, _, _, _, _) := s in negb (a =? 0)) = true ->
  eGcd_inv a0 b0 (eGcd_body s) /\
  (Z.to_nat (let '(a, _, _, _, _, _) := eGcd_body s in a)
   < Z.to_nat (let '(a, _, _, _, _, _) := s in a))%nat.
Proof.
  destruct s as [[[[[a b] x] y] u] v]. unfold eGcd_inv, eGcd_body.
  intros (Ha & Hb & Ex & Eu & Eg) Hc.
  apply negb_true_iff, Z.eqb_neq in Hc.
  assert (Hapos : 0 < a) by lia.
  rewrite Z.rem_mod_nonneg by lia.
  rewrite Z.quot_div_nonneg by lia.
  pose proof (Z.mod_pos_bound b a Hapos) as Hm.
  pose proof (Z.div_mod b a ltac:(lia)) as Hdm.
  repeat split; try lia.
  - rewrite Z.gcd_mod by lia. assumption.
Qed.

Lemma eGcd_spec (a b : Z) :
  0 < a -> 0 < b ->
  exists x y,
    eGcd a b = Ok {| g := Z.gcd a b; x := x; y := y |} /\
    a * x + b * y = Z.gcd a b.
Proof.
  intros Ha Hb. unfold eGcd.
  replace ((a <=? 0) || (b <=? 0)) with false
    by (symmetry; apply orb_false_iff; split; apply Z.leb_gt; assumption).
  destruct (while_rule (eGcd_inv a b)
              (fun s => Z.to_nat (let '(a, _, _, _, _, _) := s in a))
              (fun '(a, _, _, _, _, _) => negb (a =? 0))
              (fun s => Ok (eGcd_body s)))
    with (fuel := S (Z.to_nat a)) (s := (a, b, 0, 1, 1, 0))
    as [s' [E [Hinv Hc]]].
  - intros s Hs Hcond. exists (eGcd_body s). split; [reflexivity|].
    apply eGcd_body_inv; assumption.
  - unfold eGcd_inv. repeat split; lia.
  - lia.
  - rewrite E. destruct s' as [[[[[a' b'] x'] y'] u'] v']. simpl.
    apply negb_false_iff, Z.eqb_eq in Hc. subst a'.
    destruct Hinv as (_ & Hb' & Ex & _ & Eg).
    simpl in Eg. rewrite Z.abs_eq in Eg by lia.
    exists x', y'. split; [congruence | lia].
Qed.

Lemma eGcd_throws (a b : Z) :
  a <= 0 \/ b <= 0 -> eGcd a b = Throw (RangeError "a and b MUST be > 0").
Proof.
  intros H. unfold eGcd.
  replace ((a <=? 0) || (b <=? 0)) with true; [reflexivity|].
  symmetry. apply orb_true_iff. destruct H; [left|right]; apply Z.leb_le; lia.
Qed.

(** ** Binary gcd *)

Lemma strip_twos (a b : Z) :
  0 < b -> a mod 2 = 1 ->
  exists b',
    while_ (S (Z.to_nat b)) (fun bAbs => Z.land bAbs 1 =? 0)
      (fun bAbs => Ok (Z.shiftr bAbs 1)) b = Ok b' /\
    0 < b' <= b /\ b' mod 2 = 1 /\ Z.gcd a b' = Z.gcd a b.
Proof.
  intros Hb Ha.
  destruct (while_rule
              (fun b' => 0 < b' <= b /\ Z.gcd a b' = Z.gcd a b)
              Z.to_nat
              (fun bAbs => Z.land bAbs 1 =? 0)
              (fun bAbs => Ok (Z.shiftr bAbs 1)))
    with (fuel := S (Z.to_nat b)) (s := b) as [b' [E [[Hr Hg] Hc]]].
  - intros t [Ht Hg] Hc. rewrite land_1_mod2 in Hc. apply Z.eqb_eq in Hc.
    exists (Z.shiftr t 1). split; [reflexivity|].
    rewrite shiftr_1_div2. pose proof (half_pos t ltac:(lia) Hc).
    repeat split; try lia.
    rewrite <- Hg. rewrite (Z.gcd_comm a (t / 2)), (Z.gcd_comm a t).
    apply gcd_halve_l; assumption.
  - split; [lia | reflexivity].
  - lia.
  - exists b'. rewrite land_1_mod2 in Hc. apply Z.eqb_neq in Hc.
    pose proof (Z.mod_pos_bound b' 2 ltac:(lia)).
    repeat split; try assumption; lia.
Qed.

Lemma gcd_correct (a b : Z) : gcd a b = Ok (Z.gcd a b).
Proof.
  unfold gcd. rewrite !abs_Zabs.
  destruct (Z.eqb_spec (Z.abs a) 0) as [Ha|Ha].
  { f_equal. assert (a = 0) by lia. subst a. reflexivity. }
  destruct (Z.eqb_spec (Z.abs b) 0) as [Hb|Hb].
  { f_equal. assert (b = 0) by lia. subst b. symmetry. apply Z.gcd_0_r. }
  rewrite <- (Z.gcd_abs_l a b), <- (Z.gcd_abs_r (Z.abs a) b).
  pose proof (Z.abs_nonneg a) as Ha0. pose proof (Z.abs_nonneg b) as Hb0.
  generalize dependent (Z.abs b). generalize dependent (Z.abs a).
  clear a b. intros a Ha Ha0 b Hb Hb0.
  (* common factors of two *)
  destruct (while_rule
              (fun '(a', b', sh) =>
                 0 < a' /\ 0 < b' /\ 0 <= sh /\
                 Z.gcd a b = 2 ^ sh * Z.gcd a' b')
              (fun '(a', _, _) => Z.to_nat a')
              (fun '(aAbs, bAbs, _) => Z.land (Z.lor aAbs bAbs) 1 =? 0)
              (fun '(aAbs, bAbs, shift) =>
                 Ok (Z.shiftr aAbs 1, Z.shiftr bAbs 1, shift + 1)))
    with (fuel := S (Z.to_nat a)) (s := (a, b, 0))
    as [[[a1 b1] sh] [E1 [(Ha1 & Hb1 & Hsh & Hg1) Hc1]]].
  { intros [[a' b'] sh] (Ha' & Hb' & Hsh & Hg) Hc.
    apply Z.eqb_eq, lor_land_1 in Hc. destruct Hc as [Ea Eb].
    eexists. split; [reflexivity|]. rewrite !shiftr_1_div2.
    pose proof (half_pos a' Ha' Ea). pose proof (half_pos b' Hb' Eb).
    repeat split; try lia.
    rewrite Hg, (gcd_halve_both a' b' Ea Eb), Z.pow_add_r by lia. lia. }
  { repeat split; try lia. }
  { lia. }
  rewrite E1. simpl.
  apply Z.eqb_neq in Hc1. rewrite lor_land_1 in Hc1.
  (* factors of two of a *)
  destruct (while_rule
              (fun a' => 0 < a' /\ (a' mod 2 = 1 \/ b1 mod 2 = 1) /\
                         Z.gcd a' b1 = Z.gcd a1 b1)
              Z.to_nat
              (fun aAbs => Z.land aAbs 1 =? 0)
              (fun aAbs => Ok (Z.shiftr aAbs 1)))
    with (fuel := S (Z.to_nat a1)) (s := a1)
    as [a2 [E2 [(Ha2 & _ & Hg2) Hc2]]].
  { intros t (Ht & Hp & Hg) Hc. rewrite land_1_mod2 in Hc.
    apply Z.eqb_eq in Hc. exists (Z.shiftr t 1). split; [reflexivity|].
    rewrite shiftr_1_div2. pose proof (half_pos t Ht Hc).
    assert (Hb1odd : b1 mod 2 = 1) by lia.
    repeat split; try lia.
    rewrite <- Hg. apply gcd_halve_l; assumption. }
  { repeat split; try lia.
    pose proof (Z.mod_pos_bound a1 2 ltac:(lia)).
    pose proof (Z.mod_pos_bound b1 2 ltac:(lia)). lia. }
  { lia. }
  rewrite E2. simpl.
  rewrite land_1_mod2 in Hc2. apply Z.eqb_neq in Hc2.
  assert (Ha2odd : a2 mod 2 = 1)
    by (pose proof (Z.mod_pos_bound a2 2 ltac:(lia)); lia).
  (* subtraction loop *)
  destruct (do_while_rule
              (fun '(a', b') =>
                 0 < a' /\ a' mod 2 = 1 /\ 0 < b' /\
                 Z.gcd a' b' = Z.gcd a1 b1)
              (fun '(a', b') =>
                 0 < a' /\ 0 <= b' /\ Z.gcd a' b' = Z.gcd a1 b1)
              (fun '(a', b') => Z.to_nat (a' + b'))
              gcd_body
              (fun '(_, bAbs) => negb (bAbs =? 0)))
    with (fuel := S (Z.to_nat (a2 + b1))) (s := (a2, b1))
    as [[a3 b3] [E3 [(Ha3 & _ & Hg3) Hc3]]].
  { intros [a' b'] (Ha' & Hodd & Hb' & Hg). unfold gcd_body.
    destruct (strip_twos a' b' Hb' Hodd) as [b'' [E [Hr [Hbodd Hg']]]].
    rewrite E. simpl.
    destruct (Z.gtb_spec a' b'') as [Hgt|Hle].
    - eexists. split; [reflexivity|]. split.
      + repeat split; try lia.
        rewrite Z.gcd_sub_diag_r, Z.gcd_comm. congruence.
      + intros Hc. apply negb_true_iff, Z.eqb_neq in Hc.
        repeat split; try lia.
        * rewrite Z.gcd_sub_diag_r, Z.gcd_comm. congruence.
    - eexists. split; [reflexivity|]. split.
      + repeat split; try lia.
        rewrite Z.gcd_sub_diag_r. congruence.
      + intros Hc. apply negb_true_iff, Z.eqb_neq in Hc.
        repeat split; try lia.
        * rewrite Z.gcd_sub_diag_r. congruence. }
  { repeat split; try lia. }
  { lia. }
  rewrite E3. simpl.
  apply negb_false_iff, Z.eqb_eq in Hc3. subst b3.
  rewrite Z.gcd_0_r, Z.abs_eq in Hg3 by lia.
  rewrite Z.shiftl_mul_pow2 by lia. f_equal. rewrite Hg1. lia.
Qed.

(** ** Residues *)

Lemma toZn_mod (a n : Z) : 0 < n -> toZn a n = Ok (a mod n).
Proof.
  intros Hn. unfold toZn.
  destruct (Z.leb_spec n 0) as [?|_]; [lia|]. f_equal.
  pose proof (Z.quot_rem' a n) as Hqr.
  pose proof (Z.rem_bound_abs a n ltac:(lia)) as Hb.
  destruct (Z.ltb_spec (Z.rem a n) 0) as [Hneg|Hpos].
  - apply Z.mod_unique with (q := Z.quot a n - 1); lia.
  - apply Z.mod_unique with (q := Z.quot a n); lia.
Qed.

Lemma toZn_throws (a n : Z) :
  n <= 0 -> toZn a n = Throw (RangeError "n must be > 0").
Proof.
  intros Hn. unfold toZn. destruct (Z.leb_spec n 0); [reflexivity | lia].
Qed.

(** ** Least common multiple *)

Lemma lcm_correct (a b : Z) : lcm a b = Ok (Z.lcm a b).
Proof.
  unfold lcm.
  destruct (Z.eqb_spec a 0) as [Ha|Ha]; simpl.
  - destruct (Z.eqb_spec b 0) as [Hb|Hb].
    + subst. reflexivity.
    + subst a. rewrite gcd_correct. cbn [bind]. unfold bigint_div.
      rewrite Z.gcd_0_l.
      destruct (Z.eqb_spec (Z.abs b) 0) as [?|_]; [lia|]. cbn [bind].
      rewrite Z.quot_0_l by lia. rewrite Z.lcm_0_l. reflexivity.
  - rewrite gcd_correct. cbn [bind]. unfold bigint_div.
    assert (Hg : Z.gcd a b <> 0)
      by (intros Hg; apply Z.gcd_eq_0_l in Hg; contradiction).
    destruct (Z.eqb_spec (Z.gcd a b) 0) as [?|_]; [contradiction|].
    cbn [bind].
    rewrite abs_Zabs. unfold Z.lcm. f_equal. f_equal.
    destruct (Z.gcd_divide_l a b) as [a' Ea].
    destruct (Z.gcd_divide_r a b) as [b' Eb].
    remember (Z.gcd a b) as d eqn:Ed. clear Ed Ha. subst a b.
    rewrite Z.quot_mul, Z.div_mul by assumption. ring.
Qed.

(** ** Modular inverse *)

Lemma toString_first (a : Z) :
  exists c s, toString a = String c s /\ c <> "a"%char.
Proof.
  unfold toString.
  destruct a as [|p|p]; simpl.
  - eexists _, _. split; [reflexivity | discriminate].
  - unfold NilZero.string_of_uint.
    destruct (Pos.to_uint p); simpl;
      eexists _, _; (split; [reflexivity | discriminate]).
  - eexists _, _. split; [reflexivity | discriminate].
Qed.

Lemma no_inverse_message_differs (a n : Z) :
  RangeError "a and b MUST be > 0" <>
  RangeError (toString a ++ " does not have inverse modulo " ++ toString n).
Proof.
  destruct (toString_first a) as [c [s [E Hc]]]. rewrite E. simpl.
  intros H. injection H as H _. congruence.
Qed.

Lemma modInv_of_multiple (a n : Z) :
  0 < n -> a mod n = 0 ->
  modInv a n = Throw (RangeError "a and b MUST be > 0").
Proof.
  intros Hn Ha. unfold modInv. rewrite toZn_mod by assumption. cbn [bind].
  rewrite Ha, eGcd_throws by lia. reflexivity.
Qed.

Lemma modInv_spec (a n : Z) :
  1 < n -> Z.gcd a n = 1 ->
  exists v, modInv a n = Ok v /\ 0 <= v < n /\ (a * v) mod n = 1.
Proof.
  intros Hn Hg. unfold modInv. rewrite toZn_mod by lia. cbn [bind].
  pose proof (Z.mod_pos_bound a n ltac:(lia)) as Hr.
  assert (Hgr : Z.gcd (a mod n) n = 1)
    by (rewrite Z.gcd_mod by lia; rewrite Z.gcd_comm; assumption).
  assert (Hr0 : a mod n <> 0).
  { intros E. rewrite E, Z.gcd_0_l in Hgr. lia. }
  destruct (eGcd_spec (a mod n) n ltac:(lia) ltac:(lia)) as [x0 [y0 [E Hbez]]].
  rewrite E. cbn [bind g x]. rewrite Hgr. cbn [Z.eqb Pos.eqb negb].
  rewrite toZn_mod by lia.
  exists (x0 mod n). split; [reflexivity|].
  split; [apply Z.mod_pos_bound; lia|].
  rewrite Zmult_mod_idemp_r. rewrite <- Zmult_mod_idemp_l.
  replace (a mod n * x0) with (1 + (- y0) * n) by lia.
  rewrite Z.mod_add by lia. apply Z.mod_small. lia.
Qed.

(** ** Modular exponentiation *)

Lemma modPow_body_inv (b0 e0 n : Z) (s : Z * Z * Z) :
  1 < n -> modPow_inv b0 e0 n s ->
  (let '(_, e, _) := s in e >? 0) = true ->
  modPow_inv b0 e0 n (modPow_body n s) /\
  (Z.to_nat (let '(_, e, _) := modPow_body n s in e)
   < Z.to_nat (let '(_, e, _) := s in e))%nat.
Proof.
  intros Hn. destruct s as [[r e] b]. unfold modPow_inv, modPow_body.
  intros (Hr & He & Hb & Hv) Hc. apply Z.gtb_lt in Hc.
  rewrite (Z.rem_mod_nonneg e 2), (Z.quot_div_nonneg e 2) by lia.
  rewrite (Z.rem_mod_nonneg (b ^ 2) n) by (try apply Z.pow_nonneg; lia).
  pose proof (Z.div_mod e 2 ltac:(lia)) as Hdm.
  pose proof (Z.mod_pos_bound e 2 ltac:(lia)) as Hm.
  pose proof (Z.mod_pos_bound (b ^ 2) n ltac:(lia)) as Hb2.
  assert (Hhalf : 0 <= e / 2 < e) by (split; [apply Z.div_pos|]; lia).
  assert (Hsq : (b ^ 2 mod n) ^ (e / 2) mod n = b ^ (2 * (e / 2)) mod n).
  { rewrite Z.mod_pow_l. rewrite <- Z.pow_mul_r by lia. reflexivity. }
  destruct (Z.eqb_spec (e mod 2) 1) as [Hodd|Heven].
  - rewrite (Z.rem_mod_nonneg (r * b) n) by (try apply Z.mul_nonneg_nonneg; lia).
    pose proof (Z.mod_pos_bound (r * b) n ltac:(lia)) as Hrb.
    repeat split; try lia.
    rewrite <- Hv. rewrite Hdm at 2. rewrite Hodd.
    rewrite Z.pow_add_r, Z.pow_1_r by lia.
    rewrite Zmult_mod, Z.mod_mod, Hsq by lia.
    rewrite <- Zmult_mod. f_equal. ring.
  - repeat split; try lia.
    rewrite <- Hv. rewrite Hdm at 2.
    replace (e mod 2) with 0 by lia. rewrite Z.add_0_r.
    rewrite Zmult_mod, Hsq, <- Zmult_mod. reflexivity.
Qed.

Lemma modPow_spec (b e n : Z) :
  0 <= e -> 1 < n -> modPow b e n = Ok ((b ^ e) mod n).
Proof.
  intros He Hn. unfold modPow. cbn [modPow_rec].
  destruct (Z.leb_spec n 0) as [?|_]; [lia|].
  destruct (Z.eqb_spec n 1) as [?|_]; [lia|].
  rewrite toZn_mod by lia. cbn [bind].
  destruct (Z.ltb_spec e 0) as [?|_]; [lia|].
  pose proof (Z.mod_pos_bound b n ltac:(lia)) as Hb.
  destruct (while_rule (modPow_inv b e n)
              (fun s => Z.to_nat (let '(_, e, _) := s in e))
              (fun '(_, e, _) => e >? 0)
              (fun s => Ok (modPow_body n s)))
    with (fuel := S (Z.to_nat e)) (s := (1, e, b mod n))
    as [[[r e'] b'] [E [(Hr & He' & _ & Hv) Hc]]].
  - intros s Hs Hcond. exists (modPow_body n s). split; [reflexivity|].
    apply modPow_body_inv; assumption.
  - unfold modPow_inv. repeat split; try lia.
    rewrite Z.mul_1_l. apply Z.mod_pow_l.
  - lia.
  - rewrite E. simpl. f_equal.
    assert (e' = 0) by (destruct (Z.gtb_spec e' 0); [discriminate | lia]).
    subst e'. rewrite Z.pow_0_r, Z.mul_1_r in Hv.
    rewrite <- Hv. symmetry. apply Z.mod_small. assumption.
Qed.

(** ** The arithmetic primitives meet their contracts *)

(** C3: for a > 0 and b > 0, [eGcd a b] returns a triple (g, x, y) with
    a*x + b*y = g and g the greatest common divisor of a and b, which is
    also what [gcd a b] returns; for a <= 0 or b <= 0 it throws the
    RangeError "a and b MUST be > 0". *)
Theorem eGcd_bezout_gcd (a b : Z) :
  (0 < a -> 0 < b ->
   exists r, eGcd a b = Ok r /\
             a * x r + b * y r = g r /\
             g r = Z.gcd a b /\
             gcd a b = Ok (g r)) /\
  (a <= 0 \/ b <= 0 -> eGcd a b = Throw (RangeError "a and b MUST be > 0")).
Proof.
  split.
  - intros Ha Hb. destruct (eGcd_spec a b Ha Hb) as [x0 [y0 [E Hbez]]].
    eexists. split; [exact E|]. cbn [g x y].
    repeat split; [exact Hbez | apply gcd_correct].
  - apply eGcd_throws.
Qed.

Lemma eGcd_bezout_gcd_witness :
  0 < 12 /\ 0 < 8 /\
  (exists r, eGcd 12 8 = Ok r /\
             12 * x r + 8 * y r = g r /\
             g r = Z.gcd 12 8 /\
             gcd 12 8 = Ok (g r)) /\
  (0 <= 0 \/ 8 <= 0) /\
  eGcd 0 8 = Throw (RangeError "a and b MUST be > 0").
Proof.
  split; [lia|]. split; [lia|]. split.
  - apply (proj1 (eGcd_bezout_gcd 12 8)); lia.
  - split; [left; lia|]. apply (proj2 (eGcd_bezout_gcd 0 8)). left. lia.
Defined.

(** C7: [gcd] is symmetric, [gcd a 0] is the absolute value of a, and the
    result of [gcd] is never negative. *)
Theorem gcd_symmetric_abs_nonneg (a b : Z) :
  gcd a b = gcd b a /\
  gcd a 0 = Ok (abs a) /\
  exists d, gcd a b = Ok d /\ 0 <= d.
Proof.
  rewrite !gcd_correct. repeat split.
  - f_equal. apply Z.gcd_comm.
  - f_equal. rewrite abs_Zabs. apply Z.gcd_0_r.
  - exists (Z.gcd a b). split; [reflexivity | apply Z.gcd_nonneg].
Qed.

(** C5, as the spec states it, fails: [lcm 0 5] is 0 although one input is
    not 0. *)
Lemma lcm_zero_with_one_nonzero_input :
  ~ (forall a b : Z, a <> 0 \/ b <> 0 -> lcm a b <> Ok 0).
Proof.
  intros H. apply (H 0 5); [right; discriminate | reflexivity].
Qed.

(** C5, amended: when a and b are not both 0, [gcd a b] is not 0 and
    [lcm a b] is abs((a / gcd(a,b)) * b); [lcm 0 0] is 0; and [lcm a b] is 0
    exactly when a is 0 or b is 0. *)
Theorem lcm_formula_and_zero (a b : Z) :
  (a <> 0 \/ b <> 0 ->
   exists d, gcd a b = Ok d /\ d <> 0 /\ lcm a b = Ok (abs (Z.quot a d * b))) /\
  lcm 0 0 = Ok 0 /\
  (lcm a b = Ok 0 <-> a = 0 \/ b = 0).
Proof.
  split; [|split].
  - intros Hab. exists (Z.gcd a b). split; [apply gcd_correct|].
    assert (Hd : Z.gcd a b <> 0).
    { intros Hd. pose proof (Z.gcd_eq_0_l _ _ Hd).
      pose proof (Z.gcd_eq_0_r _ _ Hd). lia. }
    split; [exact Hd|]. unfold lcm.
    replace ((a =? 0) && (b =? 0)) with false.
    + rewrite gcd_correct. cbn [bind]. unfold bigint_div.
      destruct (Z.eqb_spec (Z.gcd a b) 0); [contradiction | reflexivity].
    + symmetry. apply andb_false_iff.
      destruct Hab; [left | right]; apply Z.eqb_neq; assumption.
  - reflexivity.
  - rewrite lcm_correct. split.
    + intros H. injection H as H. apply Z.lcm_eq_0. assumption.
    + intros H. f_equal. apply Z.lcm_eq_0. assumption.
Qed.

Lemma lcm_formula_and_zero_witness :
  (4 <> 0 \/ 6 <> 0) /\
  (exists d, gcd 4 6 = Ok d /\ d <> 0 /\ lcm 4 6 = Ok (abs (Z.quot 4 d * 6))).
Proof.
  split; [left; discriminate|].
  apply (proj1 (lcm_formula_and_zero 4 6)). left. discriminate.
Defined.

(** C6, as the spec states it, fails at the modulus 1: every a is coprime
    to 1, and [modInv a 1] throws. *)
Lemma modInv_modulus_one :
  ~ (forall a n : Z, 0 < n -> gcd a n = Ok 1 ->
     exists v, modInv a n = Ok v /\ (a * v) mod n = 1).
Proof.
  intros H. destruct (H 5 1) as [v [E _]]; [lia | reflexivity |].
  discriminate E.
Qed.

(** C6, amended: for a modulus n > 1 and a coprime to n, [modInv a n]
    returns a residue v of n with a * v mod n = 1. *)
Theorem modInv_inverse (a n : Z) :
  1 < n -> gcd a n = Ok 1 ->
  exists v, modInv a n = Ok v /\ 0 <= v < n /\ (a * v) mod n = 1.
Proof.
  intros Hn Hg. rewrite gcd_correct in Hg. injection Hg as Hg.
  apply modInv_spec; assumption.
Qed.

Lemma modInv_inverse_witness :
  1 < 7 /\ gcd 4 7 = Ok 1 /\
  exists v, modInv 4 7 = Ok v /\ 0 <= v < 7 /\ (4 * v) mod 7 = 1.
Proof.
  split; [lia|]. split; [reflexivity|].
  apply (modInv_inverse 4 7); [lia | reflexivity].
Defined.

(** C10: for a modulus n > 0 and a multiple a of n ([toZn a n] is 0),
    [modInv a n] throws the RangeError of [eGcd], "a and b MUST be > 0", and
    not the RangeError of [modInv] that reports a missing inverse, although
    the greatest common divisor of a and n is n. *)
Theorem modInv_multiple_throws_eGcd_error (a n : Z) :
  0 < n -> toZn a n = Ok 0 ->
  modInv a n = Throw (RangeError "a and b MUST be > 0") /\
  modInv a n <>
    Throw (RangeError
             (toString a ++ " does not have inverse modulo " ++ toString n)) /\
  gcd a n = Ok n.
Proof.
  intros Hn Hz. rewrite toZn_mod in Hz by assumption. injection Hz as Hz.
  rewrite modInv_of_multiple by assumption. split; [reflexivity|]. split.
  - intros H. injection H as H.
    apply (no_inverse_message_differs a n). f_equal. exact H.
  - rewrite gcd_correct. f_equal.
    rewrite Z.gcd_comm, <- Z.gcd_mod by lia. rewrite Hz, Z.gcd_0_l. lia.
Qed.

Lemma modInv_multiple_throws_eGcd_error_witness :
  0 < 7 /\ toZn 14 7 = Ok 0 /\
  modInv 14 7 = Throw (RangeError "a and b MUST be > 0") /\
  modInv 14 7 <>
    Throw (RangeError
             (toString 14 ++ " does not have inverse modulo " ++ toString 7)) /\
  gcd 14 7 = Ok 7.
Proof.
  split; [lia|]. split; [reflexivity|].
  apply (modInv_multiple_throws_eGcd_error 14 7); [lia | reflexivity].
Defined.

(** C4: [modPow b e n] throws the RangeError "n must be > 0" when n <= 0 and
    returns 0 when n is 1; for an exponent e >= 0 and a modulus n > 1 it
    returns a value of [0, n), and [modPow b 0 n] is 1. *)
Theorem modPow_contract (b e n : Z) :
  (n <= 0 -> modPow b e n = Throw (RangeError "n must be > 0")) /\
  (n = 1 -> modPow b e n = Ok 0) /\
  (0 <= e -> 1 < n -> exists r, modPow b e n = Ok r /\ 0 <= r < n) /\
  (1 < n -> modPow b 0 n = Ok 1).
Proof.
  split; [|split; [|split]].
  - intros Hn. unfold modPow. cbn [modPow_rec].
    destruct (Z.leb_spec n 0); [reflexivity | lia].
  - intros ->. reflexivity.
  - intros He Hn. exists ((b ^ e) mod n).
    split; [apply modPow_spec; assumption | apply Z.mod_pos_bound; lia].
  - intros Hn. rewrite modPow_spec by lia.
    rewrite Z.pow_0_r, Z.mod_small by lia. reflexivity.
Qed.

Lemma modPow_contract_witness :
  (0 <= 0 /\ modPow 4 13 0 = Throw (RangeError "n must be > 0")) /\
  (1 = 1 /\ modPow 4 13 1 = Ok 0) /\
  (0 <= 13 /\ 1 < 497 /\ exists r, modPow 4 13 497 = Ok r /\ 0 <= r < 497) /\
  (1 < 497 /\ modPow 4 0 497 = Ok 1).
Proof.
  split; [split; [lia|]|split; [split; [lia|]|split; [split; [lia|split; [lia|]]|split; [lia|]]]].
  - apply (proj1 (modPow_contract 4 13 0)). lia.
  - apply (proj1 (proj2 (modPow_contract 4 13 1))). reflexivity.
  - apply (proj1 (proj2 (proj2 (modPow_contract 4 13 497)))); lia.
  - apply (proj2 (proj2 (proj2 (modPow_contract 4 0 497)))). lia.
Defined.

(** ** Random bytes and bits *)

Lemma fromBuffer_acc (buf : list Z) (acc : Z) :
  fold_left (fun ret i => Z.shiftl ret 8 + i) buf acc =
  acc * 256 ^ Z.of_nat (List.length buf) + fromBuffer buf.
Proof.
  unfold fromBuffer. revert acc.
  induction buf as [|b rest IH]; intros acc.
  - simpl. lia.
  - cbn [fold_left List.length]. rewrite IH, (IH (Z.shiftl 0 8 + b)).
    rewrite !Z.shiftl_mul_pow2 by lia.
    rewrite Nat2Z.inj_succ, Z.pow_succ_r by lia.
    change (2 ^ 8) with 256. ring.
Qed.

Lemma fromBuffer_cons (b : Z) (rest : list Z) :
  fromBuffer (b :: rest) = b * 256 ^ Z.of_nat (List.length rest) + fromBuffer rest.
Proof.
  unfold fromBuffer at 1. cbn [fold_left]. rewrite fromBuffer_acc.
  rewrite Z.shiftl_mul_pow2 by lia. f_equal.
Qed.

Lemma fromBuffer_bound (buf : list Z) :
  Forall is_byte buf -> 0 <= fromBuffer buf < 256 ^ Z.of_nat (List.length buf).
Proof.
  induction 1 as [|b rest Hb Hrest IH].
  - cbn. lia.
  - rewrite fromBuffer_cons. cbn [List.length].
    rewrite Nat2Z.inj_succ, Z.pow_succ_r by lia.
    unfold is_byte in Hb.
    assert (0 < 256 ^ Z.of_nat (List.length rest)) by (apply Z.pow_pos_nonneg; lia).
    nia.
Qed.

Lemma getRandomValues_spec (entropy : nat -> Z) (len p : nat) :
  exists buf,
    getRandomValues entropy len p = (Ok buf, (p + len)%nat) /\
    List.length buf = len /\ Forall is_byte buf.
Proof.
  eexists. split; [reflexivity|]. split.
  - rewrite length_map, length_seq. reflexivity.
  - apply Forall_forall. intros b Hb. apply in_map_iff in Hb.
    destruct Hb as [i [<- _]]. apply Z.mod_pos_bound. lia.
Qed.

Lemma lor_pow2_range (v k : Z) :
  1 <= k -> 0 <= v < 2 ^ k ->
  2 ^ (k - 1) <= Z.lor v (2 ^ (k - 1)) < 2 ^ k.
Proof.
  intros Hk Hv.
  assert (Hp : 0 < 2 ^ (k - 1)) by (apply Z.pow_pos_nonneg; lia).
  assert (Hnn : 0 <= Z.lor v (2 ^ (k - 1))) by (apply Z.lor_nonneg; lia).
  assert (Hne : Z.lor v (2 ^ (k - 1)) <> 0).
  { intros E. apply Z.lor_eq_0_iff in E. lia. }
  assert (Hlog : Z.log2 (Z.lor v (2 ^ (k - 1))) = Z.max (Z.log2 v) (k - 1)).
  { rewrite Z.log2_lor by lia. rewrite Z.log2_pow2 by lia. reflexivity. }
  assert (Hlv : Z.log2 v < k).
  { destruct (Z.eq_dec v 0) as [->|Hv0]; [cbn; lia|].
    apply Z.log2_lt_pow2; lia. }
  split.
  - apply Z.log2_le_pow2; lia.
  - apply Z.log2_lt_pow2; lia.
Qed.

Lemma land_low_bits (v k : Z) :
  0 <= k -> 0 <= Z.land v (2 ^ k - 1) < 2 ^ k.
Proof.
  intros Hk. replace (2 ^ k - 1) with (Z.ones k)
    by (rewrite Z.ones_equiv; lia).
  rewrite Z.land_ones by assumption. apply Z.mod_pos_bound.
  apply Z.pow_pos_nonneg; lia.
Qed.

Lemma ceil_div8_spec (n : Z) :
  1 <= n ->
  1 <= ceil_div8 n /\
  (n mod 8 = 0 -> n = 8 * ceil_div8 n) /\
  (n mod 8 <> 0 -> n = 8 * (ceil_div8 n - 1) + n mod 8).
Proof.
  intros Hn. unfold ceil_div8.
  pose proof (Z.div_mod n 8 ltac:(lia)).
  pose proof (Z.mod_pos_bound n 8 ltac:(lia)).
  pose proof (Z.div_mod (- n) 8 ltac:(lia)).
  pose proof (Z.mod_pos_bound (- n) 8 ltac:(lia)).
  lia.
Qed.

(** The masked buffer encodes a value of at most [bitLength] bits, and of
    exactly [bitLength] bits when the top bit is forced. *)
Lemma mask_bits_range (n : Z) (force : bool) (buf : list Z) :
  1 <= n -> List.length buf = Z.to_nat (ceil_div8 n) -> Forall is_byte buf ->
  0 <= fromBuffer (mask_bits n force buf) < 2 ^ n /\
  (force = true -> 2 ^ (n - 1) <= fromBuffer (mask_bits n force buf)).
Proof.
  intros Hn Hlen Hbytes.
  destruct (ceil_div8_spec n Hn) as (Hc & Hk0 & Hk).
  destruct buf as [|b0 rest]; [cbn in Hlen; lia|].
  cbn [List.length] in Hlen.
  assert (HL : Z.of_nat (List.length rest) = ceil_div8 n - 1) by lia.
  inversion Hbytes as [|? ? Hb0 Hrest]; subst.
  pose proof (fromBuffer_bound rest Hrest) as Hr. rewrite HL in Hr.
  pose proof (Z.mod_pos_bound n 8 ltac:(lia)) as Hm.
  set (k := if n mod 8 =? 0 then 8 else n mod 8).
  assert (Hkr : 1 <= k <= 8) by (unfold k; destruct (Z.eqb_spec (n mod 8) 0); lia).
  assert (Hnk : n = 8 * (ceil_div8 n - 1) + k)
    by (unfold k; destruct (Z.eqb_spec (n mod 8) 0); lia).
  assert (H2k : 2 ^ k <= 256)
    by (change 256 with (2 ^ 8); apply Z.pow_le_mono_r; lia).
  assert (Hhead : exists b,
             mask_bits n force (b0 :: rest) = b :: rest /\
             0 <= b < 2 ^ k /\ (force = true -> 2 ^ (k - 1) <= b)).
  { unfold mask_bits. rewrite Z.rem_mod_nonneg by lia. fold k.
    unfold k. destruct (Z.eqb_spec (n mod 8) 0) as [E|E]; cbn [negb].
    - destruct force.
      + eexists. split; [reflexivity|]. cbn [get0 hd].
        pose proof (lor_pow2_range b0 8 ltac:(lia) Hb0) as Hl.
        change (2 ^ (8 - 1)) with 128 in *. change (2 ^ 8) with 256 in *.
        rewrite Z.mod_small by lia. split; [lia | intros _; lia].
      + exists b0. split; [reflexivity|]. unfold is_byte in Hb0.
        change (2 ^ 8) with 256. split; [lia | discriminate].
    - fold k in H2k, Hkr. cbn [set0 get0 hd].
      pose proof (land_low_bits b0 (n mod 8) ltac:(lia)) as Hland.
      rewrite (Z.mod_small (Z.land b0 (2 ^ (n mod 8) - 1)))
        by (unfold k in H2k; destruct (Z.eqb_spec (n mod 8) 0); lia).
      destruct force.
      + eexists. split; [reflexivity|].
        pose proof (lor_pow2_range _ (n mod 8) ltac:(lia) Hland) as Hl.
        rewrite Z.mod_small
          by (unfold k in H2k; destruct (Z.eqb_spec (n mod 8) 0); lia).
        split; [lia | intros _; lia].
      + eexists. split; [reflexivity|]. split; [lia | discriminate]. }
  destruct Hhead as [b [Eb [Hb Hf]]]. rewrite Eb, fromBuffer_cons, HL.
  assert (HP : 256 ^ (ceil_div8 n - 1) = 2 ^ (8 * (ceil_div8 n - 1))).
  { change 256 with (2 ^ 8). rewrite <- Z.pow_mul_r by lia. reflexivity. }
  rewrite HP in *.
  assert (Hpos : 0 < 2 ^ (8 * (ceil_div8 n - 1))) by (apply Z.pow_pos_nonneg; lia).
  assert (E2n : 2 ^ n = 2 ^ k * 2 ^ (8 * (ceil_div8 n - 1))).
  { rewrite Hnk at 1. rewrite Z.pow_add_r by lia. ring. }
  assert (E2n1 : 2 ^ (n - 1) = 2 ^ (k - 1) * 2 ^ (8 * (ceil_div8 n - 1))).
  { replace (n - 1) with (8 * (ceil_div8 n - 1) + (k - 1)) by lia.
    rewrite Z.pow_add_r by lia. ring. }
  rewrite E2n, E2n1. split; [nia|]. intros F. specialize (Hf F). nia.
Qed.

Lemma randBitsSync_spec (entropy : nat -> Z) (n : Z) (force : bool) (p : nat) :
  1 <= n ->
  exists buf,
    randBitsSync entropy n force p
    = (Ok buf, (p + Z.to_nat (ceil_div8 n))%nat) /\
    0 <= fromBuffer buf < 2 ^ n /\
    (force = true -> 2 ^ (n - 1) <= fromBuffer buf).
Proof.
  intros Hn. destruct (ceil_div8_spec n Hn) as (Hc & _).
  unfold randBitsSync, randBytesSync.
  destruct (Z.ltb_spec n 1) as [?|_]; [lia|].
  destruct (Z.ltb_spec (ceil_div8 n) 1) as [?|_]; [lia|].
  destruct (getRandomValues_spec entropy (Z.to_nat (ceil_div8 n)) p)
    as [buf [E [Hlen Hbytes]]].
  exists (mask_bits n force buf). unfold bindM, retM. rewrite E.
  split; [reflexivity|]. apply mask_bits_range; assumption.
Qed.

Lemma randBitsSync_throws (entropy : nat -> Z) (n : Z) (force : bool) (p : nat) :
  n < 1 ->
  randBitsSync entropy n force p
  = (Throw (RangeError "bitLength MUST be > 0"), p).
Proof.
  intros Hn. unfold randBitsSync.
  destruct (Z.ltb_spec n 1); [reflexivity | lia].
Qed.

Lemma randBits_randBitsSync (entropy : nat -> Z) (n : Z) (force : bool) :
  randBits entropy n force = randBitsSync entropy n force.
Proof. reflexivity. Qed.

(** ** Rules for loops over the random source *)

Section LoopMRules.

Context {S R : Type}.

(** What holds of a result, when there is one. *)
Lemma loopM_post (Inv : S -> nat -> Prop) (Post : R -> nat -> Prop)
  (step : S -> M (ctl S R)) :
  (forall s p c p', Inv s p -> step s p = (Ok c, p') ->
     match c with
     | Next s' => Inv s' p'
     | Done r => Post r p'
     end) ->
  forall fuel s p r p',
    Inv s p -> loopM fuel step s p = (Ok r, p') -> Post r p'.
Proof.
  intros Hstep fuel. induction fuel as [|fuel IH]; intros s p r p' Hinv H.
  - discriminate.
  - cbn [loopM] in H. unfold bindM in H.
    destruct (step s p) as [[[s'|r']| |] p1] eqn:E; try discriminate.
    + apply (IH s' p1); [|assumption]. apply (Hstep s p (Next s') p1 Hinv E).
    + unfold retM in H. injection H as <- <-.
      apply (Hstep s p (Done r') p1 Hinv E).
Qed.

(** A larger budget, for the loop and inside its steps, keeps a result
    that was reached. *)
Lemma loopM_more_fuel (step step' : S -> M (ctl S R)) :
  (forall s p c p', step s p = (Ok c, p') -> step' s p = (Ok c, p')) ->
  forall fuel fuel' s p r p', (fuel <= fuel')%nat ->
    loopM fuel step s p = (Ok r, p') -> loopM fuel' step' s p = (Ok r, p').
Proof.
  intros Hstep fuel. induction fuel as [|fuel IH];
    intros fuel' s p r p' Hle H.
  - discriminate.
  - destruct fuel' as [|fuel']; [lia|].
    cbn [loopM] in *. unfold bindM in *.
    destruct (step s p) as [[c| |] p1] eqn:E; try discriminate.
    rewrite (Hstep s p c p1 E). destruct c as [s'|r'].
    + apply IH; [lia | assumption].
    + assumption.
Qed.

End LoopMRules.

(** ** Bit length *)

Lemma log2_half (a : Z) : 2 <= a -> Z.log2 (a / 2) = Z.log2 a - 1.
Proof.
  intros Ha. rewrite <- shiftr_1_div2, Z.log2_shiftr by lia.
  pose proof (Z.log2_le_mono 2 a Ha) as H. change (Z.log2 2) with 1 in H. lia.
Qed.

Lemma bitLength_spec (a : Z) : 1 <= a -> bitLength a = Ok (Z.log2 a + 1).
Proof.
  intros Ha. unfold bitLength.
  destruct (Z.eqb_spec a 1) as [->|Hne]; [reflexivity|].
  destruct (do_while_rule
              (fun '(a', bits) => 2 <= a' /\ Z.log2 a' + bits = Z.log2 a + 1)
              (fun '(a', bits) => 1 <= a' /\ Z.log2 a' + bits = Z.log2 a + 1)
              (fun '(a', _) => Z.to_nat a')
              (fun '(a, bits) => Ok (Z.shiftr a 1, bits + 1))
              (fun '(a, _) => a >? 1))
    with (fuel := S (Z.to_nat a)) (s := (a, 1))
    as [[a' bits] [E [[Ha' Hl] Hc]]].
  - intros [a' bits] [Ha' Hl]. eexists. split; [reflexivity|].
    rewrite shiftr_1_div2.
    pose proof (log2_half a' Ha').
    pose proof (Z.div_mod a' 2 ltac:(lia)).
    pose proof (Z.mod_pos_bound a' 2 ltac:(lia)).
    split; [lia|]. intros Hc. apply Z.gtb_lt in Hc. split; lia.
  - split; lia.
  - lia.
  - rewrite E. cbn [bind]. f_equal.
    assert (a' = 1) by (destruct (Z.gtb_spec a' 1); [discriminate | lia]).
    subst a'. change (Z.log2 1) with 0 in Hl. lia.
Qed.

(** ** Uniform sampling by rejection *)

Lemma rejectionLoop_range (entropy : nat -> Z) (draws : nat)
  (bitLen interval : Z) (p p' : nat) (rnd : Z) :
  1 <= bitLen ->
  rejectionLoop entropy draws bitLen interval p = (Ok rnd, p') ->
  0 <= rnd <= interval.
Proof.
  intros Hb E. unfold rejectionLoop, do_whileM in E.
  apply (loopM_post (fun _ _ => True)
           (fun rnd _ => 0 <= rnd <= interval)) in E; [exact E| |exact I].
  intros s q c q' _ Hstep. unfold bindM, retM in Hstep.
  destruct (randBitsSync_spec entropy bitLen false q Hb) as [buf [Eb [Hr _]]].
  rewrite Eb in Hstep.
  destruct (Z.gtb_spec (fromBuffer buf) interval) as [Hgt|Hle];
    injection Hstep as <- <-; [exact I | lia].
Qed.

Lemma rejectionLoop_more_draws (entropy : nat -> Z) (draws draws' : nat)
  (bitLen interval : Z) (p p' : nat) (rnd : Z) :
  (draws <= draws')%nat ->
  rejectionLoop entropy draws bitLen interval p = (Ok rnd, p') ->
  rejectionLoop entropy draws' bitLen interval p = (Ok rnd, p').
Proof.
  intros Hle E. unfold rejectionLoop, do_whileM in *.
  exact (loopM_more_fuel _ _ (fun s q c q' H => H) draws draws' _ _ _ _ Hle E).
Qed.

Lemma randBetween_range (entropy : nat -> Z) (draws : nat) (max min : Z)
  (p p' : nat) (v : Z) :
  randBetween entropy draws max min p = (Ok v, p') -> min <= v <= max.
Proof.
  unfold randBetween.
  destruct (Z.leb_spec max min) as [?|Hlt]; [discriminate|].
  rewrite bitLength_spec by lia. unfold bindM, liftM, retM.
  destruct (rejectionLoop _ _ _ _ p) as [[rnd| |] p1] eqn:E; try discriminate.
  intros H. injection H as <- <-.
  pose proof (Z.log2_nonneg (max - min)) as Hlog.
  apply rejectionLoop_range in E; lia.
Qed.

Lemma randBetween_more_draws (entropy : nat -> Z) (draws draws' : nat)
  (max min : Z) (p p' : nat) (v : Z) :
  (draws <= draws')%nat ->
  randBetween entropy draws max min p = (Ok v, p') ->
  randBetween entropy draws' max min p = (Ok v, p').
Proof.
  intros Hle. unfold randBetween.
  destruct (Z.leb_spec max min) as [?|Hlt]; [discriminate|].
  unfold bindM, liftM, retM.
  destruct (bitLength (max - min)) as [bitLen| |]; try discriminate.
  destruct (rejectionLoop entropy draws _ _ p) as [[rnd| |] p1] eqn:E;
    try discriminate.
  rewrite (rejectionLoop_more_draws _ _ _ _ _ _ _ _ Hle E). trivial.
Qed.

Lemma randBetween_throws (entropy : nat -> Z) (draws : nat) (max min : Z)
  (p : nat) :
  max <= min ->
  randBetween entropy draws max min p
  = (Throw (RangeError "Arguments MUST be: max > min"), p).
Proof.
  intros H. unfold randBetween.
  destruct (Z.leb_spec max min); [reflexivity | lia].
Qed.

Lemma loopM_not_thrown {S R : Type} (step : S -> M (ctl S R)) :
  (forall s p e p', step s p <> (Throw e, p')) ->
  forall fuel s p e p', loopM fuel step s p <> (Throw e, p').
Proof.
  intros Hstep fuel. induction fuel as [|fuel IH]; intros s p e p'.
  - discriminate.
  - cbn [loopM]. unfold bindM.
    destruct (step s p) as [[[s'|r]| |] p1] eqn:E.
    + apply IH.
    + discriminate.
    + exfalso. apply (Hstep s p e0 p1 E).
    + discriminate.
Qed.

(** A draw between [min] and a larger [max] returns unless it runs out of
    attempts. *)
Lemma randBetween_returns (entropy : nat -> Z) (draws : nat) (max min : Z)
  (p : nat) :
  min < max ->
  fst (randBetween entropy draws max min p) <> Timeout ->
  exists v p', randBetween entropy draws max min p = (Ok v, p').
Proof.
  intros Hlt. unfold randBetween.
  destruct (Z.leb_spec max min) as [?|_]; [lia|].
  rewrite bitLength_spec by lia. unfold bindM, liftM, retM.
  destruct (rejectionLoop _ _ _ _ p) as [[rnd|e|] p1] eqn:E; cbn [fst].
  - intros _. eauto.
  - exfalso. unfold rejectionLoop, do_whileM in E.
    apply loopM_not_thrown in E; [exact E|].
    intros s q e' q'. unfold bindM, retM.
    pose proof (Z.log2_nonneg (max - min)) as Hlog.
    destruct (randBitsSync_spec entropy (Z.log2 (max - min) + 1) false q
                ltac:(lia)) as [buf [Eb _]].
    rewrite Eb. discriminate.
  - intros H. contradiction.
Qed.

(** ** The witness loop *)

Lemma round_more_draws (entropy : nat -> Z) (draws draws' : nat)
  (w d m a : Z) (p p' : nat) (c : completion unit bool) :
  (draws <= draws')%nat ->
  round entropy draws w d m a p = (Ok c, p') ->
  round entropy draws' w d m a p = (Ok c, p').
Proof.
  intros Hle. unfold round, bindM.
  destruct (randBetween entropy draws d 2 p) as [[b| |] p1] eqn:E;
    try discriminate.
  rewrite (randBetween_more_draws _ _ _ _ _ _ _ _ Hle E). trivial.
Qed.

Lemma witnessLoop_more_draws (entropy : nat -> Z) (rounds draws draws' : nat)
  (w d m a iterations : Z) (p p' : nat) (verdict : bool) :
  (draws <= draws')%nat ->
  witnessLoop entropy rounds draws w d m a iterations p = (Ok verdict, p') ->
  witnessLoop entropy rounds draws' w d m a iterations p = (Ok verdict, p').
Proof.
  intros Hle E. unfold witnessLoop in *.
  refine (loopM_more_fuel _ _ _ rounds rounds _ _ _ _ (le_n _) E).
  intros s q c q'. unfold bindM.
  destruct (round entropy draws w d m a q) as [[c0| |] q1] eqn:Er;
    try discriminate.
  rewrite (round_more_draws _ _ _ _ _ _ _ _ _ _ Hle Er). trivial.
Qed.

(** [--iterations] is exact up to 2^53, and never reaches 0 from 0 or
    below. *)
Lemma decrement_exact (x : Z) :
  - 2 ^ 53 < x <= 2 ^ 53 + 1 -> decrement x = x - 1.
Proof.
  intros Hx. unfold decrement, binary64_round.
  destruct (Z.leb_spec (Z.abs (x - 1)) (2 ^ 53)); [reflexivity | lia].
Qed.

Lemma decrement_nonpos (x : Z) : x <= 0 -> decrement x <= - 1.
Proof.
  intros Hx. unfold decrement, binary64_round.
  destruct (Z.leb_spec (Z.abs (x - 1)) (2 ^ 53)) as [_|Hbig]; [lia|].
  rewrite Z.sgn_neg by lia.
  set (ax := Z.abs (x - 1)) in *.
  assert (Hlog : 53 <= Z.log2 ax).
  { apply Z.log2_le_pow2; lia. }
  set (ulp := 2 ^ (Z.log2 ax - 52)).
  assert (Hulp : 0 < ulp) by (apply Z.pow_pos_nonneg; lia).
  assert (Hle : ulp <= ax).
  { pose proof (Z.log2_spec ax ltac:(lia)) as [Hl _].
    apply Z.le_trans with (2 ^ Z.log2 ax); [|exact Hl].
    apply Z.pow_le_mono_r; lia. }
  assert (Hq : 1 <= ax / ulp) by (apply Z.div_le_lower_bound; lia).
  assert (Hq' : 1 <= (if 2 * (ax mod ulp) <? ulp then ax / ulp
                      else if ulp <? 2 * (ax mod ulp) then ax / ulp + 1
                      else if Z.even (ax / ulp) then ax / ulp
                      else ax / ulp + 1)).
  { destruct (_ <? _); [lia|]. destruct (_ <? _); [lia|].
    destruct (Z.even _); lia. }
  cbv zeta. nia.
Qed.

(** One round of the loop, spelled out. *)
Lemma witnessLoop_step (entropy : nat -> Z) (rounds draws : nat)
  (w d m a iterations : Z) (p : nat) :
  witnessLoop entropy (S rounds) draws w d m a iterations p =
  match randBetween entropy draws d 2 p with
  | (Ok b, p1) =>
      match witnessCheck w d m a b with
      | Ok (Return r) => (Ok r, p1)
      | Ok (Normal _) =>
          if negb (decrement iterations =? 0) then
            witnessLoop entropy rounds draws w d m a (decrement iterations) p1
          else (Ok true, p1)
      | Throw e => (Throw e, p1)
      | Timeout => (Timeout, p1)
      end
  | (Throw e, p1) => (Throw e, p1)
  | (Timeout, p1) => (Timeout, p1)
  end.
Proof.
  unfold witnessLoop. cbn [loopM]. unfold round.
  unfold bindM, liftM, retM.
  destruct (randBetween entropy draws d 2 p) as [[b| |] p1]; try reflexivity.
  destruct (witnessCheck w d m a b) as [[[]|r]| |]; try reflexivity.
  destruct (negb (decrement iterations =? 0)); reflexivity.
Qed.

Lemma trialDivision_none_gt_3 (w : Z) :
  3 <= w -> trialDivision firstPrimes w = None -> 3 < w.
Proof.
  intros Hw. change firstPrimes with (3 :: tl firstPrimes).
  cbn [trialDivision].
  destruct (Z.leb_spec 3 w) as [_|?]; [|lia].
  destruct (Z.eqb_spec w 3) as [?|Hne]; [discriminate|]. lia.
Qed.

(** ** The test on two example sources *)

Lemma randBetween_zeroEntropy (draws p : nat) :
  randBetween zeroEntropy (S draws) 1600 2 p = (Ok 2, (p + 2)%nat).
Proof. vm_compute. reflexivity. Qed.

Lemma randBetween_no_draws (entropy : nat -> Z) (p : nat) :
  randBetween entropy 0 1600 2 p = (Timeout, p).
Proof. vm_compute. reflexivity. Qed.

Lemma witnessCheck_1601_2 : witnessCheck 1601 1600 25 6 2 = Ok (Normal tt).
Proof. vm_compute. reflexivity. Qed.

(** The prime 1601 passes the prefilter: its test is the witness loop with
    w - 1 = 2^6 * 25. *)
Lemma _isProbablyPrime_1601 (entropy : nat -> Z) (rounds draws : nat)
  (iterations : Z) (p : nat) :
  _isProbablyPrime entropy rounds draws 1601 iterations p
  = witnessLoop entropy rounds draws 1601 1600 25 6 iterations p.
Proof.
  assert (Et : trialDivision firstPrimes 1601 = None)
    by (vm_compute; reflexivity).
  assert (Ea : twoAdicity (1601 - 1) = Ok 6) by (vm_compute; reflexivity).
  unfold _isProbablyPrime.
  change (1601 =? 2) with false. change (Z.land 1601 1 =? 0) with false.
  change (1601 =? 1) with false. cbn [orb]. rewrite Et.
  unfold bindM, liftM. rewrite Ea. reflexivity.
Qed.

(** C1, where the code departs from it: one round of the test of w draws
    its witness with [randBetween (w - 1) 2], so the witness lies in
    [2, w-1]; on the candidate 1601 and a source that starts with the bytes
    0x06 0x3E the witness is 1600 = w - 1, outside [2, w-2], and the round
    passes. *)
Theorem round_witness_up_to_w_minus_1 :
  (forall (entropy : nat -> Z) (draws : nat) (w : Z) (p p' : nat) (b : Z),
      randBetween entropy draws (w - 1) 2 p = (Ok b, p') -> 2 <= b <= w - 1) /\
  randBetween topEntropy 1 (1601 - 1) 2 0%nat = (Ok (1601 - 1), 2%nat) /\
  ~ (2 <= 1601 - 1 <= 1601 - 2) /\
  round topEntropy 1 1601 1600 25 6 0%nat = (Ok (Normal tt), 2%nat) /\
  _isProbablyPrime topEntropy 1 1 1601 1 0%nat = (Ok true, 2%nat).
Proof.
  split; [|split; [|split; [|split]]].
  - intros entropy draws w p p' b. apply randBetween_range.
  - vm_compute. reflexivity.
  - lia.
  - vm_compute. reflexivity.
  - vm_compute. reflexivity.
Qed.

(** ** Prime search *)

Lemma search_post (entropy : nat -> Z) (tries rounds draws : nat)
  (n iterations : Z) (p p' : nat) (v : Z) :
  1 <= n ->
  search entropy tries rounds draws n iterations p = (Ok v, p') ->
  exact_bits n v /\
  exists q q',
    _isProbablyPrime entropy rounds draws v iterations q = (Ok true, q').
Proof.
  intros Hn E. unfold search, do_whileM in E.
  apply (loopM_post (fun _ _ => True)
           (fun v _ => exact_bits n v /\
                       exists q q',
                         _isProbablyPrime entropy rounds draws v iterations q
                         = (Ok true, q'))) in E; [exact E| |exact I].
  intros s q c q' _ Hstep. unfold bindM, retM in Hstep.
  destruct (randBitsSync_spec entropy n true q Hn) as [buf [Eb [Hr Hf]]].
  rewrite Eb in Hstep.
  destruct (_isProbablyPrime entropy rounds draws (fromBuffer buf) iterations _)
    as [[[|]| |] q1] eqn:Ep; try discriminate;
    injection Hstep as <- <-; [|exact I].
  split; [split; [apply Hf; reflexivity | apply Hr]|]. eauto.
Qed.

(** *** What the building blocks of the coordinator change *)

Lemma terminateAll_fields (c : coordinator) :
  workerList (terminateAll c) = workerList c /\
  posted (terminateAll c) = posted c /\
  result (terminateAll c) = result c /\
  forall k, is_terminated (terminateAll c) k
            = existsb (Nat.eqb k) (workerList c) || is_terminated c k.
Proof.
  unfold terminateAll.
  assert (H : forall l c0,
             let c' := fold_left (fun c worker => terminate worker c) l c0 in
             workerList c' = workerList c0 /\
             posted c' = posted c0 /\
             result c' = result c0 /\
             forall k, is_terminated c' k
                       = existsb (Nat.eqb k) l || is_terminated c0 k).
  { induction l as [|w l IH]; intros c0.
    - cbn. auto.
    - cbn [fold_left]. destruct (IH (terminate w c0)) as (H1 & H2 & H3 & H4).
      cbn zeta. rewrite H1, H2, H3. repeat split.
      intros k. rewrite H4. unfold is_terminated. cbn.
      destruct (k =? w)%nat; cbn; [apply orb_true_r | reflexivity]. }
  apply H.
Qed.

Lemma popAll_fields (n : nat) (c : coordinator) :
  terminated (popAll n c) = terminated c /\
  posted (popAll n c) = posted c /\
  result (popAll n c) = result c /\
  (List.length (workerList c) <= n -> workerList (popAll n c) = [])%nat.
Proof.
  revert c. induction n as [|n IH]; intros c.
  - cbn. repeat split. intros H. apply length_zero_iff_nil. lia.
  - cbn [popAll]. destruct (IH {| workerList := removelast (workerList c);
                                  terminated := terminated c;
                                  posted := posted c;
                                  result := result c |}) as (H1 & H2 & H3 & H4).
    rewrite H1, H2, H3. repeat split. intros Hlen. apply H4. cbn.
    destruct (workerList c) as [|w l] eqn:El; [cbn; lia|].
    assert (l = [] \/ l <> []) as [->|Hne] by (destruct l; [left|right]; congruence).
    + cbn. lia.
    + pose proof (app_removelast_last w (l := w :: l) ltac:(discriminate)) as Happ.
      apply (f_equal (@List.length nat)) in Happ.
      rewrite length_app in Happ. cbn [List.length] in *. lia.
Qed.

(** What [_onmessage] does with the report of a prime. *)
Lemma _onmessage_prime (entropy : nat -> Z) (n iterations : Z) (msg : report)
  (worker : nat) (c : coordinator) (p : nat) :
  isPrime msg = true ->
  exists c',
    _onmessage entropy n iterations msg worker c p = (Ok c', p) /\
    workerList c' = [] /\
    posted c' = posted c /\
    result c' = resolve (value msg) (result c) /\
    forall k, is_terminated c' k
              = existsb (Nat.eqb k) (workerList c) || is_terminated c k.
Proof.
  intros Hp. unfold _onmessage. rewrite Hp. eexists. split; [reflexivity|].
  destruct (terminateAll_fields c) as (H1 & H2 & H3 & H4).
  destruct (popAll_fields (List.length (workerList (terminateAll c)))
              (terminateAll c)) as (G1 & G2 & G3 & G4).
  unfold settle, is_terminated in *. cbn [workerList posted result terminated].
  rewrite G1, G2, G3, H2, H3.
  split; [apply G4; lia|]. split; [reflexivity|]. split; [reflexivity|].
  exact H4.
Qed.

(** What [_onmessage] does with the report of a composite. *)
Lemma _onmessage_composite (entropy : nat -> Z) (n iterations : Z)
  (msg : report) (worker : nat) (c : coordinator) (p : nat) :
  1 <= n -> isPrime msg = false ->
  exists rnd p',
    exact_bits n rnd /\
    _onmessage entropy n iterations msg worker c p
    = (Ok (postMessage worker
             {| rnd := rnd; iterations := iterations; id := report_id msg |} c),
       p').
Proof.
  intros Hn Hp. unfold _onmessage. rewrite Hp.
  destruct (randBitsSync_spec entropy n true p Hn) as [buf [Eb [Hr Hf]]].
  unfold bindM. rewrite Eb. exists (fromBuffer buf). eexists.
  split; [|reflexivity]. split; [apply Hf; reflexivity | apply Hr].
Qed.

Lemma postMessage_fields (worker : nat) (msg : request) (c : coordinator) :
  workerList (postMessage worker msg c) = workerList c /\
  terminated (postMessage worker msg c) = terminated c /\
  result (postMessage worker msg c) = result c /\
  posted (postMessage worker msg c)
  = if is_terminated c worker then posted c else (worker, msg) :: posted c.
Proof.
  unfold postMessage. destruct (is_terminated c worker); cbn; auto.
Qed.

(** *** The parallel search only hands out and accepts good candidates *)

Lemma postMessage_inv (n iterations0 : Z) (worker : nat) (msg : request)
  (c : coordinator) :
  coordinator_inv n iterations0 c ->
  exact_bits n (rnd msg) -> iterations msg = iterations0 ->
  coordinator_inv n iterations0 (postMessage worker msg c).
Proof.
  intros [Hposted Hres] Hb Hi.
  destruct (postMessage_fields worker msg c) as (_ & _ & E3 & E4).
  split.
  - intros w m Hin. rewrite E4 in Hin.
    destruct (is_terminated c worker); [eauto|].
    destruct Hin as [Heq|Hin]; [|eauto]. injection Heq as <- <-. auto.
  - intros v Hv. rewrite E3 in Hv. auto.
Qed.

Lemma answers_inv (n iterations0 : Z) (msg : request) (r : report) :
  exact_bits n (rnd msg) -> iterations msg = iterations0 ->
  answers msg r ->
  isPrime r = true -> exact_bits n (value r) /\ passes iterations0 (value r).
Proof.
  intros Hb Hi Ha. destruct Ha as [we rounds draws q q' verdict E].
  cbn [isPrime value]. intros ->. split; [assumption|].
  rewrite Hi in E. exists we, rounds, draws, q, q'. exact E.
Qed.

Lemma _onmessage_inv (entropy : nat -> Z) (n iterations0 : Z) (r : report)
  (worker : nat) (c c' : coordinator) (p p' : nat) :
  1 <= n ->
  coordinator_inv n iterations0 c ->
  (isPrime r = true -> exact_bits n (value r) /\ passes iterations0 (value r)) ->
  _onmessage entropy n iterations0 r worker c p = (Ok c', p') ->
  coordinator_inv n iterations0 c'.
Proof.
  intros Hn Hinv Hr E. destruct (isPrime r) eqn:Ep.
  - destruct (_onmessage_prime entropy n iterations0 r worker c p Ep)
      as [c1 [E1 (_ & Hposted & Hres & _)]].
    rewrite E1 in E. injection E as <- <-.
    destruct Hinv as [Hp Hv]. split.
    + rewrite Hposted. exact Hp.
    + intros v. rewrite Hres. destruct (result c) as [|v0] eqn:Erc; cbn.
      * intros H. injection H as <-. apply Hr. reflexivity.
      * intros H. injection H as <-. apply Hv. reflexivity.
  - destruct (_onmessage_composite entropy n iterations0 r worker c p Hn Ep)
      as [rnd0 [p1 [Hb E1]]].
    rewrite E1 in E. injection E as <- <-.
    apply postMessage_inv; [assumption | exact Hb | reflexivity].
Qed.

Lemma postInitial_inv (entropy : nat -> Z) (n iterations0 : Z)
  (workers : list nat) :
  1 <= n ->
  forall c p,
    coordinator_inv n iterations0 c ->
    exists c' p',
      postInitial entropy n iterations0 workers c p = (Ok c', p') /\
      coordinator_inv n iterations0 c' /\
      workerList c' = workerList c /\ result c' = result c.
Proof.
  intros Hn. induction workers as [|i rest IH]; intros c p Hinv.
  - exists c, p. cbn. auto.
  - cbn [postInitial]. rewrite randBits_randBitsSync.
    destruct (randBitsSync_spec entropy n true p Hn) as [buf [Eb [Hr Hf]]].
    unfold bindM at 1. rewrite Eb.
    set (msg := {| rnd := fromBuffer buf; iterations := iterations0;
                   id := Z.of_nat i |}).
    destruct (IH (postMessage i msg c) (p + Z.to_nat (ceil_div8 n))%nat)
      as [c' [p' [E [Hinv' [Hw Hres]]]]].
    { apply postMessage_inv; [assumption| |reflexivity].
      split; [apply Hf; reflexivity | apply Hr]. }
    exists c', p'. split; [exact E|]. split; [exact Hinv'|].
    destruct (postMessage_fields i msg c) as (F1 & _ & F3 & _).
    rewrite Hw, Hres. auto.
Qed.

Lemma prime_inv (entropy : nat -> Z) (_useWorkers : bool)
  (hardwareConcurrency : Z) (tries rounds draws : nat) (n iterations0 : Z)
  (p p' : nat) (c : coordinator) :
  1 <= n ->
  prime entropy _useWorkers hardwareConcurrency tries rounds draws
    n iterations0 p = (Ok c, p') ->
  coordinator_inv n iterations0 c.
Proof.
  intros Hn. unfold prime.
  destruct (Z.ltb_spec n 1) as [?|_]; [lia|].
  destruct _useWorkers; cbn [negb].
  - set (c0 := {| workerList := _; terminated := []; posted := [];
                  result := Pending |}).
    destruct (postInitial_inv entropy n iterations0 (workerList c0) Hn c0 p)
      as [c' [q [E [Hinv _]]]].
    { split; [intros w m []|]. cbn. discriminate. }
    cbn [workerList c0] in E. fold c0 in E. rewrite E.
    intros H. injection H as <- <-. exact Hinv.
  - unfold bindM, retM.
    destruct (search entropy tries rounds draws n iterations0 p)
      as [[v| |] q] eqn:E; try discriminate.
    intros H. injection H as <- <-.
    destruct (search_post _ _ _ _ _ _ _ _ _ Hn E) as [Hb [q0 [q1 Hp]]].
    split; [intros w m []|]. cbn. intros v0 H. injection H as <-.
    split; [exact Hb|]. exists entropy, rounds, draws, q0, q1. exact Hp.
Qed.

Lemma steps_inv (entropy : nat -> Z) (n iterations0 : Z)
  (s s' : coordinator * nat) :
  1 <= n ->
  steps entropy n iterations0 s s' ->
  coordinator_inv n iterations0 (fst s) ->
  coordinator_inv n iterations0 (fst s').
Proof.
  intros Hn Hsteps. induction Hsteps as [s|s1 s2 s3 H12 IH H23]; [auto|].
  intros H1. specialize (IH H1).
  destruct H23 as [c c' p p' worker msg r Hin Hans E]. cbn [fst] in *.
  destruct IH as [Hposted Hres].
  destruct (Hposted worker msg Hin) as [Hb Hi].
  apply (_onmessage_inv entropy n iterations0 r worker c c' p p' Hn);
    [split; assumption| |exact E].
  apply (answers_inv n iterations0 msg r Hb Hi Hans).
Qed.

(** *** First prime report wins *)

Lemma handleAll_app (entropy : nat -> Z) (n iterations0 : Z)
  (t1 t2 : list (report * nat)) :
  forall c p c1 p1,
    handleAll entropy n iterations0 t1 c p = (Ok c1, p1) ->
    handleAll entropy n iterations0 (t1 ++ t2) c p
    = handleAll entropy n iterations0 t2 c1 p1.
Proof.
  induction t1 as [|[r w] t1 IH]; intros c p c1 p1 E.
  - cbn in E. injection E as <- <-. reflexivity.
  - cbn [handleAll app] in *. unfold bindM in *.
    destruct (_onmessage entropy n iterations0 r w c p) as [[c'| |] p'];
      try discriminate.
    apply IH. exact E.
Qed.

Lemma handleAll_composites (entropy : nat -> Z) (n iterations0 : Z)
  (trace : list (report * nat)) :
  1 <= n ->
  Forall (fun m => isPrime (fst m) = false) trace ->
  forall c p,
  exists c1 p1,
    handleAll entropy n iterations0 trace c p = (Ok c1, p1) /\
    result c1 = result c /\ workerList c1 = workerList c /\
    terminated c1 = terminated c.
Proof.
  intros Hn Hall. induction Hall as [|[r w] trace Hr _ IH]; intros c p.
  - exists c, p. cbn. auto.
  - cbn [fst] in Hr. cbn [handleAll]. unfold bindM.
    destruct (_onmessage_composite entropy n iterations0 r w c p Hn Hr)
      as [rnd0 [p' [_ E]]].
    rewrite E.
    destruct (IH (postMessage w {| rnd := rnd0; iterations := iterations0;
                                   id := report_id r |} c) p')
      as [c1 [p1 [E1 (H1 & H2 & H3)]]].
    exists c1, p1. split; [exact E1|].
    destruct (postMessage_fields w {| rnd := rnd0; iterations := iterations0;
                                      id := report_id r |} c)
      as (F1 & F2 & F3 & _).
    rewrite H1, H2, H3. auto.
Qed.

(** Once the search is resolved and its workers are gone, a report changes
    nothing. *)
Lemma _onmessage_resolved (entropy : nat -> Z) (n iterations0 : Z)
  (msg : report) (worker : nat) (c : coordinator) (p : nat) (v : Z) :
  1 <= n ->
  result c = Fulfilled v -> workerList c = [] ->
  isPrime msg = true \/ is_terminated c worker = true ->
  exists p', _onmessage entropy n iterations0 msg worker c p = (Ok c, p') /\
             (isPrime msg = true -> p' = p).
Proof.
  intros Hn Hres Hwl Hcase. destruct (isPrime msg) eqn:Ep.
  - exists p. split; [|reflexivity]. unfold _onmessage. rewrite Ep.
    unfold terminateAll. rewrite Hwl. cbn [fold_left]. rewrite Hwl.
    cbn [List.length popAll]. unfold settle, retM. rewrite Hres.
    cbn [resolve]. destruct c. cbn in *. subst. reflexivity.
  - destruct Hcase as [?|Ht]; [discriminate|].
    destruct (_onmessage_composite entropy n iterations0 msg worker c p Hn Ep)
      as [rnd0 [p' [_ E]]].
    exists p'. split; [|discriminate]. rewrite E.
    unfold postMessage. rewrite Ht. reflexivity.
Qed.

Lemma handleAll_resolved (entropy : nat -> Z) (n iterations0 : Z)
  (trace : list (report * nat)) (c : coordinator) (v : Z) :
  1 <= n ->
  result c = Fulfilled v -> workerList c = [] ->
  Forall (fun m => is_terminated c (snd m) = true) trace ->
  forall p, exists p',
    handleAll entropy n iterations0 trace c p = (Ok c, p').
Proof.
  intros Hn Hres Hwl Hall. induction Hall as [|[r w] trace Hw _ IH]; intros p.
  - exists p. reflexivity.
  - cbn [snd] in Hw. cbn [handleAll]. unfold bindM.
    destruct (_onmessage_resolved entropy n iterations0 r w c p v Hn Hres Hwl
                (or_intror Hw)) as [p' [E _]].
    rewrite E. apply IH.
Qed.

(** C8: in the parallel search, as long as only composites are reported the
    promise stays pending and no worker is terminated; the first report of
    a prime terminates every worker of the list, empties the list and
    fulfils the promise with the reported value; every later report of a
    worker, prime or composite, leaves the coordinator as it is, so the
    promise keeps the first value. *)
Theorem first_prime_report_wins (entropy : nat -> Z) (n iterations0 : Z)
  (c0 : coordinator) (before later : list (report * nat)) (msg : report)
  (worker p : nat) :
  1 <= n ->
  result c0 = Pending ->
  Forall (fun m => isPrime (fst m) = false) before ->
  isPrime msg = true ->
  Forall (fun m => In (snd m) (workerList c0)) later ->
  exists c1 p1 c2 p3,
    handleAll entropy n iterations0 before c0 p = (Ok c1, p1) /\
    result c1 = Pending /\
    workerList c1 = workerList c0 /\
    terminated c1 = terminated c0 /\
    _onmessage entropy n iterations0 msg worker c1 p1 = (Ok c2, p1) /\
    result c2 = Fulfilled (value msg) /\
    workerList c2 = [] /\
    (forall k, In k (workerList c0) -> is_terminated c2 k = true) /\
    (forall msg' worker' q,
        isPrime msg' = true ->
        _onmessage entropy n iterations0 msg' worker' c2 q = (Ok c2, q)) /\
    handleAll entropy n iterations0 later c2 p1 = (Ok c2, p3) /\
    handleAll entropy n iterations0 (before ++ (msg, worker) :: later) c0 p
    = (Ok c2, p3).
Proof.
  intros Hn Hpending Hbefore Hprime Hlater.
  destruct (handleAll_composites entropy n iterations0 before Hn Hbefore c0 p)
    as [c1 [p1 [E1 (R1 & W1 & T1)]]].
  destruct (_onmessage_prime entropy n iterations0 msg worker c1 p1 Hprime)
    as [c2 [E2 (W2 & _ & R2 & T2)]].
  rewrite R1, Hpending in R2. cbn [resolve] in R2.
  assert (Hterm : forall k, In k (workerList c0) -> is_terminated c2 k = true).
  { intros k Hk. rewrite T2, W1. apply orb_true_iff. left.
    apply existsb_exists. exists k. split; [exact Hk | apply Nat.eqb_refl]. }
  assert (Hlater' : Forall (fun m => is_terminated c2 (snd m) = true) later).
  { apply Forall_forall. intros m Hm. apply Hterm.
    apply (proj1 (Forall_forall _ _) Hlater m Hm). }
  destruct (handleAll_resolved entropy n iterations0 later c2 (value msg)
              Hn R2 W2 Hlater' p1) as [p3 E3].
  exists c1, p1, c2, p3.
  split; [exact E1|]. split; [congruence|]. split; [exact W1|].
  split; [exact T1|]. split; [exact E2|]. split; [exact R2|].
  split; [exact W2|]. split; [exact Hterm|]. split.
  - intros msg' worker' q Hp'.
    destruct (_onmessage_resolved entropy n iterations0 msg' worker' c2 q
                (value msg) Hn R2 W2 (or_introl Hp')) as [q' [E Hq]].
    rewrite E, (Hq Hp'). reflexivity.
  - split; [exact E3|].
    rewrite (handleAll_app entropy n iterations0 before _ c0 p c1 p1 E1).
    cbn [handleAll]. unfold bindM. rewrite E2. exact E3.
Qed.

Lemma first_prime_report_wins_witness :
  1 <= 2 /\
  result raceStart = Pending /\
  Forall (fun m => isPrime (fst m) = false) [(compositeReport, 0%nat)] /\
  isPrime primeReport = true /\
  Forall (fun m => In (snd m) (workerList raceStart))
    [(latePrimeReport, 0%nat)] /\
  exists c1 p1 c2 p3,
    handleAll zeroEntropy 2 16 [(compositeReport, 0%nat)] raceStart 0%nat
    = (Ok c1, p1) /\
    result c1 = Pending /\
    workerList c1 = workerList raceStart /\
    terminated c1 = terminated raceStart /\
    _onmessage zeroEntropy 2 16 primeReport 1%nat c1 p1 = (Ok c2, p1) /\
    result c2 = Fulfilled (value primeReport) /\
    workerList c2 = [] /\
    (forall k, In k (workerList raceStart) -> is_terminated c2 k = true) /\
    (forall msg' worker' q,
        isPrime msg' = true ->
        _onmessage zeroEntropy 2 16 msg' worker' c2 q = (Ok c2, q)) /\
    handleAll zeroEntropy 2 16 [(latePrimeReport, 0%nat)] c2 p1
    = (Ok c2, p3) /\
    handleAll zeroEntropy 2 16
      ([(compositeReport, 0%nat)] ++ (primeReport, 1%nat)
         :: [(latePrimeReport, 0%nat)]) raceStart 0%nat
    = (Ok c2, p3).
Proof.
  assert (H1 : 1 <= 2) by lia.
  assert (H2 : result raceStart = Pending) by reflexivity.
  assert (H3 : Forall (fun m => isPrime (fst m) = false)
                 [(compositeReport, 0%nat)])
    by (constructor; [reflexivity | constructor]).
  assert (H4 : isPrime primeReport = true) by reflexivity.
  assert (H5 : Forall (fun m => In (snd m) (workerList raceStart))
                 [(latePrimeReport, 0%nat)])
    by (constructor; [left; reflexivity | constructor]).
  split; [exact H1|]. split; [exact H2|]. split; [exact H3|].
  split; [exact H4|]. split; [exact H5|].
  exact (first_prime_report_wins zeroEntropy 2 16 raceStart
           [(compositeReport, 0%nat)] [(latePrimeReport, 0%nat)]
           primeReport 1%nat 0%nat H1 H2 H3 H4 H5).
Defined.

Lemma round_witness_up_to_w_minus_1_witness :
  randBetween topEntropy 1 (1601 - 1) 2 0%nat = (Ok 1600, 2%nat) /\
  2 <= 1600 <= 1601 - 1.
Proof.
  assert (E : randBetween topEntropy 1 (1601 - 1) 2 0%nat = (Ok 1600, 2%nat))
    by (vm_compute; reflexivity).
  split; [exact E|].
  exact (proj1 round_witness_up_to_w_minus_1 topEntropy 1%nat 1601
           0%nat 2%nat 1600 E).
Defined.

(** * Further properties of the library *)

(** ** Arithmetic primitives *)

(** X1: [bitLength a] of a >= 1 is the number n of binary digits of a,
    2^(n-1) <= a < 2^n; for a <= 0 the loop runs once and the result is 2. *)
Theorem bitLength_digits (a : Z) :
  (1 <= a ->
   exists n, bitLength a = Ok n /\ 1 <= n /\ 2 ^ (n - 1) <= a < 2 ^ n) /\
  (a <= 0 -> bitLength a = Ok 2).
Proof.
  split.
  - intros Ha. exists (Z.log2 a + 1). split; [apply bitLength_spec; lia|].
    pose proof (Z.log2_nonneg a). pose proof (Z.log2_spec a ltac:(lia)) as Hs.
    replace (Z.log2 a + 1 - 1) with (Z.log2 a) by lia.
    replace (Z.log2 a + 1) with (Z.succ (Z.log2 a)) by lia. split; [lia|].
    exact Hs.
  - intros Ha. unfold bitLength.
    destruct (Z.eqb_spec a 1) as [?|_]; [lia|].
    replace (Z.to_nat a) with 0%nat by lia.
    unfold do_while. cbn [loop bind].
    rewrite shiftr_1_div2.
    assert (a / 2 <= 0) by (apply Z.div_le_upper_bound; lia).
    destruct (Z.gtb_spec (a / 2) 1) as [?|_]; [lia|]. reflexivity.
Qed.

Lemma bitLength_digits_witness :
  (1 <= 255 /\
   exists n, bitLength 255 = Ok n /\ 1 <= n /\ 2 ^ (n - 1) <= 255 < 2 ^ n) /\
  (-7 <= 0 /\ bitLength (-7) = Ok 2).
Proof.
  split; (split; [lia|]).
  - apply (proj1 (bitLength_digits 255)). lia.
  - apply (proj2 (bitLength_digits (-7))). lia.
Defined.

(** X2: for a modulus n > 0, [toZn a n] is the residue of a in [0, n): it
    differs from a by a multiple of n, is the same for a + n, and is left
    alone by a second reduction; for n <= 0 [toZn] throws. *)
Theorem toZn_canonical (a n : Z) :
  (0 < n ->
   exists r, toZn a n = Ok r /\ 0 <= r < n /\ (n | a - r) /\
             toZn (a + n) n = Ok r /\ toZn r n = Ok r) /\
  (n <= 0 -> toZn a n = Throw (RangeError "n must be > 0")).
Proof.
  split; [|apply toZn_throws].
  intros Hn. exists (a mod n). rewrite !toZn_mod by assumption.
  split; [reflexivity|]. split; [apply Z.mod_pos_bound; assumption|].
  split; [|split].
  - exists (a / n). pose proof (Z.div_mod a n ltac:(lia)). lia.
  - f_equal. rewrite <- (Z.mul_1_l n) at 1. apply Z.mod_add. lia.
  - f_equal. apply Z.mod_mod. lia.
Qed.

Lemma toZn_canonical_witness :
  (0 < 7 /\
   exists r, toZn (-3) 7 = Ok r /\ 0 <= r < 7 /\ (7 | -3 - r) /\
             toZn (-3 + 7) 7 = Ok r /\ toZn r 7 = Ok r) /\
  (0 <= 0 /\ toZn 5 0 = Throw (RangeError "n must be > 0")).
Proof.
  split; (split; [lia|]).
  - apply (proj1 (toZn_canonical (-3) 7)). lia.
  - apply (proj2 (toZn_canonical 5 0)). lia.
Defined.

(** X3: for all integers, zero and negative ones included, the binary
    algorithm of [gcd] returns the greatest common divisor. *)
Theorem gcd_is_greatest_common_divisor (a b : Z) :
  exists d, gcd a b = Ok d /\ d = Z.gcd a b /\ 0 <= d /\
            (d | a) /\ (d | b) /\
            forall c, (c | a) -> (c | b) -> (c | d).
Proof.
  exists (Z.gcd a b). split; [apply gcd_correct|]. split; [reflexivity|].
  split; [apply Z.gcd_nonneg|]. split; [apply Z.gcd_divide_l|].
  split; [apply Z.gcd_divide_r|]. intros c. apply Z.gcd_greatest.
Qed.


(** X5: for an exponent e >= 0 and a modulus n > 1, [modPow b e n] is
    b^e mod n, and only the residue of the base matters. *)
Theorem modPow_is_power (b e n : Z) :
  0 <= e -> 1 < n ->
  modPow b e n = Ok (b ^ e mod n) /\ modPow (b mod n) e n = modPow b e n.
Proof.
  intros He Hn. rewrite !modPow_spec by assumption.
  split; [reflexivity|]. f_equal. apply Z.mod_pow_l.
Qed.

Lemma modPow_is_power_witness :
  0 <= 13 /\ 1 < 497 /\
  modPow 4 13 497 = Ok (4 ^ 13 mod 497) /\
  modPow (4 mod 497) 13 497 = modPow 4 13 497.
Proof.
  split; [lia|]. split; [lia|]. apply (modPow_is_power 4 13 497); lia.
Defined.

(** X6: for an exponent e < 0 and a modulus n > 1, [modPow b e n] is the
    modular inverse of b^(-e) mod n; when b is coprime to n it returns the
    residue r with r * b^(-e) mod n = 1. *)
Theorem modPow_negative_exponent (b e n : Z) :
  e < 0 -> 1 < n ->
  modPow b e n = modInv (b ^ (- e) mod n) n /\
  (Z.gcd b n = 1 ->
   exists r, modPow b e n = Ok r /\ 0 <= r < n /\ (r * b ^ (- e)) mod n = 1).
Proof.
  intros He Hn.
  assert (E : modPow b e n = modInv (b ^ (- e) mod n) n).
  { unfold modPow. cbn [modPow_rec].
    destruct (Z.leb_spec n 0) as [?|_]; [lia|].
    destruct (Z.eqb_spec n 1) as [?|_]; [lia|].
    rewrite toZn_mod by lia. cbn [bind].
    destruct (Z.ltb_spec e 0) as [_|?]; [|lia].
    rewrite toZn_mod by lia. cbn [bind].
    destruct (Z.ltb_spec (abs e) 0) as [Hneg|_];
      [rewrite abs_Zabs in Hneg; lia|].
    rewrite abs_Zabs, Z.abs_neq by lia.
    pose proof (Z.mod_pos_bound b n ltac:(lia)) as Hb.
    destruct (while_rule (modPow_inv (b mod n) (- e) n)
                (fun s => Z.to_nat (let '(_, e, _) := s in e))
                (fun '(_, e, _) => e >? 0)
                (fun s => Ok (modPow_body n s)))
      with (fuel := S (Z.to_nat (- e))) (s := (1, - e, b mod n mod n))
      as [[[r e'] b'] [El [(Hr & He' & _ & Hv) Hc]]].
    - intros s Hs Hcond. exists (modPow_body n s). split; [reflexivity|].
      apply modPow_body_inv; assumption.
    - unfold modPow_inv. rewrite Z.mod_mod by lia.
      repeat split; try lia. rewrite Z.mul_1_l. reflexivity.
    - lia.
    - rewrite El. cbn [bind].
      assert (e' = 0) by (destruct (Z.gtb_spec e' 0); [discriminate | lia]).
      subst e'. rewrite Z.pow_0_r, Z.mul_1_r, Z.mod_small in Hv by lia.
      rewrite Hv, Z.mod_pow_l. reflexivity. }
  split; [exact E|]. intros Hg. rewrite E.
  destruct (modInv_spec (b ^ (- e) mod n) n Hn) as [v [Ev [Hv Hinv]]].
  { rewrite Z.gcd_mod, Z.gcd_comm by lia.
    apply (Z.coprime_pow_l b n (- e)); [lia | exact Hg]. }
  exists v. split; [exact Ev|]. split; [exact Hv|].
  rewrite Zmult_mod_idemp_l in Hinv. rewrite Z.mul_comm. exact Hinv.
Qed.

Lemma modPow_negative_exponent_witness :
  -2 < 0 /\ 1 < 7 /\
  modPow 3 (-2) 7 = modInv (3 ^ (- -2) mod 7) 7 /\
  Z.gcd 3 7 = 1 /\
  exists r, modPow 3 (-2) 7 = Ok r /\ 0 <= r < 7 /\ (r * 3 ^ (- -2)) mod 7 = 1.
Proof.
  split; [lia|]. split; [lia|].
  split; [apply (modPow_negative_exponent 3 (-2) 7); lia|].
  split; [reflexivity|].
  apply (proj2 (modPow_negative_exponent 3 (-2) 7 ltac:(lia) ltac:(lia))).
  reflexivity.
Defined.

(** X7: [modInv a n] returns exactly when n > 1 and a is coprime to n.
    Otherwise it throws: "n must be > 0" for n <= 0, and the
    missing-inverse error when n > 0 and a shares a factor with n without
    being a multiple of it (a multiple of n is the case of C10). *)
Theorem modInv_returns_iff_coprime (a n : Z) :
  ((exists v, modInv a n = Ok v) <-> 1 < n /\ Z.gcd a n = 1) /\
  (n <= 0 -> modInv a n = Throw (RangeError "n must be > 0")) /\
  (0 < n -> a mod n <> 0 -> Z.gcd a n <> 1 ->
   modInv a n =
   Throw (RangeError
            (toString a ++ " does not have inverse modulo " ++ toString n))).
Proof.
  assert (Hshare : 0 < n -> a mod n <> 0 -> Z.gcd a n <> 1 ->
            modInv a n =
            Throw (RangeError
                     (toString a ++ " does not have inverse modulo "
                        ++ toString n))).
  { intros Hn Hr Hg. unfold modInv. rewrite toZn_mod by lia. cbn [bind].
    pose proof (Z.mod_pos_bound a n Hn) as Hb.
    destruct (eGcd_spec (a mod n) n ltac:(lia) Hn) as [x0 [y0 [E _]]].
    rewrite E. cbn [bind g]. rewrite Z.gcd_mod, (Z.gcd_comm n a) by lia.
    destruct (Z.eqb_spec (Z.gcd a n) 1) as [?|_]; [contradiction|].
    reflexivity. }
  assert (Hneg : n <= 0 -> modInv a n = Throw (RangeError "n must be > 0")).
  { intros Hn. unfold modInv. rewrite toZn_throws by assumption.
    reflexivity. }
  split; [|split; assumption].
  split.
  - intros [v E]. destruct (Z.le_gt_cases n 0) as [Hn|Hn].
    { rewrite Hneg in E by assumption. discriminate. }
    destruct (Z.eq_dec (a mod n) 0) as [Hz|Hz].
    { rewrite modInv_of_multiple in E by assumption. discriminate. }
    destruct (Z.eq_dec (Z.gcd a n) 1) as [Hg|Hg].
    + split; [|assumption].
      destruct (Z.eq_dec n 1) as [->|]; [|lia].
      rewrite Z.mod_1_r in Hz. contradiction.
    + rewrite Hshare in E by assumption. discriminate.
  - intros [Hn Hg]. destruct (modInv_spec a n Hn Hg) as [v [E _]]. eauto.
Qed.

Lemma modInv_returns_iff_coprime_witness :
  (1 < 7 /\ Z.gcd 4 7 = 1 /\ exists v, modInv 4 7 = Ok v) /\
  (0 <= 0 /\ modInv 4 0 = Throw (RangeError "n must be > 0")) /\
  (0 < 8 /\ 4 mod 8 <> 0 /\ Z.gcd 4 8 <> 1 /\
   modInv 4 8 =
   Throw (RangeError
            (toString 4 ++ " does not have inverse modulo " ++ toString 8))).
Proof.
  split; [|split].
  - split; [lia|]. split; [reflexivity|].
    apply (proj2 (proj1 (modInv_returns_iff_coprime 4 7))).
    split; [lia | reflexivity].
  - split; [lia|].
    apply (proj1 (proj2 (modInv_returns_iff_coprime 4 0))). lia.
  - split; [lia|]. split; [discriminate|]. split; [discriminate|].
    apply (proj2 (proj2 (modInv_returns_iff_coprime 4 8)));
      [lia | discriminate | discriminate].
Defined.

(** ** Random bytes, bits and integers *)

Lemma set0_bytes (buf : list Z) (v : Z) :
  Forall is_byte buf ->
  Forall is_byte (set0 buf v) /\
  List.length (set0 buf v) = List.length buf.
Proof.
  intros H. destruct buf as [|b rest]; [split; [constructor | reflexivity]|].
  inversion H; subst. cbn [set0]. split; [|reflexivity].
  constructor; [apply Z.mod_pos_bound; lia | assumption].
Qed.

Lemma mask_bits_bytes (n : Z) (force : bool) (buf : list Z) :
  Forall is_byte buf ->
  Forall is_byte (mask_bits n force buf) /\
  List.length (mask_bits n force buf) = List.length buf.
Proof.
  intros H. unfold mask_bits.
  set (buf1 := if negb (Z.rem n 8 =? 0) then _ else buf).
  assert (H1 : Forall is_byte buf1 /\ List.length buf1 = List.length buf).
  { unfold buf1. destruct (negb (Z.rem n 8 =? 0)); [|auto].
    apply set0_bytes. assumption. }
  destruct H1 as [Hb1 Hl1]. destruct force; [|auto].
  destruct (set0_bytes buf1
              (Z.lor (get0 buf1)
                 (if negb (Z.rem n 8 =? 0) then 2 ^ (Z.rem n 8 - 1) else 128))
              Hb1) as [Hb2 Hl2].
  split; [assumption | congruence].
Qed.

(** X8: [fromBuffer] reads a buffer as a big-endian number: the empty
    buffer is 0 and a buffer followed by another is the first value shifted
    by the length of the second, plus the second value. *)
Theorem fromBuffer_big_endian (xs ys : list Z) :
  fromBuffer [] = 0 /\
  fromBuffer (xs ++ ys)
  = fromBuffer xs * 256 ^ Z.of_nat (List.length ys) + fromBuffer ys.
Proof.
  split; [reflexivity|].
  unfold fromBuffer at 1. rewrite fold_left_app. fold (fromBuffer xs).
  apply fromBuffer_acc.
Qed.

(** X9: on buffers of bytes [fromBuffer] stays below 256^length and loses
    nothing: two buffers of the same length with the same value are the
    same buffer. *)
Theorem fromBuffer_injective (xs ys : list Z) :
  Forall is_byte xs -> Forall is_byte ys ->
  List.length xs = List.length ys ->
  0 <= fromBuffer xs < 256 ^ Z.of_nat (List.length xs) /\
  (fromBuffer xs = fromBuffer ys -> xs = ys).
Proof.
  intros Hx Hy Hlen. split; [apply fromBuffer_bound; assumption|].
  revert ys Hy Hlen. induction Hx as [|x xs Hx Hxs IH]; intros ys Hy Hlen E.
  - destruct ys; [reflexivity | discriminate].
  - destruct ys as [|y ys]; [discriminate|].
    inversion Hy as [|? ? Hy0 Hys]; subst.
    injection Hlen as Hlen. rewrite !fromBuffer_cons, <- Hlen in E.
    pose proof (fromBuffer_bound xs Hxs) as Bx.
    pose proof (fromBuffer_bound ys Hys) as By. rewrite <- Hlen in By.
    assert (x = y /\ fromBuffer xs = fromBuffer ys) as [-> E'].
    { set (P := 256 ^ Z.of_nat (List.length xs)) in *.
      assert (x = y) by nia. subst. split; [reflexivity | lia]. }
    f_equal. apply IH; assumption.
Qed.

Lemma fromBuffer_injective_witness :
  Forall is_byte [1; 2] /\ Forall is_byte [1; 2] /\
  List.length [1; 2] = List.length [1; 2] /\
  0 <= fromBuffer [1; 2] < 256 ^ Z.of_nat (List.length [1; 2]) /\
  (fromBuffer [1; 2] = fromBuffer [1; 2] -> [1; 2] = [1; 2]).
Proof.
  assert (H : Forall is_byte [1; 2])
    by (repeat constructor; unfold is_byte; lia).
  split; [exact H|]. split; [exact H|]. split; [reflexivity|].
  exact (fromBuffer_injective [1; 2] [1; 2] H H eq_refl).
Defined.

(** X10: for a length >= 1, [randBytesSync] returns that many bytes and
    advances the source by as many positions; without [forceLength] they
    are the bytes of the source, with it the first byte has its top bit
    set, so the buffer reads as a number of exactly 8 * length bits; for a
    length < 1 it throws and the source is not read. *)
Theorem randBytesSync_bytes (entropy : nat -> Z) (byteLength : Z)
  (forceLength : bool) (p : nat) :
  (1 <= byteLength ->
   exists buf,
     randBytesSync entropy byteLength forceLength p
     = (Ok buf, (p + Z.to_nat byteLength)%nat) /\
     Z.of_nat (List.length buf) = byteLength /\
     Forall is_byte buf /\
     (forceLength = false ->
      buf = map (fun i => entropy (p + i)%nat mod 256)
              (seq 0 (Z.to_nat byteLength))) /\
     (forceLength = true ->
      128 <= hd 0 buf /\ 2 ^ (8 * byteLength - 1) <= fromBuffer buf)) /\
  (byteLength < 1 ->
   randBytesSync entropy byteLength forceLength p
   = (Throw (RangeError "byteLength MUST be > 0"), p)).
Proof.
  split.
  - intros Hlen. unfold randBytesSync.
    destruct (Z.ltb_spec byteLength 1) as [?|_]; [lia|].
    destruct (getRandomValues_spec entropy (Z.to_nat byteLength) p)
      as [buf [E [Hl Hb]]].
    unfold bindM, retM. rewrite E. eexists. split; [reflexivity|].
    destruct forceLength.
    + destruct (set0_bytes buf (Z.lor (get0 buf) 128) Hb) as [Hb' Hl'].
      split; [lia|]. split; [exact Hb'|]. split; [discriminate|]. intros _.
      destruct buf as [|b rest]; [cbn in Hl; lia|].
      inversion Hb as [|? ? Hb0 Hrest]; subst. cbn [set0 get0 hd].
      pose proof (lor_pow2_range b 8 ltac:(lia) Hb0) as Hr.
      change (2 ^ (8 - 1)) with 128 in Hr. change (2 ^ 8) with 256 in Hr.
      rewrite Z.mod_small by lia. split; [lia|].
      rewrite fromBuffer_cons.
      pose proof (fromBuffer_bound rest Hrest) as Br.
      cbn [List.length] in Hl.
      replace (8 * byteLength - 1)
        with (7 + 8 * Z.of_nat (List.length rest)) by lia.
      rewrite Z.pow_add_r, Z.pow_mul_r by lia.
      change (2 ^ 7) with 128. change (2 ^ 8) with 256.
      assert (0 < 256 ^ Z.of_nat (List.length rest))
        by (apply Z.pow_pos_nonneg; lia).
      nia.
    + split; [lia|]. split; [exact Hb|]. split; [|discriminate].
      intros _. unfold getRandomValues in E. injection E as <-. reflexivity.
  - intros Hlen. unfold randBytesSync.
    destruct (Z.ltb_spec byteLength 1); [reflexivity | lia].
Qed.

Lemma randBytesSync_bytes_witness :
  (1 <= 2 /\
   exists buf,
     randBytesSync topEntropy 2 true 0%nat = (Ok buf, (0 + Z.to_nat 2)%nat) /\
     Z.of_nat (List.length buf) = 2 /\
     Forall is_byte buf /\
     (true = false ->
      buf = map (fun i => topEntropy (0 + i)%nat mod 256)
              (seq 0 (Z.to_nat 2))) /\
     (true = true ->
      128 <= hd 0 buf /\ 2 ^ (8 * 2 - 1) <= fromBuffer buf)) /\
  (0 < 1 /\
   randBytesSync topEntropy 0 true 5%nat
   = (Throw (RangeError "byteLength MUST be > 0"), 5%nat)).
Proof.
  split; (split; [lia|]).
  - apply (proj1 (randBytesSync_bytes topEntropy 2 true 0%nat)). lia.
  - apply (proj2 (randBytesSync_bytes topEntropy 0 true 5%nat)). lia.
Defined.

Lemma randBitsSync_bytes_spec (entropy : nat -> Z) (n : Z)
  (forceLength : bool) (p : nat) :
  (1 <= n ->
   exists buf,
     randBitsSync entropy n forceLength p
     = (Ok buf, (p + Z.to_nat ((n + 7) / 8))%nat) /\
     randBits entropy n forceLength p
     = (Ok buf, (p + Z.to_nat ((n + 7) / 8))%nat) /\
     Z.of_nat (List.length buf) = (n + 7) / 8 /\
     Forall is_byte buf /\
     0 <= fromBuffer buf < 2 ^ n /\
     (forceLength = true -> 2 ^ (n - 1) <= fromBuffer buf)) /\
  (n < 1 ->
   randBitsSync entropy n forceLength p
   = (Throw (RangeError "bitLength MUST be > 0"), p) /\
   randBits entropy n forceLength p
   = (Throw (RangeError "bitLength MUST be > 0"), p)).
Proof.
  split.
  - intros Hn.
    change (randBits entropy n forceLength p)
      with (randBitsSync entropy n forceLength p).
    assert (Ec : ceil_div8 n = (n + 7) / 8).
    { unfold ceil_div8.
      pose proof (Z.div_mod (- n) 8 ltac:(lia)).
      pose proof (Z.mod_pos_bound (- n) 8 ltac:(lia)).
      pose proof (Z.div_mod (n + 7) 8 ltac:(lia)).
      pose proof (Z.mod_pos_bound (n + 7) 8 ltac:(lia)). lia. }
    destruct (ceil_div8_spec n Hn) as (Hc & _). rewrite <- Ec.
    unfold randBitsSync, randBytesSync.
    destruct (Z.ltb_spec n 1) as [?|_]; [lia|].
    destruct (Z.ltb_spec (ceil_div8 n) 1) as [?|_]; [lia|].
    destruct (getRandomValues_spec entropy (Z.to_nat (ceil_div8 n)) p)
      as [buf [E [Hlen Hbytes]]].
    exists (mask_bits n forceLength buf). unfold bindM, retM. rewrite E.
    destruct (mask_bits_bytes n forceLength buf Hbytes) as [Hb Hl].
    destruct (mask_bits_range n forceLength buf Hn Hlen Hbytes) as [Hr Hf].
    split; [reflexivity|]. split; [reflexivity|]. split; [lia|].
    split; [exact Hb|]. split; [exact Hr | exact Hf].
  - intros Hn.
    change (randBits entropy n forceLength p)
      with (randBitsSync entropy n forceLength p).
    split; apply randBitsSync_throws; assumption.
Qed.

(** X11: for a bit length n >= 1, [randBitsSync], and [randBits] with it,
    returns ceil(n/8) bytes that read as a number below 2^n, of exactly n
    bits when [forceLength] is set, and advances the source by ceil(n/8);
    for n < 1 both throw and the source is not read. *)
Theorem randBitsSync_exact_length (entropy : nat -> Z) (n : Z)
  (forceLength : bool) (p : nat) :
  (1 <= n ->
   exists buf,
     randBitsSync entropy n forceLength p
     = (Ok buf, (p + Z.to_nat ((n + 7) / 8))%nat) /\
     randBits entropy n forceLength p
     = (Ok buf, (p + Z.to_nat ((n + 7) / 8))%nat) /\
     Z.of_nat (List.length buf) = (n + 7) / 8 /\
     Forall is_byte buf /\
     0 <= fromBuffer buf < 2 ^ n /\
     (forceLength = true -> 2 ^ (n - 1) <= fromBuffer buf)) /\
  (n < 1 ->
   randBitsSync entropy n forceLength p
   = (Throw (RangeError "bitLength MUST be > 0"), p) /\
   randBits entropy n forceLength p
   = (Throw (RangeError "bitLength MUST be > 0"), p)).
Proof. apply randBitsSync_bytes_spec. Qed.

Lemma randBitsSync_exact_length_witness :
  (1 <= 11 /\
   exists buf,
     randBitsSync topEntropy 11 true 0%nat
     = (Ok buf, (0 + Z.to_nat ((11 + 7) / 8))%nat) /\
     randBits topEntropy 11 true 0%nat
     = (Ok buf, (0 + Z.to_nat ((11 + 7) / 8))%nat) /\
     Z.of_nat (List.length buf) = (11 + 7) / 8 /\
     Forall is_byte buf /\
     0 <= fromBuffer buf < 2 ^ 11 /\
     (true = true -> 2 ^ (11 - 1) <= fromBuffer buf)) /\
  (0 < 1 /\
   randBitsSync topEntropy 0 true 3%nat
   = (Throw (RangeError "bitLength MUST be > 0"), 3%nat) /\
   randBits topEntropy 0 true 3%nat
   = (Throw (RangeError "bitLength MUST be > 0"), 3%nat)).
Proof.
  split; (split; [lia|]).
  - apply (proj1 (randBitsSync_exact_length topEntropy 11 true 0%nat)). lia.
  - apply (proj2 (randBitsSync_exact_length topEntropy 0 true 3%nat)). lia.
Defined.

Lemma rejectionLoop_consumption (entropy : nat -> Z) (bitLen interval : Z) :
  1 <= bitLen ->
  forall draws s p rnd p',
    loopM draws
      (fun _ : Z =>
         s' <~ (buf <~ randBitsSync entropy bitLen false ;;
                retM (fromBuffer buf)) ;;
         c <~ retM (s' >? interval) ;;
         retM (if c then Next s' else Done s')) s p = (Ok rnd, p') ->
    exists k, (1 <= k <= draws)%nat /\
              p' = (p + k * Z.to_nat (ceil_div8 bitLen))%nat.
Proof.
  intros Hb draws. induction draws as [|draws IH]; intros s p rnd p' E.
  - discriminate.
  - cbn [loopM] in E. unfold bindM at 1 2 3 4 in E. unfold retM at 1 2 in E.
    destruct (randBitsSync_spec entropy bitLen false p Hb) as [buf [Eb _]].
    rewrite Eb in E.
    destruct (fromBuffer buf >? interval).
    + apply IH in E. destruct E as [k [Hk ->]]. exists (S k). split; lia.
    + unfold retM in E. injection E as _ <-. exists 1%nat. split; lia.
Qed.

(** X12: [randBetween max min] throws when max <= min, without reading
    the source; otherwise it never throws, a value it returns lies in
    [min, max], and the source has advanced by a whole number of attempts,
    at least one and at most [draws], of ceil(bitLength(max - min) / 8)
    bytes each. *)
Theorem randBetween_in_range (entropy : nat -> Z) (draws : nat) (max min : Z)
  (p : nat) :
  (max <= min ->
   randBetween entropy draws max min p
   = (Throw (RangeError "Arguments MUST be: max > min"), p)) /\
  (min < max ->
   forall e, fst (randBetween entropy draws max min p) <> Throw e) /\
  (forall v p',
      randBetween entropy draws max min p = (Ok v, p') ->
      min <= v <= max /\
      exists k, (1 <= k <= draws)%nat /\
                p' = (p + k * Z.to_nat ((Z.log2 (max - min) + 1 + 7) / 8))%nat).
Proof.
  split; [apply randBetween_throws|]. split.
  - intros Hlt e He.
    destruct (randBetween entropy draws max min p) as [o p'] eqn:E.
    cbn [fst] in He. subst o.
    assert (Hnt : fst (randBetween entropy draws max min p) <> Timeout)
      by (rewrite E; discriminate).
    destruct (randBetween_returns entropy draws max min p Hlt Hnt)
      as [v [q Ev]].
    rewrite E in Ev. discriminate.
  - intros v p' E. split; [apply (randBetween_range _ _ _ _ _ _ _ E)|].
    unfold randBetween in E.
    destruct (Z.leb_spec max min) as [?|Hlt]; [discriminate|].
    rewrite bitLength_spec in E by lia. unfold bindM, liftM, retM in E.
    destruct (rejectionLoop _ _ _ _ p) as [[rnd| |] p1] eqn:El;
      try discriminate.
    injection E as _ <-.
    pose proof (Z.log2_nonneg (max - min)) as Hlog.
    unfold rejectionLoop, do_whileM in El.
    apply rejectionLoop_consumption in El; [|lia].
    destruct El as [k [Hk ->]]. exists k. split; [exact Hk|].
    f_equal. f_equal. f_equal. unfold ceil_div8.
    set (n := Z.log2 (max - min) + 1).
    pose proof (Z.div_mod (- n) 8 ltac:(lia)).
    pose proof (Z.mod_pos_bound (- n) 8 ltac:(lia)).
    pose proof (Z.div_mod (n + 7) 8 ltac:(lia)).
    pose proof (Z.mod_pos_bound (n + 7) 8 ltac:(lia)). lia.
Qed.

Lemma randBetween_in_range_witness :
  (2 <= 2 /\
   randBetween topEntropy 1 2 2 0%nat
   = (Throw (RangeError "Arguments MUST be: max > min"), 0%nat)) /\
  (2 < 1600 /\
   forall e, fst (randBetween topEntropy 1 1600 2 0%nat) <> Throw e) /\
  (randBetween topEntropy 1 1600 2 0%nat = (Ok 1600, 2%nat) /\
   2 <= 1600 <= 1600 /\
   exists k, (1 <= k <= 1)%nat /\
             2%nat = (0 + k * Z.to_nat ((Z.log2 (1600 - 2) + 1 + 7) / 8))%nat).
Proof.
  assert (E : randBetween topEntropy 1 1600 2 0%nat = (Ok 1600, 2%nat))
    by (vm_compute; reflexivity).
  split; [|split].
  - split; [lia|].
    apply (proj1 (randBetween_in_range topEntropy 1 2 2 0%nat)). lia.
  - split; [lia|].
    apply (proj1 (proj2 (randBetween_in_range topEntropy 1 1600 2 0%nat))).
    lia.
  - split; [exact E|].
    apply (proj2 (proj2 (randBetween_in_range topEntropy 1 1600 2 0%nat))
             1600 2%nat E).
Defined.

(** ** The primality test *)

Lemma twoAdicity_nonzero (d : Z) :
  d <> 0 ->
  exists a, twoAdicity d = Ok a /\ 0 <= a /\
            d = Z.quot d (2 ^ a) * 2 ^ a /\
            Z.rem (Z.quot d (2 ^ a)) 2 <> 0.
Proof.
  - intros Hd. unfold twoAdicity.
    destruct (while_rule
                (fun '(aux, a) => aux <> 0 /\ 0 <= a /\ d = aux * 2 ^ a)
                (fun '(aux, _) => Z.to_nat (Z.abs aux))
                (fun '(aux, _) => Z.rem aux 2 =? 0)
                (fun '(aux, a) => Ok (Z.quot aux 2, a + 1)))
      with (fuel := S (Z.to_nat (Z.abs d))) (s := (d, 0))
      as [[aux a] [E [(Haux & Ha & Hdec) Hc]]].
    + intros [aux a] (Haux & Ha & Hdec) Hc. apply Z.eqb_eq in Hc.
      pose proof (Z.quot_rem' aux 2) as Hqr.
      eexists. split; [reflexivity|].
      split; [split; [lia|split; [lia|]]|lia].
      rewrite Z.pow_add_r, Z.pow_1_r by lia. lia.
    + split; [assumption|]. split; [lia|]. rewrite Z.pow_0_r. lia.
    + lia.
    + rewrite E. cbn [bind]. exists a. split; [reflexivity|].
      apply Z.eqb_neq in Hc.
      assert (Hq : Z.quot d (2 ^ a) = aux).
      { rewrite Hdec. apply Z.quot_mul.
        apply Z.pow_nonzero; lia. }
      rewrite Hq. split; [exact Ha|]. split; [exact Hdec | exact Hc].
Qed.

(** X13: for d other than 0 the loop that strips factors of two ends with
    the exponent a >= 0 of the decomposition d = 2^a * m, m = d / 2^a odd;
    on 0 the loop never ends. *)
Theorem twoAdicity_decomposition (d : Z) :
  (d <> 0 ->
   exists a, twoAdicity d = Ok a /\ 0 <= a /\
             d = Z.quot d (2 ^ a) * 2 ^ a /\
             Z.rem (Z.quot d (2 ^ a)) 2 <> 0) /\
  (forall fuel a,
      while_ fuel (fun '(aux, _) => Z.rem aux 2 =? 0)
        (fun '(aux, a) => Ok (Z.quot aux 2, a + 1)) (0, a) = Timeout) /\
  twoAdicity 0 = Timeout.
Proof.
  split; [apply twoAdicity_nonzero|split].
  - intros fuel. induction fuel as [|fuel IH]; intros a; [reflexivity|].
    unfold while_ in *. cbn [loop bind]. cbn. apply IH.
  - reflexivity.
Qed.

Lemma twoAdicity_decomposition_witness :
  1600 <> 0 /\
  exists a, twoAdicity 1600 = Ok a /\ 0 <= a /\
            1600 = Z.quot 1600 (2 ^ a) * 2 ^ a /\
            Z.rem (Z.quot 1600 (2 ^ a)) 2 <> 0.
Proof.
  split; [discriminate|].
  apply (proj1 (twoAdicity_decomposition 1600)). discriminate.
Defined.

(** *** The table of small primes *)

Lemma zrange_In (lo : Z) (len : nat) (x : Z) :
  In x (zrange lo len) <-> lo <= x < lo + Z.of_nat len.
Proof.
  unfold zrange. rewrite in_map_iff. split.
  - intros [i [<- Hi]]. apply in_seq in Hi. lia.
  - intros Hx. exists (Z.to_nat (x - lo)). split; [lia|].
    apply in_seq. lia.
Qed.

Lemma primeb_prime (w : Z) : primeb w = true <-> Z.prime w.
Proof.
  unfold primeb, Z.prime. rewrite andb_true_iff, forallb_forall, Z.ltb_lt.
  split; intros [H1 H2]; (split; [assumption|]).
  - intros n Hn Hdiv. specialize (H2 n).
    rewrite zrange_In in H2. specialize (H2 ltac:(lia)).
    apply negb_true_iff, Z.eqb_neq in H2. apply H2.
    apply Z.mod_divide; [lia | assumption].
  - intros n Hn. rewrite zrange_In in Hn.
    apply negb_true_iff, Z.eqb_neq. intros Hm.
    apply (H2 n ltac:(lia)). apply Z.mod_divide; [lia | assumption].
Qed.

Lemma increasing_cons (p : Z) (rest : list Z) :
  increasing (p :: rest) = true ->
  increasing rest = true /\ forall q, In q rest -> p < q.
Proof.
  revert p. induction rest as [|r rest IH]; intros p H.
  - split; [reflexivity | intros q []].
  - cbn [increasing] in H. apply andb_true_iff in H. destruct H as [Hpr Hrest].
    apply Z.ltb_lt in Hpr. split; [exact Hrest|].
    destruct (IH r Hrest) as [_ Hr].
    intros q [<-|Hq]; [assumption|]. specialize (Hr q Hq). lia.
Qed.

Lemma firstPrimes_prime : Forall Z.prime firstPrimes.
Proof.
  apply Forall_forall. intros q Hq. apply primeb_prime.
  assert (H : forallb primeb firstPrimes = true) by (vm_compute; reflexivity).
  rewrite forallb_forall in H. apply H. assumption.
Qed.

Lemma firstPrimes_increasing : increasing firstPrimes = true.
Proof. vm_compute. reflexivity. Qed.

(** X14: the table [firstPrimes] holds 250 numbers in increasing order,
    all of them prime, and every prime from 3 to 1600 is in it. *)
Theorem firstPrimes_odd_primes_to_1597 :
  List.length firstPrimes = 250%nat /\
  increasing firstPrimes = true /\
  Forall Z.prime firstPrimes /\
  Forall (fun q => 3 <= q <= 1597) firstPrimes /\
  forall q, Z.prime q -> 3 <= q <= 1600 -> In q firstPrimes.
Proof.
  split; [reflexivity|]. split; [exact firstPrimes_increasing|].
  split; [exact firstPrimes_prime|]. split.
  - apply Forall_forall. intros q Hq.
    assert (H : forallb (fun q => (3 <=? q) && (q <=? 1597)) firstPrimes = true)
      by (vm_compute; reflexivity).
    rewrite forallb_forall in H. specialize (H q Hq).
    apply andb_true_iff in H. destruct H as [H1 H2].
    apply Z.leb_le in H1. apply Z.leb_le in H2. lia.
  - intros q Hq Hr.
    assert (H : forallb
                  (fun q => existsb (Z.eqb q) firstPrimes
                            || existsb (fun d => (d <? q) && (q mod d =? 0))
                                 (2 :: firstPrimes))
                  (zrange 3 1598) = true) by (vm_compute; reflexivity).
    rewrite forallb_forall in H. specialize (H q).
    rewrite zrange_In in H. specialize (H ltac:(lia)).
    apply orb_true_iff in H. destruct H as [H|H].
    + apply existsb_exists in H. destruct H as [x [Hx Ex]].
      apply Z.eqb_eq in Ex. subst x. exact Hx.
    + exfalso. apply existsb_exists in H. destruct H as [d [Hd Hdiv]].
      apply andb_true_iff in Hdiv. destruct Hdiv as [Hlt Hm].
      apply Z.ltb_lt in Hlt. apply Z.eqb_eq in Hm.
      assert (Hd2 : 2 <= d).
      { destruct Hd as [<-|Hd]; [lia|].
        assert (Hb : forallb (fun q => 3 <=? q) firstPrimes = true)
          by (vm_compute; reflexivity).
        rewrite forallb_forall in Hb. specialize (Hb d Hd).
        apply Z.leb_le in Hb. lia. }
      destruct Hq as [_ Hq]. apply (Hq d ltac:(lia)).
      apply Z.mod_divide; [lia | assumption].
Qed.

Lemma firstPrimes_odd_primes_to_1597_witness :
  Z.prime 1597 /\ 3 <= 1597 <= 1600 /\ In 1597 firstPrimes.
Proof.
  assert (H : Z.prime 1597) by (apply primeb_prime; vm_compute; reflexivity).
  split; [exact H|]. split; [lia|].
  apply (proj2 (proj2 (proj2 (proj2 firstPrimes_odd_primes_to_1597)))
           1597 H). lia.
Defined.

(** *** Verdicts reached before the witness loop *)

Lemma trialDivision_verdict (primes : list Z) (w : Z) :
  0 < w -> increasing primes = true -> Forall (fun q => 3 <= q) primes ->
  (trialDivision primes w = Some true -> In w primes) /\
  (trialDivision primes w = Some false ->
   exists q, In q primes /\ q < w /\ (q | w)) /\
  ((exists q, In q primes /\ (q | w)) -> trialDivision primes w <> None).
Proof.
  intros Hw. induction primes as [|p rest IH]; intros Hinc Hge.
  - cbn. split; [discriminate|]. split; [discriminate|].
    intros [q [[] _]].
  - destruct (increasing_cons p rest Hinc) as [Hinc' Hlt].
    inversion Hge as [|? ? Hp Hrest]; subst.
    destruct (IH Hinc' Hrest) as (IH1 & IH2 & IH3).
    cbn [trialDivision].
    destruct (Z.leb_spec p w) as [Hpw|Hpw].
    + destruct (Z.eqb_spec w p) as [->|Hne].
      * split; [intros _; left; reflexivity|].
        split; [discriminate|]. discriminate.
      * rewrite Z.rem_mod_nonneg by lia.
        destruct (Z.eqb_spec (w mod p) 0) as [Hm|Hm].
        -- split; [discriminate|]. split; [|discriminate].
           intros _. exists p. split; [left; reflexivity|].
           split; [lia|]. apply Z.mod_divide; [lia | assumption].
        -- split; [intros H; right; auto|]. split.
           ++ intros H. destruct (IH2 H) as [q [Hq Hd]].
              exists q. split; [right; assumption | assumption].
           ++ intros [q [[<-|Hq] Hd]].
              ** exfalso. apply Hm. apply Z.mod_divide; [lia | assumption].
              ** apply IH3. exists q. auto.
    + split; [discriminate|]. split; [discriminate|].
      intros [q [Hq Hd]]. exfalso.
      assert (p <= q) by (destruct Hq as [<-|Hq]; [lia|]; specialize (Hlt q Hq); lia).
      apply Z.divide_pos_le in Hd; lia.
Qed.

Lemma firstPrimes_ge_3 : Forall (fun q => 3 <= q) firstPrimes.
Proof.
  apply Forall_forall. intros q Hq.
  assert (Hb : forallb (fun q => 3 <=? q) firstPrimes = true)
    by (vm_compute; reflexivity).
  rewrite forallb_forall in Hb. specialize (Hb q Hq).
  apply Z.leb_le in Hb. exact Hb.
Qed.

Lemma prefilter_exact (entropy : nat -> Z) (rounds draws : nat)
  (w iterations : Z) (p : nat) :
  0 <= w -> prefiltered w ->
  exists b,
    _isProbablyPrime entropy rounds draws w iterations p = (Ok b, p) /\
    (b = true <-> Z.prime w).
Proof.
  intros Hw Hpre. unfold _isProbablyPrime.
  destruct (Z.eqb_spec w 2) as [->|Hw2].
  { exists true. split; [reflexivity|]. split; [|reflexivity].
    intros _. split; [lia|]. intros n Hn. lia. }
  rewrite land_1_mod2.
  destruct (Z.eqb_spec (w mod 2) 0) as [Hev|Hodd].
  { exists false. split; [reflexivity|]. split; [discriminate|].
    intros [H1 H2]. exfalso. apply (H2 2); [lia|].
    apply Z.mod_divide; [lia | assumption]. }
  destruct (Z.eqb_spec w 1) as [->|Hw1].
  { exists false. split; [reflexivity|]. split; [discriminate|].
    intros [H1 _]. lia. }
  cbn [orb].
  pose proof (Z.mod_pos_bound w 2 ltac:(lia)) as Hmb.
  pose proof (Z.div_mod w 2 ltac:(lia)) as Hdm.
  assert (Hw3 : 3 <= w) by lia.
  destruct Hpre as [?|[?|Hq]]; [lia | lia |].
  destruct (trialDivision_verdict firstPrimes w ltac:(lia)
              firstPrimes_increasing firstPrimes_ge_3) as (V1 & V2 & V3).
  destruct (trialDivision firstPrimes w) as [[|]|] eqn:Et.
  - exists true. split; [reflexivity|]. split; [|reflexivity]. intros _.
    apply (proj1 (Forall_forall _ _) firstPrimes_prime w). auto.
  - exists false. split; [reflexivity|]. split; [discriminate|].
    intros [_ H2]. exfalso. destruct (V2 eq_refl) as [q [Hin [Hlt Hd]]].
    pose proof (proj1 (Forall_forall _ _) firstPrimes_ge_3 q Hin) as Hq3.
    cbn beta in Hq3. apply (H2 q); [lia | assumption].
  - exfalso. apply (V3 Hq). reflexivity.
Qed.

(** X15: a candidate w >= 0 that is below 2, even, or a multiple of a
    prime of the table gets its verdict before the witness loop: whatever
    the iteration count and the budgets, the random source is not read and
    the verdict is exact, true exactly when w is prime. *)
Theorem prefilter_verdict_exact (entropy : nat -> Z) (rounds draws : nat)
  (w iterations : Z) (p : nat) :
  0 <= w ->
  w < 2 \/ w mod 2 = 0 \/ (exists q, In q firstPrimes /\ (q | w)) ->
  exists b,
    _isProbablyPrime entropy rounds draws w iterations p = (Ok b, p) /\
    (b = true <-> Z.prime w).
Proof. apply prefilter_exact. Qed.

Lemma prefilter_verdict_exact_witness :
  0 <= 341 /\
  (341 < 2 \/ 341 mod 2 = 0 \/ (exists q, In q firstPrimes /\ (q | 341))) /\
  exists b,
    _isProbablyPrime zeroEntropy 0 0 341 16 0%nat = (Ok b, 0%nat) /\
    (b = true <-> Z.prime 341).
Proof.
  assert (H : 341 < 2 \/ 341 mod 2 = 0 \/
              (exists q, In q firstPrimes /\ (q | 341))).
  { right. right. exists 11. split; [|exists 31; reflexivity].
    do 3 right. left. reflexivity. }
  split; [lia|]. split; [exact H|].
  apply (prefilter_verdict_exact zeroEntropy 0 0 341 16 0%nat); [lia | exact H].
Defined.

Lemma prefilteredb_prefiltered (w : Z) :
  prefilteredb w = true -> prefiltered w.
Proof.
  unfold prefilteredb, prefiltered. rewrite !orb_true_iff.
  intros [[H|H]|H].
  - left. apply Z.ltb_lt. assumption.
  - right. left. apply Z.eqb_eq. assumption.
  - right. right. apply existsb_exists in H. destruct H as [q [Hq Hm]].
    exists q. split; [assumption|]. apply Z.eqb_eq in Hm.
    pose proof (proj1 (Forall_forall _ _) firstPrimes_ge_3 q Hq) as Hq3.
    cbn beta in Hq3. apply Z.mod_divide; [lia | assumption].
Qed.

(** X16: on the candidates from 0 to 1600 the test is an exact and
    deterministic primality test: it returns whether w is prime, reads no
    random byte and does not depend on the iteration count. *)
Theorem small_candidates_decided_exactly (entropy : nat -> Z)
  (rounds draws : nat) (w iterations : Z) (p : nat) :
  0 <= w <= 1600 ->
  exists b,
    _isProbablyPrime entropy rounds draws w iterations p = (Ok b, p) /\
    (b = true <-> Z.prime w).
Proof.
  intros Hw. apply prefilter_exact; [lia|]. apply prefilteredb_prefiltered.
  assert (H : forallb prefilteredb (zrange 0 1601) = true)
    by (vm_compute; reflexivity).
  rewrite forallb_forall in H. apply H. apply zrange_In. lia.
Qed.

Lemma small_candidates_decided_exactly_witness :
  0 <= 97 <= 1600 /\
  exists b,
    _isProbablyPrime zeroEntropy 0 0 97 0 0%nat = (Ok b, 0%nat) /\
    (b = true <-> Z.prime 97).
Proof.
  split; [lia|].
  apply (small_candidates_decided_exactly zeroEntropy 0 0 97 0 0%nat). lia.
Defined.

(** *** One round of the witness loop *)

Lemma spp_square (w m b i : Z) :
  0 <= m -> 0 <= i ->
  (b ^ (m * 2 ^ i) mod w) ^ 2 mod w = b ^ (m * 2 ^ (i + 1)) mod w.
Proof.
  intros Hm Hi. rewrite Z.mod_pow_l.
  assert (0 <= 2 ^ i) by (apply Z.pow_nonneg; lia).
  rewrite <- Z.pow_mul_r by nia. f_equal. f_equal.
  rewrite Z.pow_add_r, Z.pow_1_r by lia. ring.
Qed.

Lemma spp_stays_1 (w m b j k : Z) :
  1 < w -> 0 <= m -> 0 <= j -> 0 <= k ->
  b ^ (m * 2 ^ j) mod w = 1 -> b ^ (m * 2 ^ (j + k)) mod w = 1.
Proof.
  intros Hw Hm Hj Hk H.
  assert (0 <= 2 ^ j) by (apply Z.pow_nonneg; lia).
  assert (0 <= 2 ^ k) by (apply Z.pow_nonneg; lia).
  rewrite Z.pow_add_r, Z.mul_assoc, Z.pow_mul_r by nia.
  rewrite <- Z.mod_pow_l, H, Z.pow_1_l by lia. apply Z.mod_small. lia.
Qed.

Lemma squarings_spec (w m a b : Z) :
  2 < w -> 0 <= m -> b ^ (m * 2 ^ 0) mod w <> w - 1 ->
  exists c,
    squarings w (w - 1) a (b ^ (m * 2 ^ 0) mod w) = Ok c /\
    match c with
    | Normal z =>
        (z = w - 1 /\ exists i, 0 <= i < a /\ b ^ (m * 2 ^ i) mod w = w - 1) \/
        (z <> w - 1 /\ forall i, 0 <= i < a -> b ^ (m * 2 ^ i) mod w <> w - 1)
    | Return r =>
        r = false /\ forall i, 0 <= i < a -> b ^ (m * 2 ^ i) mod w <> w - 1
    end.
Proof.
  intros Hw Hm H0. unfold squarings.
  apply (loop_rule
           (fun '(z, j) =>
              1 <= j /\ z = b ^ (m * 2 ^ (j - 1)) mod w /\
              forall i, 0 <= i < j -> b ^ (m * 2 ^ i) mod w <> w - 1)
           (fun c : completion Z bool =>
              match c with
              | Normal z =>
                  (z = w - 1 /\
                   exists i, 0 <= i < a /\ b ^ (m * 2 ^ i) mod w = w - 1) \/
                  (z <> w - 1 /\
                   forall i, 0 <= i < a -> b ^ (m * 2 ^ i) mod w <> w - 1)
              | Return r =>
                  r = false /\
                  forall i, 0 <= i < a -> b ^ (m * 2 ^ i) mod w <> w - 1
              end)
           (fun '(_, j) => Z.to_nat (a - j))).
  - intros [z j] (Hj & Ez & Hprev).
    destruct (Z.ltb_spec j a) as [Hlt|Hge].
    + rewrite modPow_spec by lia. cbn [bind].
      assert (Ez' : z ^ 2 mod w = b ^ (m * 2 ^ j) mod w).
      { rewrite Ez, spp_square by lia.
        replace (j - 1 + 1) with j by lia. reflexivity. }
      rewrite Ez'.
      destruct (Z.eqb_spec (b ^ (m * 2 ^ j) mod w) (w - 1)) as [Ed|Hd].
      * right. eexists. split; [reflexivity|]. left.
        split; [assumption|]. exists j. split; [lia | assumption].
      * destruct (Z.eqb_spec (b ^ (m * 2 ^ j) mod w) 1) as [E1|H1].
        -- right. eexists. split; [reflexivity|]. split; [reflexivity|].
           intros i Hi. destruct (Z.lt_ge_cases i j) as [Hij|Hij].
           ++ apply Hprev. lia.
           ++ replace i with (j + (i - j)) by lia.
              rewrite spp_stays_1 by (assumption || lia). lia.
        -- left. eexists. split; [reflexivity|]. split; [|lia].
           split; [lia|].
           split; [replace (j + 1 - 1) with j by lia; reflexivity|].
           intros i Hi. destruct (Z.eq_dec i j) as [->|Hne]; [assumption|].
           apply Hprev. lia.
    + right. eexists. split; [reflexivity|]. right. split.
      * rewrite Ez. apply Hprev. lia.
      * intros i Hi. apply Hprev. lia.
  - split; [lia|]. split; [reflexivity|]. intros i Hi.
    replace i with 0 by lia. assumption.
  - lia.
Qed.

Lemma witnessCheck_spec (w m a b : Z) :
  2 < w -> 0 <= m -> 1 <= a ->
  (witnessCheck w (w - 1) m a b = Ok (Normal tt) /\
   strong_probable_prime w a m b) \/
  (witnessCheck w (w - 1) m a b = Ok (Return false) /\
   ~ strong_probable_prime w a m b).
Proof.
  intros Hw Hm Ha. unfold witnessCheck, strong_probable_prime.
  rewrite modPow_spec by lia. cbn [bind].
  assert (E0 : b ^ (m * 2 ^ 0) mod w = b ^ m mod w)
    by (rewrite Z.pow_0_r, Z.mul_1_r; reflexivity).
  destruct (Z.eqb_spec (b ^ m mod w) 1) as [E1|H1]; [left; auto|].
  destruct (Z.eqb_spec (b ^ m mod w) (w - 1)) as [Ed|Hd].
  { left. split; [reflexivity|]. right. exists 0. split; [lia|].
    rewrite E0. assumption. }
  cbn [orb]. rewrite <- E0 in Hd.
  destruct (squarings_spec w m a b Hw Hm Hd) as [c [Ec Hc]].
  rewrite E0 in Ec. rewrite Ec. cbn [bind].
  destruct c as [z|r].
  - destruct Hc as [[-> Hex]|[Hz Hall]].
    + rewrite Z.eqb_refl. cbn [negb]. left. auto.
    + destruct (Z.eqb_spec z (w - 1)) as [?|_]; [contradiction|]. cbn [negb].
      right. split; [reflexivity|]. intros [?|[i [Hi Hi']]]; [contradiction|].
      apply (Hall i Hi Hi').
  - destruct Hc as [-> Hall]. right. split; [reflexivity|].
    intros [?|[i [Hi Hi']]]; [contradiction|]. apply (Hall i Hi Hi').
Qed.

(** X17: with w > 2 and w - 1 = 2^a * m, one round accepts the witness b
    exactly when w is a strong probable prime to the base b, that is
    b^m = 1 or b^(m * 2^i) = w - 1 modulo w for some i < a; otherwise the
    round returns false, and it does nothing else. *)
Theorem round_accepts_strong_probable_primes (w m a b : Z) :
  2 < w -> 0 <= m -> 1 <= a ->
  (witnessCheck w (w - 1) m a b = Ok (Normal tt) /\
   strong_probable_prime w a m b) \/
  (witnessCheck w (w - 1) m a b = Ok (Return false) /\
   ~ strong_probable_prime w a m b).
Proof. apply witnessCheck_spec. Qed.

Lemma round_accepts_strong_probable_primes_witness :
  2 < 1601 /\ 0 <= 25 /\ 1 <= 6 /\
  ((witnessCheck 1601 (1601 - 1) 25 6 2 = Ok (Normal tt) /\
    strong_probable_prime 1601 6 25 2) \/
   (witnessCheck 1601 (1601 - 1) 25 6 2 = Ok (Return false) /\
    ~ strong_probable_prime 1601 6 25 2)).
Proof.
  split; [lia|]. split; [lia|]. split; [lia|].
  apply (round_accepts_strong_probable_primes 1601 25 6 2); lia.
Defined.

Lemma pow_minus_1_odd (w m : Z) :
  2 < w -> 0 <= m -> Z.rem m 2 <> 0 -> (w - 1) ^ m mod w = w - 1.
Proof.
  intros Hw Hm Hodd.
  assert (Em : (- 1) mod w = w - 1).
  { symmetry. apply Z.mod_unique with (q := - 1); lia. }
  assert (Ew : (w - 1) mod w = w - 1) by (apply Z.mod_small; lia).
  rewrite <- Z.mod_pow_l, Ew, <- Em, Z.mod_pow_l.
  rewrite Z.rem_mod_nonneg in Hodd by lia.
  assert (Ho : Z.odd m = true).
  { rewrite Zmod_odd in Hodd. destruct (Z.odd m); [reflexivity | lia]. }
  change (- 1) with (- (1)). rewrite Z.pow_opp_odd by (apply Z.odd_spec; assumption).
  rewrite Z.pow_1_l by lia. reflexivity.
Qed.

(** X18: for every odd w >= 3, prime or not, the witness w - 1 passes the
    round: with a and m as the test computes them, (w-1)^m = w - 1 modulo
    w at once.  Together with C1 (the draw can be w - 1) such a round tells
    nothing about w. *)
Theorem witness_w_minus_1_always_passes (w : Z) :
  3 <= w -> w mod 2 = 1 ->
  exists a,
    twoAdicity (w - 1) = Ok a /\ 1 <= a /\
    modPow (w - 1) (Z.quot (w - 1) (2 ^ a)) w = Ok (w - 1) /\
    witnessCheck w (w - 1) (Z.quot (w - 1) (2 ^ a)) a (w - 1)
    = Ok (Normal tt).
Proof.
  intros Hw Hodd.
  destruct (twoAdicity_nonzero (w - 1) ltac:(lia)) as [a [Ea [Ha [Hdec Hm]]]].
  exists a. split; [exact Ea|].
  assert (Hm0 : 0 <= Z.quot (w - 1) (2 ^ a))
    by (apply Z.quot_pos; [lia | apply Z.pow_pos_nonneg; lia]).
  assert (Ha1 : 1 <= a).
  { destruct (Z.eq_dec a 0) as [->|]; [|lia]. exfalso. apply Hm.
    rewrite Z.pow_0_r, Z.quot_1_r, Z.rem_mod_nonneg by lia.
    pose proof (Z.div_mod w 2 ltac:(lia)) as Hd.
    apply Z.mod_divide; [lia|]. exists (w / 2). lia. }
  split; [exact Ha1|].
  assert (Ep : modPow (w - 1) (Z.quot (w - 1) (2 ^ a)) w = Ok (w - 1)).
  { rewrite modPow_spec by lia. f_equal. apply pow_minus_1_odd; [lia | | ]; assumption. }
  split; [exact Ep|]. unfold witnessCheck. rewrite Ep. cbn [bind].
  rewrite (Z.eqb_refl (w - 1)), orb_true_r. reflexivity.
Qed.

Lemma witness_w_minus_1_always_passes_witness :
  3 <= 2563201 /\ 2563201 mod 2 = 1 /\
  exists a,
    twoAdicity (2563201 - 1) = Ok a /\ 1 <= a /\
    modPow (2563201 - 1) (Z.quot (2563201 - 1) (2 ^ a)) 2563201
    = Ok (2563201 - 1) /\
    witnessCheck 2563201 (2563201 - 1) (Z.quot (2563201 - 1) (2 ^ a)) a
      (2563201 - 1) = Ok (Normal tt).
Proof.
  split; [lia|]. split; [reflexivity|].
  apply (witness_w_minus_1_always_passes 2563201); [lia | reflexivity].
Defined.

(** X19: a negative candidate: [isProbablyPrime] rejects it before any
    work; [_isProbablyPrime] itself answers false when it is even, and when
    it is odd its first round throws the error of [randBetween], since
    w - 1 is not above 2. *)
Theorem negative_candidates (entropy : nat -> Z) (rounds draws : nat)
  (w iterations : Z) (p : nat) :
  w < 0 ->
  isProbablyPrime entropy rounds draws w iterations p
  = (Throw (RangeError "w MUST be >= 0"), p) /\
  (w mod 2 = 0 ->
   _isProbablyPrime entropy rounds draws w iterations p = (Ok false, p)) /\
  (w mod 2 = 1 ->
   _isProbablyPrime entropy (S rounds) draws w iterations p
   = (Throw (RangeError "Arguments MUST be: max > min"), p)).
Proof.
  intros Hw. split; [|split].
  - unfold isProbablyPrime. destruct (Z.ltb_spec w 0); [reflexivity | lia].
  - intros Hev. unfold _isProbablyPrime.
    destruct (Z.eqb_spec w 2) as [?|_]; [lia|].
    rewrite land_1_mod2, Hev. reflexivity.
  - intros Hodd. unfold _isProbablyPrime.
    destruct (Z.eqb_spec w 2) as [?|_]; [lia|].
    rewrite land_1_mod2, Hodd.
    destruct (Z.eqb_spec w 1) as [?|_]; [lia|]. cbn [Z.eqb orb].
    assert (Et : trialDivision firstPrimes w = None).
    { change firstPrimes with (3 :: tl firstPrimes). cbn [trialDivision].
      destruct (Z.leb_spec 3 w); [lia | reflexivity]. }
    rewrite Et.
    destruct (twoAdicity_nonzero (w - 1) ltac:(lia)) as [a [Ea _]].
    unfold bindM at 1, liftM. rewrite Ea.
    rewrite witnessLoop_step, randBetween_throws by lia. reflexivity.
Qed.

Lemma negative_candidates_witness :
  -7 < 0 /\
  isProbablyPrime zeroEntropy 1 1 (-7) 16 0%nat
  = (Throw (RangeError "w MUST be >= 0"), 0%nat) /\
  (-8) mod 2 = 0 /\
  _isProbablyPrime zeroEntropy 1 1 (-8) 16 0%nat = (Ok false, 0%nat) /\
  (-7) mod 2 = 1 /\
  _isProbablyPrime zeroEntropy (S 0) 1 (-7) 16 0%nat
  = (Throw (RangeError "Arguments MUST be: max > min"), 0%nat).
Proof.
  split; [lia|].
  split; [apply (negative_candidates zeroEntropy 1 1 (-7) 16 0%nat); lia|].
  split; [reflexivity|].
  split; [apply (negative_candidates zeroEntropy 1 1 (-8) 16 0%nat);
          [lia | reflexivity]|].
  split; [reflexivity|].
  apply (negative_candidates zeroEntropy 0 1 (-7) 16 0%nat); [lia | reflexivity].
Defined.

(** ** The prime search *)

Lemma one_bit_candidate (entropy : nat -> Z) (p : nat) :
  exists buf,
    randBitsSync entropy 1 true p = (Ok buf, (p + 1)%nat) /\
    fromBuffer buf = 1.
Proof.
  destruct (randBitsSync_spec entropy 1 true p ltac:(lia)) as [buf [E [Hr Hf]]].
  exists buf. split; [exact E|]. specialize (Hf eq_refl).
  change (2 ^ (1 - 1)) with 1 in Hf. change (2 ^ 1) with 2 in Hr. lia.
Qed.

Lemma one_is_rejected (entropy : nat -> Z) (rounds draws : nat)
  (iterations : Z) (p : nat) :
  _isProbablyPrime entropy rounds draws 1 iterations p = (Ok false, p).
Proof. reflexivity. Qed.

Lemma search_one_bit (entropy : nat -> Z) (rounds draws : nat)
  (iterations : Z) (tries : nat) :
  forall s p,
    fst (loopM tries
           (fun _ : Z =>
              s' <~ (buf <~ randBitsSync entropy 1 true ;;
                     retM (fromBuffer buf)) ;;
              c <~ (ok <~ _isProbablyPrime entropy rounds draws s' iterations ;;
                    retM (negb ok)) ;;
              retM (if c then Next s' else Done s')) s p) = Timeout.
Proof.
  induction tries as [|tries IH]; intros s p; [reflexivity|].
  cbn [loopM]. unfold bindM at 1 2 3 4 5. unfold retM at 1.
  destruct (one_bit_candidate entropy p) as [buf [E Ev]].
  rewrite E, Ev, one_is_rejected. unfold retM at 1 2. cbn [negb].
  apply IH.
Qed.

Lemma _onmessage_cases (entropy : nat -> Z) (n iterations0 : Z) (msg : report)
  (worker : nat) (c c' : coordinator) (p p' : nat) :
  _onmessage entropy n iterations0 msg worker c p = (Ok c', p') ->
  (isPrime msg = true /\
   workerList c' = [] /\ posted c' = posted c /\
   result c' = resolve (value msg) (result c) /\
   forall k, is_terminated c' k
             = existsb (Nat.eqb k) (workerList c) || is_terminated c k) \/
  (isPrime msg = false /\
   exists rnd0,
     c' = postMessage worker
            {| rnd := rnd0; iterations := iterations0; id := report_id msg |}
            c).
Proof.
  intros E. destruct (isPrime msg) eqn:Ep.
  - left. split; [reflexivity|].
    destruct (_onmessage_prime entropy n iterations0 msg worker c p Ep)
      as [c1 [E1 H]].
    rewrite E1 in E. injection E as <- <-. exact H.
  - right. split; [reflexivity|]. unfold _onmessage in E. rewrite Ep in E.
    unfold bindM, retM in E.
    destruct (randBitsSync entropy n true p) as [[buf| |] q];
      try discriminate.
    injection E as <- <-. eauto.
Qed.

Lemma steps_one_bit_pending (entropy : nat -> Z) (iterations0 : Z)
  (s s' : coordinator * nat) :
  steps entropy 1 iterations0 s s' ->
  coordinator_inv 1 iterations0 (fst s) ->
  result (fst s) = Pending ->
  result (fst s') = Pending.
Proof.
  intros Hsteps Hinv Hinit.
  induction Hsteps as [s|s1 s2 s3 H12 IH H23]; [assumption|].
  specialize (IH Hinv Hinit).
  pose proof (steps_inv entropy 1 iterations0 s1 s2 ltac:(lia) H12 Hinv)
    as Hinv2.
  destruct H23 as [c2 c3 q2 q3 worker msg r Hin Hans E].
  cbn [fst] in *. destruct Hinv2 as [Hposted _].
  destruct (Hposted worker msg Hin) as [Hb _].
  unfold exact_bits in Hb. change (2 ^ (1 - 1)) with 1 in Hb.
  change (2 ^ 1) with 2 in Hb.
  assert (Hrnd : rnd msg = 1) by lia.
  destruct Hans as [we r0 d0 q q' verdict Ev].
  rewrite Hrnd, one_is_rejected in Ev. injection Ev as <- _.
  apply _onmessage_cases in E. cbn [isPrime] in E.
  destruct E as [[? _]|[_ [rnd0 ->]]]; [discriminate|].
  destruct (postMessage_fields worker
              {| rnd := rnd0; iterations := iterations0;
                 id := report_id
                         {| isPrime := false; value := rnd msg;
                            report_id := id msg |} |} c2)
    as (_ & _ & F3 & _).
  rewrite F3. exact IH.
Qed.

(** X20: the bit length 1 passes the guard, but the only candidate of one
    bit is 1, which the test rejects: [primeSync] and the sequential path
    of [prime] return for no budget, on any random source, and on the
    worker path the promise stays pending whatever the workers report. *)
Theorem one_bit_prime_never_found (entropy : nat -> Z) (tries rounds draws : nat)
  (iterations0 : Z) (p : nat) :
  fst (primeSync entropy tries rounds draws 1 iterations0 p) = Timeout /\
  (forall hardwareConcurrency,
      fst (prime entropy false hardwareConcurrency tries rounds draws
             1 iterations0 p) = Timeout) /\
  (forall hardwareConcurrency c p' s,
      prime entropy true hardwareConcurrency tries rounds draws
        1 iterations0 p = (Ok c, p') ->
      steps entropy 1 iterations0 (c, p') s ->
      result (fst s) = Pending).
Proof.
  assert (Hs : fst (search entropy tries rounds draws 1 iterations0 p)
               = Timeout)
    by (unfold search, do_whileM; apply search_one_bit).
  split; [exact Hs|]. split.
  - intros hc. unfold prime. change (1 <? 1) with false. cbn [negb].
    unfold bindM.
    destruct (search entropy tries rounds draws 1 iterations0 p)
      as [[v| |] q]; cbn [fst] in *; try discriminate. reflexivity.
  - intros hc c p' s Hprime Hsteps.
    assert (Hinit : result c = Pending).
    { unfold prime in Hprime. change (1 <? 1) with false in Hprime.
      cbn [negb] in Hprime.
      destruct (postInitial_inv entropy 1 iterations0
                  (seq 0 (Z.to_nat (hc - 1))) ltac:(lia)
                  {| workerList := seq 0 (Z.to_nat (hc - 1));
                     terminated := []; posted := []; result := Pending |} p)
        as [c1 [q [E [_ [_ Hres]]]]].
      { split; [intros w m []|]. cbn. discriminate. }
      rewrite E in Hprime. injection Hprime as <- <-. exact Hres. }
    pose proof (prime_inv entropy true hc tries rounds draws 1 iterations0
                  p p' c ltac:(lia) Hprime) as Hinv.
    clear Hprime.
    exact (steps_one_bit_pending entropy iterations0 _ _ Hsteps Hinv Hinit).
Qed.

Lemma one_bit_prime_never_found_witness :
  prime zeroEntropy true 2 1 1 1 1 16 0%nat
  = (Ok {| workerList := [0%nat]; terminated := [];
           posted := [(0%nat, {| rnd := 1; iterations := 16; id := 0 |})];
           result := Pending |}, 1%nat) /\
  steps zeroEntropy 1 16
    ({| workerList := [0%nat]; terminated := [];
        posted := [(0%nat, {| rnd := 1; iterations := 16; id := 0 |})];
        result := Pending |}, 1%nat)
    ({| workerList := [0%nat]; terminated := [];
        posted := [(0%nat, {| rnd := 1; iterations := 16; id := 0 |})];
        result := Pending |}, 1%nat) /\
  result (fst ({| workerList := [0%nat]; terminated := [];
                  posted := [(0%nat, {| rnd := 1; iterations := 16; id := 0 |})];
                  result := Pending |}, 1%nat)) = Pending.
Proof.
  assert (E : prime zeroEntropy true 2 1 1 1 1 16 0%nat
              = (Ok {| workerList := [0%nat]; terminated := [];
                       posted := [(0%nat,
                                   {| rnd := 1; iterations := 16; id := 0 |})];
                       result := Pending |}, 1%nat))
    by (vm_compute; reflexivity).
  split; [exact E|]. split; [apply steps_refl|].
  exact (proj2 (proj2 (one_bit_prime_never_found zeroEntropy 1 1 1 16 0%nat))
           2 _ _ _ E (steps_refl _ _ _ _)).
Defined.

Lemma postInitial_spec (entropy : nat -> Z) (n iterations0 : Z) :
  1 <= n ->
  forall workers c p,
    terminated c = [] ->
    Forall (fun wm => id (snd wm) = Z.of_nat (fst wm) /\
                      iterations (snd wm) = iterations0 /\
                      exact_bits n (rnd (snd wm))) (posted c) ->
    exists c',
      postInitial entropy n iterations0 workers c p
      = (Ok c', (p + List.length workers * Z.to_nat ((n + 7) / 8))%nat) /\
      workerList c' = workerList c /\ terminated c' = [] /\
      result c' = result c /\
      map fst (posted c') = rev workers ++ map fst (posted c) /\
      Forall (fun wm => id (snd wm) = Z.of_nat (fst wm) /\
                        iterations (snd wm) = iterations0 /\
                        exact_bits n (rnd (snd wm))) (posted c').
Proof.
  intros Hn workers. induction workers as [|i rest IH]; intros c p Ht Hall.
  - exists c. cbn [postInitial List.length]. unfold retM.
    replace (p + 0 * _)%nat with p by lia. cbn [rev app].
    repeat split; assumption.
  - cbn [postInitial].
    destruct (proj1 (randBitsSync_bytes_spec entropy n true p) Hn)
      as [buf (_ & Eb & _ & _ & Hr & Hf)].
    unfold bindM at 1. rewrite Eb.
    set (msg := {| rnd := fromBuffer buf; iterations := iterations0;
                   id := Z.of_nat i |}).
    assert (Epost : postMessage i msg c
                    = {| workerList := workerList c; terminated := terminated c;
                         posted := (i, msg) :: posted c; result := result c |}).
    { unfold postMessage, is_terminated. rewrite Ht. reflexivity. }
    destruct (IH (postMessage i msg c)
                (p + Z.to_nat ((n + 7) / 8))%nat) as [c' (E & W & T & R & P & F)].
    { rewrite Epost. exact Ht. }
    { rewrite Epost. cbn [posted]. constructor; [|exact Hall].
      cbn. split; [reflexivity|]. split; [reflexivity|].
      split; [apply Hf; reflexivity | apply Hr]. }
    exists c'. rewrite E. split; [f_equal; cbn [List.length]; lia|].
    rewrite W, R, P, Epost. cbn [workerList result posted map fst rev].
    rewrite <- app_assoc. cbn [app]. auto.
Qed.

Lemma steps_nothing_posted (entropy : nat -> Z) (n iterations0 : Z)
  (s s' : coordinator * nat) :
  steps entropy n iterations0 s s' -> posted (fst s) = [] -> s' = s.
Proof.
  intros Hsteps Hp. induction Hsteps as [s|s1 s2 s3 H12 IH H23]; [reflexivity|].
  specialize (IH Hp). subst s2.
  destruct H23 as [c c' q q' worker msg r Hin _ _].
  cbn [fst] in Hp. rewrite Hp in Hin. destruct Hin.
Qed.

(** X21: on the worker path with at most one execution unit
    ([hardwareConcurrency] <= 1) no worker is created and no candidate is
    drawn: the promise is pending and nothing can ever fulfil it. *)
Theorem prime_without_workers_never_settles (entropy : nat -> Z)
  (hardwareConcurrency : Z) (tries rounds draws : nat) (n iterations0 : Z)
  (p : nat) :
  1 <= n -> hardwareConcurrency <= 1 ->
  prime entropy true hardwareConcurrency tries rounds draws n iterations0 p
  = (Ok {| workerList := []; terminated := []; posted := [];
           result := Pending |}, p) /\
  forall s,
    steps entropy n iterations0
      ({| workerList := []; terminated := []; posted := [];
          result := Pending |}, p) s ->
    s = ({| workerList := []; terminated := []; posted := [];
            result := Pending |}, p).
Proof.
  intros Hn Hhc. split.
  - unfold prime. destruct (Z.ltb_spec n 1) as [?|_]; [lia|]. cbn [negb].
    replace (Z.to_nat (hardwareConcurrency - 1)) with 0%nat by lia.
    reflexivity.
  - intros s Hsteps.
    apply (steps_nothing_posted entropy n iterations0 _ _ Hsteps).
    reflexivity.
Qed.

Lemma prime_without_workers_never_settles_witness :
  1 <= 16 /\ 1 <= 1 /\
  prime zeroEntropy true 1 1 16 1 16 16 0%nat
  = (Ok {| workerList := []; terminated := []; posted := [];
           result := Pending |}, 0%nat).
Proof.
  split; [lia|]. split; [lia|].
  apply (prime_without_workers_never_settles zeroEntropy 1 1 16 1 16 16 0%nat);
    lia.
Defined.

(** X22: on the worker path [prime] creates one worker for each execution
    unit but one and posts one candidate to each: the message of worker i
    carries the id i, the iteration count of the call and a candidate of
    exactly n bits; the source advances by ceil(n/8) bytes for each worker,
    no worker is terminated and the promise is pending. *)
Theorem prime_posts_one_candidate_per_worker (entropy : nat -> Z)
  (hardwareConcurrency : Z) (tries rounds draws : nat) (n iterations0 : Z)
  (p : nat) :
  1 <= n ->
  exists c,
    prime entropy true hardwareConcurrency tries rounds draws n iterations0 p
    = (Ok c, (p + Z.to_nat (hardwareConcurrency - 1)
                  * Z.to_nat ((n + 7) / 8))%nat) /\
    workerList c = seq 0 (Z.to_nat (hardwareConcurrency - 1)) /\
    terminated c = [] /\
    result c = Pending /\
    map fst (posted c) = rev (seq 0 (Z.to_nat (hardwareConcurrency - 1))) /\
    Forall (fun wm => id (snd wm) = Z.of_nat (fst wm) /\
                      iterations (snd wm) = iterations0 /\
                      exact_bits n (rnd (snd wm))) (posted c).
Proof.
  intros Hn. unfold prime. destruct (Z.ltb_spec n 1) as [?|_]; [lia|].
  cbn [negb].
  set (workers := seq 0 (Z.to_nat (hardwareConcurrency - 1))).
  destruct (postInitial_spec entropy n iterations0 Hn workers
              {| workerList := workers; terminated := []; posted := [];
                 result := Pending |} p eq_refl (Forall_nil _))
    as [c (E & W & T & R & P & F)].
  exists c. subst workers. rewrite length_seq in E.
  split; [exact E|]. cbn [workerList result posted map] in W, R, P.
  rewrite app_nil_r in P. auto.
Qed.

Lemma prime_posts_one_candidate_per_worker_witness :
  1 <= 9 /\
  exists c,
    prime zeroEntropy true 4 1 16 1 9 16 0%nat
    = (Ok c, (0 + Z.to_nat (4 - 1) * Z.to_nat ((9 + 7) / 8))%nat) /\
    workerList c = seq 0 (Z.to_nat (4 - 1)) /\
    terminated c = [] /\
    result c = Pending /\
    map fst (posted c) = rev (seq 0 (Z.to_nat (4 - 1))) /\
    Forall (fun wm => id (snd wm) = Z.of_nat (fst wm) /\
                      iterations (snd wm) = 16 /\
                      exact_bits 9 (rnd (snd wm))) (posted c).
Proof.
  split; [lia|].
  apply (prime_posts_one_candidate_per_worker zeroEntropy 4 1 16 1 9 16 0%nat).
  lia.
Defined.

(** X23: when a worker reports a composite, [_onmessage] draws one fresh
    candidate of exactly n bits (ceil(n/8) bytes of the source) and posts
    it to that worker with the id of the report and the iteration count of
    the call; the worker list, the terminated workers and the promise are
    left as they are, and if the worker is already terminated the
    candidate is dropped and the coordinator does not change. *)
Theorem composite_report_gets_fresh_candidate (entropy : nat -> Z)
  (n iterations0 : Z) (msg : report) (worker : nat) (c : coordinator)
  (p : nat) :
  1 <= n -> isPrime msg = false ->
  exists rnd0,
    exact_bits n rnd0 /\
    _onmessage entropy n iterations0 msg worker c p
    = (Ok (if is_terminated c worker then c
           else {| workerList := workerList c;
                   terminated := terminated c;
                   posted := (worker,
                              {| rnd := rnd0; iterations := iterations0;
                                 id := report_id msg |}) :: posted c;
                   result := result c |}),
       (p + Z.to_nat ((n + 7) / 8))%nat).
Proof.
  intros Hn Hp. unfold _onmessage. rewrite Hp.
  destruct (proj1 (randBitsSync_bytes_spec entropy n true p) Hn)
    as [buf (Eb & _ & _ & _ & Hr & Hf)].
  unfold bindM, retM. rewrite Eb. exists (fromBuffer buf).
  split; [split; [apply Hf; reflexivity | apply Hr]|].
  unfold postMessage. destruct (is_terminated c worker); reflexivity.
Qed.

Lemma composite_report_gets_fresh_candidate_witness :
  1 <= 2 /\ isPrime compositeReport = false /\
  exists rnd0,
    exact_bits 2 rnd0 /\
    _onmessage zeroEntropy 2 16 compositeReport 0%nat raceStart 0%nat
    = (Ok (if is_terminated raceStart 0%nat then raceStart
           else {| workerList := workerList raceStart;
                   terminated := terminated raceStart;
                   posted := (0%nat,
                              {| rnd := rnd0; iterations := 16;
                                 id := report_id compositeReport |})
                             :: posted raceStart;
                   result := result raceStart |}),
       (0 + Z.to_nat ((2 + 7) / 8))%nat).
Proof.
  split; [lia|]. split; [reflexivity|].
  apply (composite_report_gets_fresh_candidate zeroEntropy 2 16
           compositeReport 0%nat raceStart 0%nat); [lia | reflexivity].
Defined.

(** * Runs of the test and of the search *)

(** ** How long the loop test lets a run go on *)

(** From 2^53 + 4 on, [--iterations] never gets below 2^53 + 4. *)
Lemma decrement_large (x : Z) : 2 ^ 53 + 4 <= x -> 2 ^ 53 + 4 <= decrement x.
Proof.
  intros Hx. unfold decrement, binary64_round.
  destruct (Z.leb_spec (Z.abs (x - 1)) (2 ^ 53)) as [?|_]; [lia|].
  rewrite Z.sgn_pos, Z.abs_eq, Z.mul_1_l by lia.
  set (ax := x - 1) in *.
  assert (Hax : 2 ^ 53 + 3 <= ax) by (unfold ax; lia).
  assert (Hlog : 53 <= Z.log2 ax) by (apply Z.log2_le_pow2; lia).
  pose proof (Z.log2_spec ax ltac:(lia)) as [Hlo Hhi].
  set (ulp := 2 ^ (Z.log2 ax - 52)).
  assert (Hulp : 0 < ulp) by (apply Z.pow_pos_nonneg; lia).
  assert (Hpow : 2 ^ Z.log2 ax = 2 ^ 52 * ulp).
  { unfold ulp. rewrite <- Z.pow_add_r by lia. f_equal. lia. }
  pose proof (Z.div_mod ax ulp ltac:(lia)) as Hdm.
  pose proof (Z.mod_pos_bound ax ulp Hulp) as Hr.
  set (q := ax / ulp) in *. set (r := ax mod ulp) in *.
  assert (Hq : 2 ^ 52 <= q).
  { apply Z.div_le_lower_bound; [exact Hulp|]. rewrite Z.mul_comm. lia. }
  cbv zeta.
  destruct (Z.eq_dec (Z.log2 ax) 53) as [E53|Hne].
  - assert (Eulp : ulp = 2) by (unfold ulp; rewrite E53; reflexivity).
    rewrite Eulp in *.
    destruct (Z.ltb_spec (2 * r) 2) as [H1|H1]; [lia|].
    destruct (Z.ltb_spec 2 (2 * r)) as [H2|H2]; [lia|].
    destruct (Z.even q) eqn:Ev; [|lia].
    apply Z.even_spec in Ev. destruct Ev as [h Hh]. lia.
  - assert (H54 : 2 ^ 54 <= 2 ^ Z.log2 ax)
      by (apply Z.pow_le_mono_r; lia).
    assert (Hge : 2 ^ 54 <= q * ulp) by nia.
    destruct (Z.ltb_spec (2 * r) ulp); [lia|].
    destruct (Z.ltb_spec ulp (2 * r)); [nia|].
    destruct (Z.even q); nia.
Qed.

(** 2^53 + 1 and 2^53 + 2 are both decremented to 2^53. *)
Lemma decrement_above_2_53 (x : Z) :
  2 ^ 53 < x <= 2 ^ 53 + 2 -> decrement x = 2 ^ 53.
Proof.
  intros Hx.
  destruct (Z.eq_dec x (2 ^ 53 + 1)) as [->|Hne]; [vm_compute; reflexivity|].
  assert (x = 2 ^ 53 + 2) as -> by lia. vm_compute. reflexivity.
Qed.

Lemma continues_S (k : nat) (iterations : Z) :
  decrement iterations <> 0 ->
  continues (S k) iterations = continues k (decrement iterations).
Proof.
  intros Hne. cbn [continues].
  destruct (Z.eqb_spec (decrement iterations) 0); [contradiction|reflexivity].
Qed.

Lemma continues_stop (k : nat) (iterations : Z) :
  decrement iterations = 0 -> continues (S k) iterations = false.
Proof. intros E. cbn [continues]. rewrite E. reflexivity. Qed.

Lemma continues_le (j : nat) :
  forall k iterations,
    (j <= k)%nat -> continues k iterations = true ->
    continues j iterations = true.
Proof.
  induction j as [|j IH]; intros k iterations Hle H; [reflexivity|].
  destruct k as [|k]; [lia|]. cbn [continues] in *.
  apply andb_true_iff in H. destruct H as [H1 H2].
  rewrite H1. apply (IH k); [lia | exact H2].
Qed.

(** Up to 2^53 the loop test lets the run go on [iterations - 1] times. *)
Lemma continues_exact (k : nat) :
  forall iterations,
    1 <= iterations <= 2 ^ 53 ->
    (continues k iterations = true <-> (k < Z.to_nat iterations)%nat).
Proof.
  induction k as [|k IH]; intros iterations Hit.
  - split; [lia | reflexivity].
  - cbn [continues]. rewrite (decrement_exact iterations) by lia.
    destruct (Z.eqb_spec (iterations - 1) 0) as [E|Hne]; cbn [negb andb].
    + split; [discriminate | lia].
    + rewrite (IH (iterations - 1)) by lia. lia.
Qed.

Lemma continues_nonpos (k : nat) :
  forall iterations, iterations <= 0 -> continues k iterations = true.
Proof.
  induction k as [|k IH]; intros iterations Hit; [reflexivity|].
  pose proof (decrement_nonpos iterations Hit) as Hd.
  rewrite continues_S by lia. apply IH. lia.
Qed.

Lemma continues_large (k : nat) :
  forall iterations, 2 ^ 53 + 4 <= iterations -> continues k iterations = true.
Proof.
  induction k as [|k IH]; intros iterations Hit; [reflexivity|].
  pose proof (decrement_large iterations Hit) as Hd.
  rewrite continues_S by lia. apply IH. exact Hd.
Qed.

(** From 1 to 2^53 + 2 the loop test has stopped the run after
    [iterations] rounds. *)
Lemma continues_stops (iterations : Z) :
  1 <= iterations <= 2 ^ 53 + 2 ->
  continues (Z.to_nat iterations) iterations = false.
Proof.
  intros Hit. destruct (Z_le_gt_dec iterations (2 ^ 53)) as [Hle|Hgt].
  - destruct (continues (Z.to_nat iterations) iterations) eqn:E;
      [|reflexivity].
    apply continues_exact in E; lia.
  - replace (Z.to_nat iterations) with (S (Z.to_nat iterations - 1)) by lia.
    pose proof (decrement_above_2_53 iterations ltac:(lia)) as Ed.
    rewrite continues_S, Ed by lia.
    destruct (continues (Z.to_nat iterations - 1) (2 ^ 53)) eqn:E;
      [|reflexivity].
    apply continues_exact in E; lia.
Qed.

(** ** The runs of the witness loop *)

Lemma randBetween_not_thrown (entropy : nat -> Z) (draws : nat) (max min : Z)
  (p p' : nat) (e : exn) :
  min < max -> randBetween entropy draws max min p <> (Throw e, p').
Proof.
  intros Hlt E.
  destruct (randBetween_returns entropy draws max min p Hlt) as [v [q Ev]].
  - rewrite E. discriminate.
  - congruence.
Qed.

(** A candidate that reaches the witness loop is odd and above 3; the
    test is then the loop on w - 1 = 2^a * m. *)
Lemma _isProbablyPrime_loop (w : Z) :
  3 <= w -> w mod 2 = 1 -> trialDivision firstPrimes w = None ->
  exists a,
    twoAdicity (w - 1) = Ok a /\ 1 <= a /\ 0 <= Z.quot (w - 1) (2 ^ a) /\
    forall entropy rounds draws iterations p,
      _isProbablyPrime entropy rounds draws w iterations p
      = witnessLoop entropy rounds draws w (w - 1) (Z.quot (w - 1) (2 ^ a)) a
          iterations p.
Proof.
  intros Hw Hodd Et.
  destruct (twoAdicity_nonzero (w - 1) ltac:(lia)) as [a [Ea [Ha [Hdec Hm]]]].
  assert (Hm0 : 0 <= Z.quot (w - 1) (2 ^ a))
    by (apply Z.quot_pos; [lia | apply Z.pow_pos_nonneg; lia]).
  assert (Ha1 : 1 <= a).
  { destruct (Z.eq_dec a 0) as [->|]; [|lia]. exfalso. apply Hm.
    rewrite Z.pow_0_r, Z.quot_1_r, Z.rem_mod_nonneg by lia.
    pose proof (Z.div_mod w 2 ltac:(lia)) as Hd.
    apply Z.mod_divide; [lia|]. exists (w / 2). lia. }
  exists a. split; [exact Ea|]. split; [exact Ha1|]. split; [exact Hm0|].
  intros entropy rounds draws iterations p.
  unfold _isProbablyPrime.
  destruct (Z.eqb_spec w 2) as [?|_]; [lia|].
  rewrite land_1_mod2, Hodd.
  destruct (Z.eqb_spec w 1) as [?|_]; [lia|].
  cbn [Z.eqb orb]. rewrite Et.
  unfold bindM at 1, liftM. rewrite Ea. reflexivity.
Qed.

(** A candidate w >= 0 has its verdict before the witness loop, whatever
    the source, or reaches the loop. *)
Lemma _isProbablyPrime_before_loop (w : Z) :
  0 <= w ->
  (exists verdict, forall entropy rounds draws iterations p,
      _isProbablyPrime entropy rounds draws w iterations p = (Ok verdict, p)) \/
  (3 <= w /\ w mod 2 = 1 /\ trialDivision firstPrimes w = None).
Proof.
  intros Hw. unfold _isProbablyPrime.
  destruct (Z.eqb_spec w 2) as [?|H2]; [left; exists true; reflexivity|].
  rewrite land_1_mod2.
  pose proof (Z.mod_pos_bound w 2 ltac:(lia)) as Hmod.
  destruct (Z.eqb_spec (w mod 2) 0) as [?|Hodd];
    [left; exists false; reflexivity|].
  destruct (Z.eqb_spec w 1) as [?|H1]; [left; exists false; reflexivity|].
  cbn [orb].
  destruct (trialDivision firstPrimes w) as [r|] eqn:Et;
    [left; exists r; reflexivity|].
  right. split; [|split; [lia | reflexivity]].
  destruct (Z.eq_dec w 0) as [->|]; [exfalso; apply Hodd; reflexivity|]. lia.
Qed.

Lemma successiveDraws_cons (entropy : nat -> Z) (draws : nat) (d : Z)
  (k : nat) (p p1 p' : nat) (b : Z) (bases : list Z) :
  randBetween entropy draws d 2 p = (Ok b, p1) ->
  successiveDraws entropy draws d k p1 = Some (bases, p') ->
  successiveDraws entropy draws d (S k) p = Some (b :: bases, p').
Proof.
  intros E1 E2. cbn [successiveDraws]. rewrite E1, E2. reflexivity.
Qed.

Lemma successiveDraws_more_draws (entropy : nat -> Z) (draws draws' : nat)
  (d : Z) :
  (draws <= draws')%nat ->
  forall k p bases q,
    successiveDraws entropy draws d k p = Some (bases, q) ->
    successiveDraws entropy draws' d k p = Some (bases, q).
Proof.
  intros Hle k. induction k as [|k IH]; intros p bases q E.
  - exact E.
  - cbn [successiveDraws] in E.
    destruct (randBetween entropy draws d 2 p) as [[b| |] p1] eqn:Eb;
      try discriminate.
    destruct (successiveDraws entropy draws d k p1) as [[bs q1]|] eqn:Es;
      try discriminate.
    injection E as <- <-.
    apply successiveDraws_cons with (p1 := p1);
      [exact (randBetween_more_draws _ _ _ _ _ _ _ _ Hle Eb)
      |exact (IH _ _ _ Es)].
Qed.

Lemma successiveDraws_app (entropy : nat -> Z) (draws : nat) (d : Z)
  (k j : nat) :
  forall p,
    successiveDraws entropy draws d (k + j) p
    = match successiveDraws entropy draws d k p with
      | Some (bs, q) =>
          match successiveDraws entropy draws d j q with
          | Some (cs, p') => Some (bs ++ cs, p')
          | None => None
          end
      | None => None
      end.
Proof.
  induction k as [|k IH]; intros p.
  - cbn [Nat.add successiveDraws].
    destruct (successiveDraws entropy draws d j p) as [[cs p']|]; reflexivity.
  - cbn [Nat.add successiveDraws].
    destruct (randBetween entropy draws d 2 p) as [[b| |] p1]; try reflexivity.
    rewrite IH.
    destruct (successiveDraws entropy draws d k p1) as [[bs q]|];
      [|reflexivity].
    destruct (successiveDraws entropy draws d j q) as [[cs p']|]; reflexivity.
Qed.

(** Of two sequences of draws from the same position, the shorter one
    is the beginning of the longer one, and the draw after it comes
    back. *)
Lemma successiveDraws_next (entropy : nat -> Z) (draws : nat) (d : Z)
  (k n : nat) (p q p' : nat) (bs l : list Z) :
  (k < n)%nat ->
  successiveDraws entropy draws d k p = Some (bs, q) ->
  successiveDraws entropy draws d n p = Some (l, p') ->
  exists b q', randBetween entropy draws d 2 q = (Ok b, q').
Proof.
  intros Hk Ek En.
  replace n with (k + S (n - S k))%nat in En by lia.
  rewrite successiveDraws_app, Ek in En. cbn [successiveDraws] in En.
  destruct (randBetween entropy draws d 2 q) as [[b| |] q'];
    try discriminate.
  eauto.
Qed.

Lemma successiveDraws_prefix (entropy : nat -> Z) (draws : nat) (d : Z)
  (k n : nat) (p q p' : nat) (bs l : list Z) :
  (n <= k)%nat ->
  successiveDraws entropy draws d k p = Some (bs, q) ->
  successiveDraws entropy draws d n p = Some (l, p') ->
  exists cs, bs = l ++ cs.
Proof.
  intros Hk Ek En.
  replace k with (n + (k - n))%nat in Ek by lia.
  rewrite successiveDraws_app, En in Ek.
  destruct (successiveDraws entropy draws d (k - n) p') as [[cs q']|];
    try discriminate.
  injection Ek as <- _. eauto.
Qed.

(** How a run of the witness loop ends: with the verdict true, after
    accepted draws in a row, when the loop test stops it; with the
    verdict false at the first draw that is not accepted; with a draw that
    does not return; or with its budget of rounds used up. *)
Lemma witnessLoop_run (entropy : nat -> Z) (draws : nat) (w m a : Z) :
  3 < w -> 0 <= m -> 1 <= a ->
  forall rounds iterations p,
    exists p',
      (witnessLoop entropy rounds draws w (w - 1) m a iterations p
       = (Ok true, p') /\
       exists n bases,
         (n < rounds)%nat /\
         continues n iterations = true /\
         continues (S n) iterations = false /\
         successiveDraws entropy draws (w - 1) (S n) p = Some (bases, p') /\
         Forall (accepted w a m) bases) \/
      (witnessLoop entropy rounds draws w (w - 1) m a iterations p
       = (Ok false, p') /\
       exists k bases b,
         (k < rounds)%nat /\
         continues k iterations = true /\
         successiveDraws entropy draws (w - 1) (S k) p
         = Some (bases ++ [b], p') /\
         Forall (accepted w a m) bases /\
         2 <= b <= w - 1 /\ ~ strong_probable_prime w a m b) \/
      (witnessLoop entropy rounds draws w (w - 1) m a iterations p
       = (Timeout, p') /\
       exists k bases q,
         (k < rounds)%nat /\
         continues k iterations = true /\
         successiveDraws entropy draws (w - 1) k p = Some (bases, q) /\
         Forall (accepted w a m) bases /\
         randBetween entropy draws (w - 1) 2 q = (Timeout, p')) \/
      (witnessLoop entropy rounds draws w (w - 1) m a iterations p
       = (Timeout, p') /\
       continues rounds iterations = true /\
       exists bases,
         successiveDraws entropy draws (w - 1) rounds p = Some (bases, p') /\
         Forall (accepted w a m) bases).
Proof.
  intros Hw Hm Ha rounds.
  induction rounds as [|rounds IH]; intros iterations p.
  - exists p. right. right. right. split; [reflexivity|].
    split; [reflexivity|]. exists []. split; [reflexivity | constructor].
  - rewrite witnessLoop_step.
    destruct (randBetween entropy draws (w - 1) 2 p) as [[b| |] p1] eqn:Eb.
    + pose proof (randBetween_range _ _ _ _ _ _ _ Eb) as Hb.
      destruct (witnessCheck_spec w m a b ltac:(lia) Hm Ha) as [[Ec Hs]|[Ec Hs]];
        rewrite Ec.
      * destruct (Z.eqb_spec (decrement iterations) 0) as [E0|Hne]; cbn [negb].
        -- exists p1. left. split; [reflexivity|]. exists 0%nat, [b].
           split; [lia|]. split; [reflexivity|].
           split; [apply continues_stop, E0|].
           split; [apply (successiveDraws_cons _ _ _ 0 _ _ _ _ _ Eb);
                   reflexivity|].
           constructor; [split; assumption | constructor].
        -- destruct (IH (decrement iterations) p1)
             as [p' [(E & n & bases & Hn & Hc & Hc' & Es & Hall)
                    |[(E & k & bases & b' & Hk & Hc & Es & Hall & Hb' & Hnot)
                    |[(E & k & bases & q & Hk & Hc & Es & Hall & Eq)
                    |(E & Hc & bases & Es & Hall)]]]];
             exists p'.
           ++ left. split; [exact E|]. exists (S n), (b :: bases).
              split; [lia|]. rewrite !continues_S by exact Hne.
              split; [exact Hc|]. split; [exact Hc'|].
              split; [exact (successiveDraws_cons _ _ _ _ _ _ _ _ _ Eb Es)|].
              constructor; [split; assumption | exact Hall].
           ++ right. left. split; [exact E|].
              exists (S k), (b :: bases), b'.
              split; [lia|]. rewrite continues_S by exact Hne.
              split; [exact Hc|].
              split; [exact (successiveDraws_cons _ _ _ _ _ _ _ _ _ Eb Es)|].
              split; [constructor; [split; assumption | exact Hall]|].
              split; assumption.
           ++ right. right. left. split; [exact E|].
              exists (S k), (b :: bases), q.
              split; [lia|]. rewrite continues_S by exact Hne.
              split; [exact Hc|].
              split; [exact (successiveDraws_cons _ _ _ _ _ _ _ _ _ Eb Es)|].
              split; [constructor; [split; assumption | exact Hall]|].
              exact Eq.
           ++ right. right. right. split; [exact E|].
              rewrite continues_S by exact Hne. split; [exact Hc|].
              exists (b :: bases).
              split; [exact (successiveDraws_cons _ _ _ _ _ _ _ _ _ Eb Es)|].
              constructor; [split; assumption | exact Hall].
      * exists p1. right. left. split; [reflexivity|].
        exists 0%nat, [], b. split; [lia|]. split; [reflexivity|].
        split; [apply (successiveDraws_cons _ _ _ 0 _ _ _ _ _ Eb);
                reflexivity|].
        split; [constructor|]. split; assumption.
    + exfalso. apply (randBetween_not_thrown entropy draws (w - 1) 2 p p1 e);
        [lia | exact Eb].
    + exists p1. right. right. left. split; [reflexivity|].
      exists 0%nat, [], p. split; [lia|]. split; [reflexivity|].
      split; [reflexivity|]. split; [constructor | exact Eb].
Qed.

(** A run whose draws all come back, each within some number of
    attempts, returns once every draw is given enough attempts and the
    budget of rounds reaches the round at which the loop test stops it. *)
Lemma witnessLoop_returns (entropy : nat -> Z) (w m a : Z) :
  3 < w -> 0 <= m -> 1 <= a ->
  forall rounds iterations p,
    continues rounds iterations = false ->
    (forall k draws0 bases q,
        continues k iterations = true ->
        successiveDraws entropy draws0 (w - 1) k p = Some (bases, q) ->
        Forall (accepted w a m) bases ->
        exists draws, fst (randBetween entropy draws (w - 1) 2 q) <> Timeout) ->
    exists draws verdict p',
      witnessLoop entropy rounds draws w (w - 1) m a iterations p
      = (Ok verdict, p').
Proof.
  intros Hw Hm Ha rounds.
  induction rounds as [|rounds IH]; intros iterations p Hstop Hdraws;
    [discriminate|].
  destruct (Hdraws 0%nat 0%nat [] p eq_refl eq_refl (Forall_nil _))
    as [d1 Hd1].
  destruct (randBetween_returns entropy d1 (w - 1) 2 p ltac:(lia) Hd1)
    as [b [p1 Eb]].
  pose proof (randBetween_range _ _ _ _ _ _ _ Eb) as Hb.
  destruct (witnessCheck_spec w m a b ltac:(lia) Hm Ha) as [[Ec Hs]|[Ec Hs]].
  - destruct (Z.eq_dec (decrement iterations) 0) as [E0|Hne].
    + exists d1, true, p1. rewrite witnessLoop_step, Eb, Ec, E0. reflexivity.
    + rewrite continues_S in Hstop by exact Hne.
      destruct (IH (decrement iterations) p1 Hstop) as [d2 [verdict [p' E]]].
      { intros k draws0 bases q Hk Es Hall.
        apply (Hdraws (S k) (Nat.max d1 draws0) (b :: bases) q).
        - rewrite continues_S by exact Hne. exact Hk.
        - apply successiveDraws_cons with (p1 := p1).
          + exact (randBetween_more_draws _ _ _ _ _ _ _ _
                     (Nat.le_max_l d1 draws0) Eb).
          + exact (successiveDraws_more_draws _ _ _ _
                     (Nat.le_max_r d1 draws0) _ _ _ _ Es).
        - constructor; [split; assumption | exact Hall]. }
      exists (Nat.max d1 d2), verdict, p'.
      rewrite witnessLoop_step,
        (randBetween_more_draws _ _ _ _ _ _ _ _ (Nat.le_max_l d1 d2) Eb), Ec.
      destruct (Z.eqb_spec (decrement iterations) 0) as [?|_]; [contradiction|].
      cbn [negb].
      exact (witnessLoop_more_draws _ _ _ _ _ _ _ _ _ _ _ _
               (Nat.le_max_r d1 d2) E).
  - exists d1, false, p1. rewrite witnessLoop_step, Eb, Ec. reflexivity.
Qed.

(** Every draw of a run that returns comes back. *)
Lemma witnessLoop_draws_return (entropy : nat -> Z) (w m a : Z) :
  3 < w -> 0 <= m -> 1 <= a ->
  forall rounds draws iterations p verdict p',
    witnessLoop entropy rounds draws w (w - 1) m a iterations p
    = (Ok verdict, p') ->
    forall k draws0 bases q,
      continues k iterations = true ->
      successiveDraws entropy draws0 (w - 1) k p = Some (bases, q) ->
      Forall (accepted w a m) bases ->
      exists draws1, fst (randBetween entropy draws1 (w - 1) 2 q) <> Timeout.
Proof.
  intros Hw Hm Ha rounds draws iterations p verdict p' E
    k draws0 bases q Hk Es Hall.
  pose proof (successiveDraws_more_draws entropy draws0 (Nat.max draws draws0)
                (w - 1) (Nat.le_max_r _ _) _ _ _ _ Es) as Es'.
  exists (Nat.max draws draws0).
  destruct (witnessLoop_run entropy draws w m a Hw Hm Ha rounds iterations p)
    as [p1 [(El & n & l & _ & _ & Hstop & En & _)
           |[(El & k0 & l & b & _ & _ & En & _ & _ & Hnot)
           |[(El & _)
           |(El & _)]]]];
    rewrite El in E; try discriminate; clear El;
    apply (successiveDraws_more_draws entropy draws (Nat.max draws draws0)
             (w - 1) (Nat.le_max_l _ _)) in En.
  - assert (Hlt : (k < S n)%nat).
    { destruct (Nat.lt_ge_cases k (S n)) as [?|Hge]; [assumption|].
      rewrite (continues_le (S n) k iterations Hge Hk) in Hstop.
      discriminate. }
    destruct (successiveDraws_next _ _ _ _ _ _ _ _ _ _ Hlt Es' En)
      as [b [q' Eb]].
    rewrite Eb. discriminate.
  - destruct (Nat.lt_ge_cases k (S k0)) as [Hlt|Hge].
    + destruct (successiveDraws_next _ _ _ _ _ _ _ _ _ _ Hlt Es' En)
        as [b' [q' Eb]].
      rewrite Eb. discriminate.
    + exfalso.
      destruct (successiveDraws_prefix _ _ _ _ _ _ _ _ _ _ Hge Es' En)
        as [cs ->].
      rewrite !Forall_app in Hall. destruct Hall as [[_ Hb] _].
      inversion Hb as [|b0 l0 [_ Hacc] _]. contradiction.
Qed.

(** On the prime 1601 and the source of zeros, a run that the loop test
    never stops does not return. *)
Lemma witnessLoop_zeroEntropy_goes_on (rounds draws : nat) :
  forall iterations p,
    (forall k, continues k iterations = true) ->
    fst (witnessLoop zeroEntropy rounds draws 1601 1600 25 6 iterations p)
    = Timeout.
Proof.
  induction rounds as [|rounds IH]; intros iterations p Hc.
  - reflexivity.
  - rewrite witnessLoop_step. destruct draws as [|draws].
    + rewrite randBetween_no_draws. reflexivity.
    + rewrite randBetween_zeroEntropy, witnessCheck_1601_2.
      pose proof (Hc 1%nat) as H1. cbn [continues] in H1.
      destruct (Z.eqb_spec (decrement iterations) 0) as [?|Hne];
        [discriminate|].
      cbn [negb]. apply IH. intros k.
      rewrite <- continues_S by exact Hne. apply Hc.
Qed.

(** C9, amended: for a candidate w >= 0 and an iteration count from 1 to
    2^53 + 2, a run of [_isProbablyPrime] with a budget of [iterations]
    rounds returns a verdict, unless one of its own draws does not come
    back: a draw of [randBetween (w - 1) 2] made where the run stands
    after accepted draws in a row from its start.  So the run returns,
    given enough attempts for its draws, exactly when each of its draws
    comes back.  The lower bound cannot be dropped: on the prime 1601,
    with a random source on which every draw comes back, the call with
    iterations = 0 returns for no budget of rounds and draws.  Neither can
    the upper bound: from 2^53 + 4 on, [--iterations] never gets below
    2^53 + 4, and the call returns for no budget either. *)
Theorem miller_rabin_terminates :
  (forall (entropy : nat -> Z) (draws : nat) (w iterations : Z) (p : nat),
      0 <= w -> 1 <= iterations <= 2 ^ 53 + 2 ->
      (exists verdict p',
          _isProbablyPrime entropy (Z.to_nat iterations) draws w iterations p
          = (Ok verdict, p')) \/
      (exists q p',
          run_draw entropy w iterations p q /\
          randBetween entropy draws (w - 1) 2 q = (Timeout, p') /\
          _isProbablyPrime entropy (Z.to_nat iterations) draws w iterations p
          = (Timeout, p'))) /\
  (forall (entropy : nat -> Z) (w iterations : Z) (p : nat),
      0 <= w -> 1 <= iterations <= 2 ^ 53 + 2 ->
      (exists draws verdict p',
          _isProbablyPrime entropy (Z.to_nat iterations) draws w iterations p
          = (Ok verdict, p')) <->
      (forall q, run_draw entropy w iterations p q ->
         exists draws,
           fst (randBetween entropy draws (w - 1) 2 q) <> Timeout)) /\
  (forall draws q,
      randBetween zeroEntropy (S draws) (1601 - 1) 2 q
      = (Ok 2, (q + 2)%nat)) /\
  (forall rounds draws p,
      fst (_isProbablyPrime zeroEntropy rounds draws 1601 0 p) = Timeout) /\
  (forall iterations rounds draws p,
      2 ^ 53 + 4 <= iterations ->
      fst (_isProbablyPrime zeroEntropy rounds draws 1601 iterations p)
      = Timeout).
Proof.
  split; [|split; [|split; [|split]]].
  - intros entropy draws w iterations p Hw Hit.
    destruct (_isProbablyPrime_before_loop w Hw)
      as [[verdict E]|(H3 & Hodd & Et)].
    { left. exists verdict, p. apply E. }
    pose proof (trialDivision_none_gt_3 w H3 Et) as Hgt.
    destruct (_isProbablyPrime_loop w H3 Hodd Et) as (a & Ea & Ha & Hm & E).
    rewrite E.
    destruct (witnessLoop_run entropy draws w _ a Hgt Hm Ha
                (Z.to_nat iterations) iterations p)
      as [p' [(El & _)
             |[(El & _)
             |[(El & k & bases & q & _ & Hk & Es & Hall & Eq)
             |(_ & Hc & _)]]]].
    + left. exists true, p'. exact El.
    + left. exists false, p'. exact El.
    + right. exists q, p'. split; [|split; assumption].
      split; [exact H3|]. split; [exact Hodd|]. split; [exact Et|].
      exists a, k, draws, bases. auto.
    + rewrite (continues_stops iterations Hit) in Hc. discriminate.
  - intros entropy w iterations p Hw Hit.
    destruct (_isProbablyPrime_before_loop w Hw)
      as [[verdict E]|(H3 & Hodd & Et)].
    { split.
      - intros _ q (H3 & Hodd & Et & _). exfalso.
        pose proof (E zeroEntropy 0%nat 0%nat 0 0%nat) as E0.
        destruct (_isProbablyPrime_loop w H3 Hodd Et) as (a & _ & _ & _ & El).
        rewrite El in E0. discriminate.
      - intros _. exists 0%nat, verdict, p. apply E. }
    pose proof (trialDivision_none_gt_3 w H3 Et) as Hgt.
    destruct (_isProbablyPrime_loop w H3 Hodd Et) as (a & Ea & Ha & Hm & E).
    split.
    + intros (draws & verdict & p' & Ev) q
        (_ & _ & _ & a' & k & draws0 & bases & Ea' & Hk & Es & Hall).
      rewrite Ea in Ea'. injection Ea' as <-. rewrite E in Ev.
      exact (witnessLoop_draws_return entropy w _ a Hgt Hm Ha _ _ _ _ _ _
               Ev k draws0 bases q Hk Es Hall).
    + intros Hdraws.
      destruct (witnessLoop_returns entropy w _ a Hgt Hm Ha
                  (Z.to_nat iterations) iterations p
                  (continues_stops iterations Hit))
        as (draws & verdict & p' & Ev).
      { intros k draws0 bases q Hk Es Hall. apply Hdraws.
        split; [exact H3|]. split; [exact Hodd|]. split; [exact Et|].
        exists a, k, draws0, bases. auto. }
      exists draws, verdict, p'. rewrite E. exact Ev.
  - intros draws q. apply randBetween_zeroEntropy.
  - intros rounds draws p. rewrite _isProbablyPrime_1601.
    apply witnessLoop_zeroEntropy_goes_on.
    intros k. apply continues_nonpos. lia.
  - intros iterations rounds draws p Hit. rewrite _isProbablyPrime_1601.
    apply witnessLoop_zeroEntropy_goes_on.
    intros k. apply continues_large, Hit.
Qed.

Lemma miller_rabin_terminates_witness :
  0 <= 1601 /\ 1 <= 16 <= 2 ^ 53 + 2 /\
  ((exists verdict p',
       _isProbablyPrime zeroEntropy (Z.to_nat 16) 1 1601 16 0%nat
       = (Ok verdict, p')) \/
   (exists q p',
       run_draw zeroEntropy 1601 16 0%nat q /\
       randBetween zeroEntropy 1 (1601 - 1) 2 q = (Timeout, p') /\
       _isProbablyPrime zeroEntropy (Z.to_nat 16) 1 1601 16 0%nat
       = (Timeout, p'))) /\
  ((exists draws verdict p',
       _isProbablyPrime zeroEntropy (Z.to_nat 16) draws 1601 16 0%nat
       = (Ok verdict, p')) <->
   (forall q, run_draw zeroEntropy 1601 16 0%nat q ->
      exists draws,
        fst (randBetween zeroEntropy draws (1601 - 1) 2 q) <> Timeout)) /\
  2 ^ 53 + 4 <= 2 ^ 54 /\
  fst (_isProbablyPrime zeroEntropy 16 1 1601 (2 ^ 54) 0%nat) = Timeout.
Proof.
  split; [lia|]. split; [lia|]. split; [|split; [|split; [lia|]]].
  - apply (proj1 miller_rabin_terminates zeroEntropy 1%nat 1601 16 0%nat); lia.
  - apply (proj1 (proj2 miller_rabin_terminates) zeroEntropy 1601 16 0%nat);
      lia.
  - apply (proj2 (proj2 (proj2 (proj2 miller_rabin_terminates)))
             (2 ^ 54) 16%nat 1%nat 0%nat); lia.
Defined.

(** C9, as the spec states it, for every iterations >= 1, fails: with
    iterations = 2^54 on the prime 1601 and a source on which every draw
    comes back, the test returns for no budget of rounds and draws. *)
Lemma miller_rabin_huge_iteration_count :
  ~ (forall (entropy : nat -> Z) (w iterations : Z) (p : nat),
        0 <= w -> 1 <= iterations ->
        (forall q, exists draws v q',
            randBetween entropy draws (w - 1) 2 q = (Ok v, q')) ->
        exists rounds draws verdict p',
          _isProbablyPrime entropy rounds draws w iterations p
          = (Ok verdict, p')).
Proof.
  intros H.
  destruct (H zeroEntropy 1601 (2 ^ 54) 0%nat ltac:(lia) ltac:(lia))
    as (rounds & draws & verdict & p' & E).
  - intros q. exists 1%nat, 2, (q + 2)%nat. apply randBetween_zeroEntropy.
  - rewrite _isProbablyPrime_1601 in E.
    pose proof (witnessLoop_zeroEntropy_goes_on rounds draws (2 ^ 54) 0%nat
                  ltac:(intros k; apply continues_large; lia)) as Hs.
    rewrite E in Hs. discriminate.
Qed.

(** ** What a verdict of the witness loop means *)

(** X25: for a candidate that reaches the witness loop (odd, at least 3,
    no verdict of the trial division), with w - 1 = 2^a * m, and an
    iteration count up to 2^53, the verdict tells what the draws of the
    run were.  A verdict false: the run made k + 1 draws in a row from its
    start, for some k below the budget of rounds, the first k were bases
    of [2, w-1] to which w is a strong probable prime and the last one a
    base of [2, w-1] to which it is not.  A verdict true: iterations >= 1
    and the run made exactly [iterations] draws in a row from its start,
    all bases of [2, w-1] to which w is a strong probable prime.  In both
    cases the run stops where the last draw stopped. *)
Theorem verdict_of_the_witness_loop (entropy : nat -> Z) (w : Z) :
  3 <= w -> w mod 2 = 1 -> trialDivision firstPrimes w = None ->
  exists a,
    twoAdicity (w - 1) = Ok a /\ 1 <= a /\
    forall rounds draws iterations p verdict p',
      iterations <= 2 ^ 53 ->
      _isProbablyPrime entropy rounds draws w iterations p
      = (Ok verdict, p') ->
      (verdict = false ->
       exists k bases b,
         (k < rounds)%nat /\
         (1 <= iterations -> (k < Z.to_nat iterations)%nat) /\
         successiveDraws entropy draws (w - 1) (S k) p
         = Some (bases ++ [b], p') /\
         Forall (accepted w a (Z.quot (w - 1) (2 ^ a))) bases /\
         2 <= b <= w - 1 /\
         ~ strong_probable_prime w a (Z.quot (w - 1) (2 ^ a)) b) /\
      (verdict = true ->
       1 <= iterations /\ (Z.to_nat iterations <= rounds)%nat /\
       exists bases,
         successiveDraws entropy draws (w - 1) (Z.to_nat iterations) p
         = Some (bases, p') /\
         Forall (accepted w a (Z.quot (w - 1) (2 ^ a))) bases).
Proof.
  intros Hw Hodd Et.
  pose proof (trialDivision_none_gt_3 w Hw Et) as Hgt.
  destruct (_isProbablyPrime_loop w Hw Hodd Et) as (a & Ea & Ha & Hm & E).
  exists a. split; [exact Ea|]. split; [exact Ha|].
  intros rounds draws iterations p verdict p' Hit Ev. rewrite E in Ev.
  destruct (witnessLoop_run entropy draws w _ a Hgt Hm Ha rounds iterations p)
    as [q [(El & n & bases & Hn & Hc & Hstop & Es & Hall)
          |[(El & k & bases & b & Hk & Hc & Es & Hall & Hb & Hnot)
          |[(El & _)
          |(El & _)]]]];
    rewrite El in Ev; try discriminate; injection Ev as <- <-.
  - split; [discriminate|]. intros _.
    assert (H1 : 1 <= iterations).
    { destruct (Z_le_gt_dec iterations 0) as [H0|?]; [|lia].
      rewrite (continues_nonpos (S n) iterations H0) in Hstop. discriminate. }
    apply (continues_exact n iterations ltac:(lia)) in Hc.
    assert (Hn' : ~ (S n < Z.to_nat iterations)%nat).
    { intros Hlt. apply (continues_exact (S n) iterations ltac:(lia)) in Hlt.
      rewrite Hlt in Hstop. discriminate. }
    assert (En : Z.to_nat iterations = S n) by lia.
    rewrite En. split; [exact H1|]. split; [lia|]. exists bases. auto.
  - split; [|discriminate]. intros _. exists k, bases, b.
    split; [exact Hk|]. split; [|auto].
    intros H1. apply (continues_exact k iterations ltac:(lia)). exact Hc.
Qed.

Lemma verdict_of_the_witness_loop_witness :
  3 <= 1601 /\ 1601 mod 2 = 1 /\ trialDivision firstPrimes 1601 = None /\
  16 <= 2 ^ 53 /\
  _isProbablyPrime zeroEntropy 16 1 1601 16 0%nat = (Ok true, 32%nat) /\
  exists a,
    twoAdicity (1601 - 1) = Ok a /\ 1 <= a /\
    1 <= 16 /\ (Z.to_nat 16 <= 16)%nat /\
    exists bases,
      successiveDraws zeroEntropy 1 (1601 - 1) (Z.to_nat 16) 0%nat
      = Some (bases, 32%nat) /\
      Forall (accepted 1601 a (Z.quot (1601 - 1) (2 ^ a))) bases.
Proof.
  assert (Et : trialDivision firstPrimes 1601 = None)
    by (vm_compute; reflexivity).
  assert (Ev : _isProbablyPrime zeroEntropy 16 1 1601 16 0%nat
               = (Ok true, 32%nat)) by (vm_compute; reflexivity).
  split; [lia|]. split; [reflexivity|]. split; [exact Et|].
  split; [lia|]. split; [exact Ev|].
  destruct (verdict_of_the_witness_loop zeroEntropy 1601
              ltac:(lia) eq_refl Et) as (a & Ea & Ha & H).
  exists a. split; [exact Ea|]. split; [exact Ha|].
  exact (proj2 (H 16%nat 1%nat 16 0%nat true 32%nat ltac:(lia) Ev) eq_refl).
Defined.

(** ** The search accepts a candidate its own run of the test accepted *)

(** A search that returns went through [search_run] from its starting
    position. *)
Lemma search_runs (entropy : nat -> Z) (rounds draws : nat)
  (n iterations : Z) :
  1 <= n ->
  forall tries p p' v,
    search entropy tries rounds draws n iterations p = (Ok v, p') ->
    search_run entropy rounds draws n iterations p v p'.
Proof.
  intros Hn tries. unfold search, do_whileM. generalize 0 as s.
  remember (fun _ : Z =>
              s' <~ (buf <~ randBitsSync entropy n true ;;
                     retM (fromBuffer buf)) ;;
              c <~ (ok <~ _isProbablyPrime entropy rounds draws s' iterations ;;
                    retM (negb ok)) ;;
              retM (if c then Next s' else Done s')) as step eqn:Hstep.
  induction tries as [|tries IH]; intros s p p' v E.
  - discriminate.
  - cbn [loopM] in E. unfold bindM at 1 in E.
    destruct (step s p) as [[c| |] q] eqn:Es; try discriminate.
    rewrite Hstep in Es. unfold bindM, retM in Es.
    destruct (randBitsSync_spec entropy n true p Hn) as [buf [Eb _]].
    rewrite Eb in Es.
    destruct (_isProbablyPrime entropy rounds draws (fromBuffer buf) iterations
                (p + Z.to_nat (ceil_div8 n))%nat)
      as [[[|]| |] q1] eqn:Ep; try discriminate;
      cbn [negb] in Es; injection Es as <- <-.
    + injection E as <- <-.
      apply search_run_found with (p1 := (p + Z.to_nat (ceil_div8 n))%nat);
        assumption.
    + apply search_run_retry
        with (p1 := (p + Z.to_nat (ceil_div8 n))%nat) (p2 := q1) (buf := buf);
        [assumption | assumption | exact (IH _ _ _ _ E)].
Qed.

(** The candidate a search ends with was drawn with its top bit set, and
    the test that accepted it is the last thing the search did. *)
Lemma search_run_last (entropy : nat -> Z) (rounds draws : nat)
  (n iterations : Z) (p p' : nat) (v : Z) :
  1 <= n ->
  search_run entropy rounds draws n iterations p v p' ->
  exact_bits n v /\
  exists q buf q1,
    randBitsSync entropy n true q = (Ok buf, q1) /\ fromBuffer buf = v /\
    _isProbablyPrime entropy rounds draws v iterations q1 = (Ok true, p').
Proof.
  intros Hn H. induction H as [p p1 p' buf Eb Ep|p p1 p2 p' buf v Eb Ep H IH].
  - split.
    + destruct (randBitsSync_spec entropy n true p Hn) as [buf0 [Eb0 [Hr Hf]]].
      rewrite Eb in Eb0. injection Eb0 as -> _.
      split; [apply Hf; reflexivity | apply Hr].
    + exists p, buf, p1. auto.
  - exact IH.
Qed.

(** The runs written down are the steps of the search, and every step is
    one of them. *)
Lemma run_steps_steps (entropy : nat -> Z) (n iterations0 : Z)
  (s s' : coordinator * nat) :
  steps entropy n iterations0 s s' <->
  exists log, run_steps entropy n iterations0 s log s'.
Proof.
  split.
  - intros H. induction H as [s|s1 s2 s3 H12 [log IH] H23].
    + exists []. constructor.
    + destruct H23 as [c c' p p' worker msg r Hin Hans E].
      destruct Hans as [we rounds draws q q' verdict Ev].
      exists (log ++ [{| run_worker := worker; run_request := msg;
                         run_entropy := we; run_rounds := rounds;
                         run_draws := draws; run_start := q;
                         run_verdict := verdict; run_stop := q' |}]).
      apply run_steps_cons with (s2 := (c, p)); [exact IH|].
      constructor; [exact Hin | exact Ev | exact E].
  - intros [log H]. induction H as [s|s1 s2 s3 log r H12 IH H23].
    + constructor.
    + apply steps_cons with (s2 := s2); [exact IH|].
      destruct H23 as [c c' p p' r Hin Ht E].
      apply step_report with (worker := run_worker r) (msg := run_request r)
                             (r := run_report r);
        [exact Hin | | exact E].
      exact (answers_intro (run_request r) (run_entropy r) (run_rounds r)
               (run_draws r) (run_start r) (run_stop r) (run_verdict r) Ht).
Qed.

Lemma _onmessage_posted (entropy : nat -> Z) (n iterations0 : Z) (msg : report)
  (worker : nat) (c c' : coordinator) (p p' : nat) :
  _onmessage entropy n iterations0 msg worker c p = (Ok c', p') ->
  forall wm, In wm (posted c) -> In wm (posted c').
Proof.
  intros E wm Hin. apply _onmessage_cases in E.
  destruct E as [(_ & _ & -> & _)|(_ & rnd0 & ->)]; [exact Hin|].
  destruct (postMessage_fields worker
              {| rnd := rnd0; iterations := iterations0;
                 id := report_id msg |} c) as (_ & _ & _ & ->).
  destruct (is_terminated c worker); [exact Hin | right; exact Hin].
Qed.

Lemma run_step_inv (entropy : nat -> Z) (n iterations0 : Z)
  (c c' : coordinator) (p p' : nat) (log : list testRun) (r : testRun) :
  1 <= n ->
  coordinator_inv n iterations0 c -> log_inv c log ->
  run_step entropy n iterations0 (c, p) r (c', p') ->
  coordinator_inv n iterations0 c' /\ log_inv c' (log ++ [r]).
Proof.
  intros Hn Hinv [Hlog Hres] Hstep.
  inversion Hstep as [c0 c0' p0 p0' r0 Hin Ht E]; subst.
  split.
  - destruct (proj1 Hinv _ _ Hin) as [Hb Hi].
    apply (_onmessage_inv entropy n iterations0 (run_report r) (run_worker r)
             c c' p p' Hn Hinv); [|exact E].
    cbn [run_report isPrime value]. intros Hv. split; [exact Hb|].
    unfold run_tested in Ht. rewrite Hv, Hi in Ht.
    exists (run_entropy r), (run_rounds r), (run_draws r), (run_start r),
      (run_stop r). exact Ht.
  - pose proof (_onmessage_posted _ _ _ _ _ _ _ _ _ E) as Hmono.
    split.
    + apply Forall_app. split.
      * apply Forall_forall. intros r1 H1.
        rewrite Forall_forall in Hlog. destruct (Hlog r1 H1) as [Hp Hr].
        split; [apply Hmono, Hp | exact Hr].
      * constructor; [|constructor]. split; [apply Hmono, Hin | exact Ht].
    + apply _onmessage_cases in E. cbn [run_report isPrime value] in E.
      destruct E as [(Hv & _ & _ & -> & _)|(Hv & rnd0 & ->)].
      * destruct (result c) as [|v0]; cbn [resolve].
        -- exists log, r, []. auto.
        -- destruct Hres as (before & run & later & -> & Hb & Hr & Hv0).
           exists before, run, (later ++ [r]).
           rewrite <- app_assoc. auto.
      * destruct (postMessage_fields (run_worker r)
                    {| rnd := rnd0; iterations := iterations0;
                       id := report_id (run_report r) |} c)
          as (_ & _ & -> & _).
        destruct (result c) as [|v0].
        -- apply Forall_app. split; [exact Hres|].
           constructor; [exact Hv | constructor].
        -- destruct Hres as (before & run & later & -> & Hb & Hr & Hv0).
           exists before, run, (later ++ [r]).
           rewrite <- app_assoc. auto.
Qed.

Lemma run_steps_inv (entropy : nat -> Z) (n iterations0 : Z)
  (s s' : coordinator * nat) (log : list testRun) :
  1 <= n ->
  run_steps entropy n iterations0 s log s' ->
  coordinator_inv n iterations0 (fst s) -> log_inv (fst s) [] ->
  coordinator_inv n iterations0 (fst s') /\ log_inv (fst s') log.
Proof.
  intros Hn H. induction H as [s|s1 s2 s3 log r H12 IH H23]; [auto|].
  intros H1 H2. destruct (IH H1 H2) as [Hc Hl].
  destruct s2 as [c2 p2], s3 as [c3 p3]. cbn [fst] in *.
  exact (run_step_inv entropy n iterations0 c2 c3 p2 p3 log r Hn Hc Hl H23).
Qed.

(** C2: for a bit length n >= 1, a value v returned by [primeSync], and a
    value v the promise of [prime] is fulfilled with, has exactly n bits
    (its top bit is set) and was accepted by the search's own run of the
    test with the iteration count of the call.  For [primeSync] and for
    [prime] on its sequential path, the search drew and tested its
    candidates one after the other from its starting position, and v is
    the candidate of the last test, which returned true where the search
    stopped.  For [prime] on its worker path, whatever runs of the test
    the workers made and in whatever order their reports were handled, v
    is the candidate of the first run that reported a prime: a run of
    [_isProbablyPrime] on v with the iteration count of the call, answering
    a message the coordinator posted, that returned true.  For n < 1 both
    throw the RangeError "bitLength MUST be > 0" without having read the
    random source. *)
Theorem prime_exact_bits_and_passes (entropy : nat -> Z) (n iterations0 : Z) :
  (1 <= n ->
   forall tries rounds draws p p' v,
     primeSync entropy tries rounds draws n iterations0 p = (Ok v, p') ->
     2 ^ (n - 1) <= v < 2 ^ n /\
     search_run entropy rounds draws n iterations0 p v p' /\
     exists q buf q1,
       randBitsSync entropy n true q = (Ok buf, q1) /\ fromBuffer buf = v /\
       _isProbablyPrime entropy rounds draws v iterations0 q1
       = (Ok true, p')) /\
  (1 <= n ->
   forall hardwareConcurrency tries rounds draws p p' c,
     prime entropy false hardwareConcurrency tries rounds draws
       n iterations0 p = (Ok c, p') ->
     exists v,
       result c = Fulfilled v /\ posted c = [] /\
       2 ^ (n - 1) <= v < 2 ^ n /\
       search_run entropy rounds draws n iterations0 p v p' /\
       exists q buf q1,
         randBitsSync entropy n true q = (Ok buf, q1) /\ fromBuffer buf = v /\
         _isProbablyPrime entropy rounds draws v iterations0 q1
         = (Ok true, p')) /\
  (1 <= n ->
   forall hardwareConcurrency tries rounds draws p p' c log s v,
     prime entropy true hardwareConcurrency tries rounds draws
       n iterations0 p = (Ok c, p') ->
     run_steps entropy n iterations0 (c, p') log s ->
     result (fst s) = Fulfilled v ->
     2 ^ (n - 1) <= v < 2 ^ n /\
     exists before run later,
       log = before ++ run :: later /\
       Forall (fun r => run_verdict r = false) before /\
       In (run_worker run, run_request run) (posted (fst s)) /\
       rnd (run_request run) = v /\
       iterations (run_request run) = iterations0 /\
       run_verdict run = true /\
       _isProbablyPrime (run_entropy run) (run_rounds run) (run_draws run)
         v iterations0 (run_start run)
       = (Ok true, run_stop run)) /\
  (n < 1 ->
   forall _useWorkers hardwareConcurrency tries rounds draws p,
     primeSync entropy tries rounds draws n iterations0 p
     = (Throw (RangeError "bitLength MUST be > 0"), p) /\
     prime entropy _useWorkers hardwareConcurrency tries rounds draws
       n iterations0 p
     = (Throw (RangeError "bitLength MUST be > 0"), p)).
Proof.
  split; [|split; [|split]].
  - intros Hn tries rounds draws p p' v. unfold primeSync.
    destruct (Z.ltb_spec n 1) as [?|_]; [lia|].
    intros E. apply search_runs in E; [|exact Hn].
    destruct (search_run_last _ _ _ _ _ _ _ _ Hn E) as [Hb Hl]. auto.
  - intros Hn hc tries rounds draws p p' c. unfold prime.
    destruct (Z.ltb_spec n 1) as [?|_]; [lia|]. cbn [negb].
    unfold bindM, retM.
    destruct (search entropy tries rounds draws n iterations0 p)
      as [[v| |] q] eqn:E; try discriminate.
    intros H. injection H as <- <-. exists v.
    apply search_runs in E; [|exact Hn].
    destruct (search_run_last _ _ _ _ _ _ _ _ Hn E) as [Hb Hl].
    cbn [result posted]. auto.
  - intros Hn hc tries rounds draws p p' c log s v Hprime Hsteps Hres.
    assert (Hinit : result c = Pending).
    { revert Hprime. unfold prime.
      destruct (Z.ltb_spec n 1) as [?|_]; [lia|]. cbn [negb].
      set (c0 := {| workerList := _; terminated := []; posted := [];
                    result := Pending |}).
      destruct (postInitial_inv entropy n iterations0 (workerList c0) Hn c0 p)
        as [c1 [q [E [_ [_ Hr]]]]].
      { split; [intros w m []|]. cbn. discriminate. }
      cbn [workerList c0] in E. fold c0 in E. rewrite E.
      intros H. injection H as <- _. exact Hr. }
    apply prime_inv in Hprime; [|assumption].
    destruct (run_steps_inv entropy n iterations0 (c, p') s log Hn Hsteps)
      as [Hc [Hlog Hl]].
    { exact Hprime. }
    { split; [constructor|]. cbn [fst]. rewrite Hinit. constructor. }
    rewrite Hres in Hl.
    destruct Hl as (before & run & later & -> & Hb & Hv & Hrnd).
    rewrite Forall_forall in Hlog.
    destruct (Hlog run) as [Hin Ht].
    { apply in_or_app. right. left. reflexivity. }
    destruct (proj1 Hc _ _ Hin) as [Hbits Hi].
    unfold run_tested in Ht. rewrite Hv, Hrnd, Hi in Ht.
    split; [rewrite <- Hrnd; exact Hbits|].
    exists before, run, later. auto 10.
  - intros Hn uw hc tries rounds draws p. unfold primeSync, prime.
    destruct (Z.ltb_spec n 1) as [_|?]; [|lia]. split; reflexivity.
Qed.

Lemma prime_exact_bits_and_passes_witness :
  1 <= 11 /\
  primeSync candidateEntropy 1 16 1 11 16 0%nat = (Ok 1601, 34%nat) /\
  (2 ^ (11 - 1) <= 1601 < 2 ^ 11 /\
   search_run candidateEntropy 16 1 11 16 0%nat 1601 34%nat /\
   exists q buf q1,
     randBitsSync candidateEntropy 11 true q = (Ok buf, q1) /\
     fromBuffer buf = 1601 /\
     _isProbablyPrime candidateEntropy 16 1 1601 16 q1 = (Ok true, 34%nat)) /\
  (exists c,
      prime candidateEntropy false 2 1 16 1 11 16 0%nat = (Ok c, 34%nat) /\
      exists v,
        result c = Fulfilled v /\ posted c = [] /\
        2 ^ (11 - 1) <= v < 2 ^ 11 /\
        search_run candidateEntropy 16 1 11 16 0%nat v 34%nat /\
        exists q buf q1,
          randBitsSync candidateEntropy 11 true q = (Ok buf, q1) /\
          fromBuffer buf = v /\
          _isProbablyPrime candidateEntropy 16 1 v 16 q1
          = (Ok true, 34%nat)) /\
  (exists c p' log s,
      prime candidateEntropy true 2 1 16 1 11 16 0%nat = (Ok c, p') /\
      run_steps candidateEntropy 11 16 (c, p') log s /\
      result (fst s) = Fulfilled 1601 /\
      2 ^ (11 - 1) <= 1601 < 2 ^ 11 /\
      exists before run later,
        log = before ++ run :: later /\
        Forall (fun r => run_verdict r = false) before /\
        In (run_worker run, run_request run) (posted (fst s)) /\
        rnd (run_request run) = 1601 /\
        iterations (run_request run) = 16 /\
        run_verdict run = true /\
        _isProbablyPrime (run_entropy run) (run_rounds run) (run_draws run)
          1601 16 (run_start run)
        = (Ok true, run_stop run)) /\
  0 < 1 /\
  primeSync candidateEntropy 1 16 1 0 16 7%nat
  = (Throw (RangeError "bitLength MUST be > 0"), 7%nat).
Proof.
  pose (msg := {| rnd := 1601; iterations := 16; id := 0 |}).
  pose (c := {| workerList := [0%nat]; terminated := [];
                posted := [(0%nat, msg)]; result := Pending |}).
  pose (c' := {| workerList := []; terminated := [0%nat];
                 posted := [(0%nat, msg)]; result := Fulfilled 1601 |}).
  pose (run := {| run_worker := 0%nat; run_request := msg;
                  run_entropy := zeroEntropy; run_rounds := 16%nat;
                  run_draws := 1%nat; run_start := 0%nat;
                  run_verdict := true; run_stop := 32%nat |}).
  pose (cs := {| workerList := []; terminated := []; posted := [];
                 result := Fulfilled 1601 |}).
  assert (Hsync : primeSync candidateEntropy 1 16 1 11 16 0%nat
                  = (Ok 1601, 34%nat)) by (vm_compute; reflexivity).
  assert (Hseq : prime candidateEntropy false 2 1 16 1 11 16 0%nat
                 = (Ok cs, 34%nat)) by (vm_compute; reflexivity).
  assert (Hpar : prime candidateEntropy true 2 1 16 1 11 16 0%nat
                 = (Ok c, 2%nat)) by (vm_compute; reflexivity).
  assert (Hsteps : run_steps candidateEntropy 11 16 (c, 2%nat) ([] ++ [run])
                     (c', 2%nat)).
  { apply run_steps_cons with (s2 := (c, 2%nat)); [apply run_steps_refl|].
    apply run_step_report.
    - left. reflexivity.
    - vm_compute. reflexivity.
    - vm_compute. reflexivity. }
  split; [lia|]. split; [exact Hsync|]. split.
  - apply (proj1 (prime_exact_bits_and_passes candidateEntropy 11 16)
             ltac:(lia) 1%nat 16%nat 1%nat 0%nat 34%nat 1601 Hsync).
  - split; [|split].
    + exists cs. split; [exact Hseq|].
      apply (proj1 (proj2 (prime_exact_bits_and_passes candidateEntropy 11 16))
               ltac:(lia) 2 1%nat 16%nat 1%nat 0%nat 34%nat cs Hseq).
    + exists c, 2%nat, ([] ++ [run]), (c', 2%nat).
      split; [exact Hpar|]. split; [exact Hsteps|]. split; [reflexivity|].
      apply (proj1 (proj2 (proj2
                              (prime_exact_bits_and_passes candidateEntropy
                                 11 16)))
               ltac:(lia) 2 1%nat 16%nat 1%nat 0%nat 2%nat c ([] ++ [run])
               (c', 2%nat) 1601 Hpar Hsteps eq_refl).
    + split; [lia|].
      apply (proj2 (proj2 (proj2
                              (prime_exact_bits_and_passes candidateEntropy
                                 0 16)))
               ltac:(lia) true 2 1%nat 16%nat 1%nat 7%nat).
Defined.
